(** * media-manager: reconciliation of a Tidal playlist with local audio files

    Shallow embedding of [media_manager/utils.py] and
    [media_manager/tidal_client.py], and the properties of the name
    normalizer, the filename parser, the album-artist consolidator, the
    reconciliation loop and the plan executor. *)

From Stdlib Require Import NArith ZArith Ascii String Sorted.
From stdpp Require Import base decidable option list gmap.

Local Open Scope N_scope.

(** ** Python strings

    A Python [str] is a sequence of Unicode code points. *)

Abbreviation str := (list N).

(** A [pathlib.Path] is its [parts]; an absolute path has the part ["/"]
    first. *)
Abbreviation Path := (list (list N)).

(** A literal of the source, as code points. *)
Definition lit (s : string) : str :=
  List.map N_of_ascii (list_ascii_of_string s).

(** Truth value of a list: [not l]. *)
Definition is_nil {A} (l : list A) : bool :=
  match l with [] => true | _ => false end.

Definition cp_in (lo hi c : N) : bool := (lo <=? c) && (c <=? hi).

Definition is_ascii (c : N) : bool := c <? 128.

(** [Py_UNICODE_ISSPACE] below 128: TAB..CR, FS..US and the space. *)
Definition ascii_space (c : N) : bool := cp_in 9 13 c || cp_in 28 32 c.
Definition ascii_digit (c : N) : bool := cp_in 48 57 c.
Definition ascii_upper (c : N) : bool := cp_in 65 90 c.
Definition ascii_alpha (c : N) : bool := cp_in 65 90 c || cp_in 97 122 c.
Definition ascii_alnum (c : N) : bool := ascii_digit c || ascii_alpha c.
Definition ascii_lower (c : N) : N := if ascii_upper c then c + 32 else c.

(** ** The Unicode character database

    [str.lower], [unicodedata.normalize] and the classes [\d], [\s], [\w] of
    [re] are table driven.  Below 128 the tables are written out.  Above,
    they are a parameter of the development: every theorem holds whatever
    the tables say there.  A code point above 127 belongs to one class;
    decimal digits, other alphanumerics and white space are disjoint in
    Unicode. *)

Inductive uclass := UDecimal | UAlnum | USpace | UOther.

Record UnicodeData := {
  lower_ext : N -> str;   (* full lowercase mapping of a code point >= 128 *)
  nfkd_ext : N -> str;    (* full compatibility decomposition of a code point >= 128 *)
  class_ext : N -> uclass (* class of a code point >= 128 *)
}.

(** ** The file system

    The primitives of [pathlib] and [shutil] are the interface of an
    abstract file system.  A primitive that reads the file system gives its
    answer or the [OSError] it raises: [Path.exists], [Path.is_file] and
    [Path.is_dir] answer [False] for a path that is not there and raise
    the other errors of [stat] (no permission, a name that is too long);
    [Path.iterdir] raises when the directory cannot be listed.  A primitive
    that changes the file system gives the new state and the text of the
    exception, if it raised one. *)

(** An [OSError]: a [PermissionError], or another one, with its text. *)
Inductive os_error :=
  | PermissionError (e : string)
  | OtherOSError (e : string).

Record FileSystem (FS : Type) := {
  fs_exists : Path -> FS -> os_error + bool;
  fs_is_file : Path -> FS -> os_error + bool;
  fs_is_dir : Path -> FS -> os_error + bool;
  fs_iterdir : Path -> FS -> os_error + list Path;
  fs_mkdir_parents : Path -> FS -> FS * option string;
  shutil_move : Path -> Path -> FS -> FS * option string;
  shutil_copy2 : Path -> Path -> FS -> FS * option string
}.
Arguments fs_exists {FS}.
Arguments fs_is_file {FS}.
Arguments fs_is_dir {FS}.
Arguments fs_iterdir {FS}.
Arguments fs_mkdir_parents {FS}.
Arguments shutil_move {FS}.
Arguments shutil_copy2 {FS}.

Section Model.

Context (U : UnicodeData).

Definition is_decimal (c : N) : bool :=
  if is_ascii c then ascii_digit c
  else match class_ext U c with UDecimal => true | _ => false end.

Definition is_space (c : N) : bool :=
  if is_ascii c then ascii_space c
  else match class_ext U c with USpace => true | _ => false end.

(** [\w]: alphanumeric ([str.isalnum]) or the underscore. *)
Definition is_word (c : N) : bool :=
  if is_ascii c then ascii_alnum c || (c =? 95)
  else match class_ext U c with UDecimal | UAlnum => true | _ => false end.

(** [str.lower()].  The one context rule of Python's lowercasing (capital
    sigma at the end of a word) chooses between two code points above 127
    that [nfkd] leaves alone and [encode_ascii_ignore] drops. *)
Definition lower_cp (c : N) : str :=
  if is_ascii c then [ascii_lower c] else lower_ext U c.

Definition str_lower (s : str) : str := flat_map lower_cp s.

(** [unicodedata.normalize("NFKD", s)].  Canonical reordering only permutes
    combining marks, which are above 127 and do not survive the ASCII
    encoding that follows. *)
Definition nfkd_cp (c : N) : str :=
  if is_ascii c then [c] else nfkd_ext U c.

Definition nfkd (s : str) : str := flat_map nfkd_cp s.

(** [s.encode("ASCII", "ignore").decode("utf-8")] *)
Definition encode_ascii_ignore (s : str) : str := List.filter is_ascii s.

(** [s.replace(a, b)] for one-character [a] and [b]. *)
Definition replace_char (a b : N) (s : str) : str :=
  List.map (fun c => if c =? a then b else c) s.

(** [s.replace(a, "")] for a one-character [a]. *)
Definition remove_char (a : N) (s : str) : str :=
  List.filter (fun c => negb (c =? a)) s.

(** The class [[^\w\s\-\(\)]] of [normalize_name] is the complement of this. *)
Definition kept_char (c : N) : bool :=
  is_word c || is_space c || (c =? 45) || (c =? 40) || (c =? 41).

(** [re.sub(r"\s+", " ", s)]; [in_run] tells that the previous character
    belongs to the run of white space already replaced. *)
Fixpoint collapse_from (in_run : bool) (s : str) : str :=
  match s with
  | [] => []
  | c :: r =>
      if is_space c
      then (if in_run then collapse_from true r else 32 :: collapse_from true r)
      else c :: collapse_from false r
  end.

Definition collapse_whitespace (s : str) : str := collapse_from false s.

Fixpoint lstrip_by (p : N -> bool) (s : str) : str :=
  match s with
  | [] => []
  | c :: r => if p c then lstrip_by p r else s
  end.

Fixpoint rstrip_by (p : N -> bool) (s : str) : str :=
  match s with
  | [] => []
  | c :: r =>
      match rstrip_by p r with
      | [] => if p c then [] else [c]
      | r' => c :: r'
      end
  end.

(** [s.strip()] and [s.strip(chars)] *)
Definition strip_by (p : N -> bool) (s : str) : str := lstrip_by p (rstrip_by p s).
Definition strip (s : str) : str := strip_by is_space s.

(** utils.py, [normalize_name] *)
Definition normalize_name (name : str) : str :=
  let name := str_lower name in
  let name := encode_ascii_ignore (nfkd name) in
  let name := replace_char 39 95 (replace_char 34 95 name) in
  let name := List.filter kept_char name in
  let name := replace_char 95 32 name in
  let name := collapse_whitespace name in
  strip name.

(** [normalize_name] up to the point where the white space is collapsed. *)
Definition before_collapse (x : str) : str :=
  replace_char 95 32
    (List.filter kept_char
       (replace_char 39 95 (replace_char 34 95
          (encode_ascii_ignore (nfkd (str_lower x)))))).

(** ** Paths *)

Fixpoint split_char (sep : N) (s : str) : list str :=
  match s with
  | [] => [[]]
  | c :: r =>
      match split_char sep r with
      | [] => [[]]
      | w :: ws => if c =? sep then [] :: w :: ws else (c :: w) :: ws
      end
  end.

(** The parts of a relative path string: empty parts and ["."] are dropped. *)
Definition rel_parts (s : str) : Path :=
  List.filter (fun w => negb (bool_decide (w = []) || bool_decide (w = [46])))
    (split_char 47 s).

(** [Path(s)] *)
Definition Path_of (s : str) : Path :=
  match s with
  | 47 :: _ => [47] :: rel_parts s
  | _ => rel_parts s
  end.

(** [p / s] *)
Definition path_div (p : Path) (s : str) : Path :=
  match s with
  | 47 :: _ => Path_of s
  | _ => p ++ rel_parts s
  end.

(** [p.name] *)
Definition path_name (p : Path) : str :=
  match List.rev p with
  | [] => []
  | [47] :: _ => []
  | n :: _ => n
  end.

(** Index of the last occurrence of [c], as [str.rfind] (without the -1). *)
Fixpoint rfind (c : N) (s : str) : option nat :=
  match s with
  | [] => None
  | d :: r =>
      match rfind c r with
      | Some i => Some (S i)
      | None => if d =? c then Some 0%nat else None
      end
  end.

(** [p.suffix] *)
Definition path_suffix (p : Path) : str :=
  let name := path_name p in
  match rfind 46 name with
  | Some i =>
      if (0 <? i)%nat && (i <? length name - 1)%nat then drop i name else []
  | None => []
  end.

(** [os.path.splitext(p)[0]] ([genericpath._splitext] with [sep = "/"]) *)
Definition splitext_root (p : str) : str :=
  let start := match rfind 47 p with Some i => S i | None => 0%nat end in
  match rfind 46 p with
  | Some dot =>
      if (start <=? dot)%nat &&
         existsb (fun c => negb (c =? 46)) (drop start (take dot p))
      then take dot p else p
  | None => p
  end.

(** The match of [r"^\d+\s*[\.\-]\s*"] at the start of [name]: what follows
    it, if it matches.  The three classes are disjoint, so the greedy match
    is the only one. *)
Definition numeric_prefix_match (name : str) : option str :=
  match name with
  | c :: _ =>
      if is_decimal c then
        match lstrip_by is_space (lstrip_by is_decimal name) with
        | p :: r => if (p =? 46) || (p =? 45) then Some (lstrip_by is_space r) else None
        | [] => None
        end
      else None
  | [] => None
  end.

(** [re.sub(r"^\d+\s*[\.\-]\s*", "", name)] *)
Definition strip_numeric_prefix (name : str) : str :=
  default name (numeric_prefix_match name).

Fixpoint is_prefix (p s : str) : bool :=
  match p, s with
  | [], _ => true
  | a :: p', b :: s' => (a =? b) && is_prefix p' s'
  | _ :: _, [] => false
  end.

(** [s.split(sep, 1)] when it has two parts, for a non-empty [sep]. *)
Fixpoint split_once (sep s : str) : option (str * str) :=
  match s with
  | [] => None
  | c :: r =>
      if is_prefix sep s then Some ([], drop (length sep) s)
      else match split_once sep r with
           | Some (a, b) => Some (c :: a, b)
           | None => None
           end
  end.

(** utils.py, [extract_artist_and_track]; [inl] is the raised
    [FileParsingError] with its reason. *)
Definition extract_artist_and_track (filepath : Path) : string + (str * str) :=
  let name := path_name filepath in
  let name := strip_numeric_prefix name in
  let name := splitext_root name in
  match split_once (lit " - ") name with
  | None => inl "Expected format: 'Artist - Track'"%string
  | Some (part0, part1) =>
      let artist := normalize_name part0 in
      let track := normalize_name part1 in
      if bool_decide (artist = []) || bool_decide (track = [])
      then inl "Empty artist or track name after normalization"%string
      else inr (artist, track)
  end.

Definition SUPPORTED_EXTENSIONS : list str :=
  [lit ".flac"; lit ".mp3"; lit ".m4a"; lit ".wav"; lit ".aac"; lit ".ogg"; lit ".wma"].

(** utils.py, [sanitize_filename]: the replacements in the order of the
    dictionary, then [strip(". ")], then the white space runs. *)
Definition sanitize_filename (name : str) : str :=
  let sanitized := replace_char 58 45 name in       (* ":" by "-" *)
  let sanitized := replace_char 47 45 sanitized in  (* "/" by "-" *)
  let sanitized := replace_char 92 45 sanitized in  (* backslash by "-" *)
  let sanitized := replace_char 60 40 sanitized in  (* "<" by "(" *)
  let sanitized := replace_char 62 41 sanitized in  (* ">" by ")" *)
  let sanitized := replace_char 34 39 sanitized in  (* double by single quote *)
  let sanitized := replace_char 124 45 sanitized in (* "|" by "-" *)
  let sanitized := remove_char 63 sanitized in      (* "?" *)
  let sanitized := remove_char 42 sanitized in      (* "*" *)
  let sanitized := remove_char 0 sanitized in       (* NUL *)
  let sanitized := strip_by (fun c => (c =? 46) || (c =? 32)) sanitized in
  collapse_whitespace sanitized.

(** ** tidal_client.py: tracks and matches *)

(** The fields of a [Track]; [album_id] is [track.album.id] and
    [album_artist] is [track.album_artist.name]. *)
Record Track := {
  position : nat;
  name : str;
  artists : list str;
  album_id : str;
  album_name : str;
  album_artist : str;
  track_num : Z
}.

Definition normalized_name (t : Track) : str := normalize_name (name t).

Definition normalized_artists (t : Track) : list str :=
  normalize_name <$> artists t.

Record PlaylistMatch := {
  track : Track;
  local_file : Path;
  consolidated_album_artist : str
}.

(** ** The album-artist consolidator *)

(** Comparison of two [str], code point by code point. *)
Fixpoint str_ltb (a b : str) : bool :=
  match a, b with
  | _, [] => false
  | [], _ :: _ => true
  | x :: a', y :: b' => (x <? y) || ((x =? y) && str_ltb a' b')
  end.

Fixpoint sorted_insert {A} (lt : A -> A -> bool) (x : A) (l : list A) : list A :=
  match l with
  | [] => [x]
  | y :: r => if lt y x then y :: sorted_insert lt x r else x :: y :: r
  end.

(** [sorted(l)]: stable, by [lt]. *)
Definition sorted {A} (lt : A -> A -> bool) (l : list A) : list A :=
  foldr (sorted_insert lt) [] l.

(** [sep.join(l)] *)
Fixpoint str_join (sep : str) (l : list str) : str :=
  match l with
  | [] => []
  | [x] => x
  | x :: r => x ++ sep ++ str_join sep r
  end.

(** A [collections.Counter]: the items in insertion order. *)
Fixpoint counter_incr (a : str) (c : list (str * nat)) : list (str * nat) :=
  match c with
  | [] => [(a, 1%nat)]
  | (b, n) :: r =>
      if bool_decide (a = b) then (b, S n) :: r else (b, n) :: counter_incr a r
  end.

(** [Counter.most_common()]: [sorted(items, key=count, reverse=True)]; the
    sort is stable, items of equal count keep their insertion order. *)
Definition most_common (c : list (str * nat)) : list (str * nat) :=
  sorted (fun x y => (snd y <? snd x)%nat) c.

Definition count_artists (tracks : list Track) : list (str * nat) :=
  foldl (fun counter t => foldl (fun counter a => counter_incr a counter) counter (artists t))
    [] tracks.

(** [Playlist._get_consolidated_album_artist].  [most_common[0][1]] is
    read under [if artist_counter:], where the list has a first item. *)
Definition _get_consolidated_album_artist (tracks : list Track) : str :=
  match tracks with
  | [] => lit "Unknown Artist"
  | t0 :: _ =>
      let artist_counter := count_artists tracks in
      if negb (is_nil artist_counter) then
        let common := most_common artist_counter in
        let max_count := match common with (_, n) :: _ => n | [] => 0%nat end in
        let top_artists :=
          List.map fst (List.filter (fun ac => (snd ac =? max_count)%nat) common) in
        if (length top_artists =? 1)%nat then default [] (head top_artists)
        else if (2 <? length top_artists)%nat then lit "Various Artists"
        else str_join (lit " & ") (sorted str_ltb top_artists)
      else album_artist t0
  end.

(** [Playlist._build_album_artist_map] *)
Definition group_by_album (tracks : list Track) : gmap (list N) (list Track) :=
  foldl (fun album_tracks t =>
           <[album_id t := default [] (album_tracks !! album_id t) ++ [t]]> album_tracks)
    ∅ tracks.

Definition _build_album_artist_map (tracks : list Track) : gmap (list N) (list N) :=
  _get_consolidated_album_artist <$> group_by_album tracks.

(** A [Playlist]: the fields that reconciliation reads. *)
Record Playlist := {
  tracks : list Track;
  _album_artist_map : gmap (list N) (list N);
  duration : Z
}.

(** What [tidalapi] gives for a track of the playlist; [Track.__init__]
    adds the position. *)
Record RawTrack := {
  raw_name : str;
  raw_artists : list str;
  raw_album_id : str;
  raw_album_name : str;
  raw_album_artist : str;
  raw_track_num : Z
}.

Definition Track_init (pos : nat) (t : RawTrack) : Track := {|
  position := pos;
  name := raw_name t;
  artists := raw_artists t;
  album_id := raw_album_id t;
  album_name := raw_album_name t;
  album_artist := raw_album_artist t;
  track_num := raw_track_num t
|}.

(** [Playlist.__init__]: the tracks are numbered by [enumerate]. *)
Definition Playlist_init (raw_tracks : list RawTrack) (dur : Z) : Playlist :=
  let ts := imap Track_init raw_tracks in
  {| tracks := ts; _album_artist_map := _build_album_artist_map ts; duration := dur |}.

(** ** Errors *)

(** The three lists of a [PlaylistVerificationError].  Each entry holds the
    values its message interpolates: the path and the parsing error; the
    position + 1, the title, the local artists and the expected artists;
    the position + 1, the title and the artists. *)
Record Report := {
  parsing_errors : list (Path * string);
  artist_mismatches : list (nat * str * list str * list str);
  missing_from_playlist : list (nat * str * list str)
}.

(** The three lists of a [FolderValidationError].  A permission entry is
    the folder, with the text of the error when it is an [OSError] other
    than a [PermissionError]. *)
Record FolderReport := {
  missing_folders : list Path;
  permission_errors : list (Path * option string);
  not_directories : list Path
}.

(** The [value] of a [ValidationError]: a literal, [str(folders)], or
    [f"{valid_folders} folder(s)"]. *)
Inductive validation_value :=
  | ValueText (s : string)
  | ValueFolders (folders : list Path)
  | ValueFolderCount (valid_folders : nat).

(** The [details] of a [FileOperationError]: a literal, or
    [f"Failed to {operation} to {destination}: {e}"]. *)
Inductive operation_details :=
  | DetailsText (s : string)
  | DetailsFailed (operation : string) (destination : Path) (e : string).

Inductive py_error :=
  | OSError (e : os_error)
  | ValidationError (field : string) (value : validation_value) (reason : str)
  | FolderValidationError (report : FolderReport)
  | FileOperationError (operation : string) (filepath : Path)
      (details : operation_details)
  | PlaylistVerificationError (report : Report)
  | ZeroDivisionError.

(** errors.py, [PlaylistVerificationError.__init__]: each list is kept as
    given ([x or []]). *)
Definition PlaylistVerificationError_init
    (p : list (Path * string)) (a : list (nat * str * list str * list str))
    (m : list (nat * str * list str)) : py_error :=
  PlaylistVerificationError
    {| parsing_errors := p; artist_mismatches := a; missing_from_playlist := m |}.

Context {FS : Type} (os : FileSystem FS).

(** Order of two paths: part by part. *)
Fixpoint path_ltb (a b : Path) : bool :=
  match a, b with
  | _, [] => false
  | [], _ :: _ => true
  | x :: a', y :: b' => str_ltb x y || (bool_decide (x = y) && path_ltb a' b')
  end.

(** The condition of the comprehension of [collect_audio_files], over the
    sorted entries of one folder: [f.is_file()] is asked only of an entry
    with a supported extension, and an exception of it ends the scan. *)
Fixpoint audio_files_of (entries : list Path) (fs : FS) : os_error + list Path :=
  match entries with
  | [] => inr []
  | f :: r =>
      if bool_decide (str_lower (path_suffix f) ∈ SUPPORTED_EXTENSIONS) then
        match fs_is_file os f fs with
        | inl e => inl e
        | inr is_file =>
            match audio_files_of r fs with
            | inl e => inl e
            | inr rest => inr (if is_file then f :: rest else rest)
            end
        end
      else audio_files_of r fs
  end.

(** [folder_files] of one folder: the comprehension over
    [sorted(folder.iterdir())]. *)
Definition folder_files (folder : Path) (fs : FS) : os_error + list Path :=
  match fs_iterdir os folder fs with
  | inl e => inl e
  | inr entries => audio_files_of (sorted path_ltb entries) fs
  end.

(** The [for] of [collect_audio_files], with its two variables. *)
Fixpoint collect_loop (folders : list Path) (fs : FS)
    (files : list Path) (valid_folders : nat) : os_error + (list Path * nat) :=
  match folders with
  | [] => inr (files, valid_folders)
  | folder :: r =>
      let valid_folders := (valid_folders + 1)%nat in
      match folder_files folder fs with
      | inl e => inl e
      | inr found => collect_loop r fs (files ++ found) valid_folders
      end
  end.

(** utils.py, [collect_audio_files] *)
Definition collect_audio_files (folders : list Path) (fs : FS) : py_error + list Path :=
  if is_nil folders
  then inl (ValidationError "input_folders" (ValueText "empty list")
              (lit "No input folders provided"))
  else
    match collect_loop folders fs [] 0 with
    | inl e => inl (OSError e)
    | inr (files, valid_folders) =>
        if (valid_folders =? 0)%nat
        then inl (ValidationError "input_folders" (ValueFolders folders)
                    (lit "No valid folders found"))
        else if is_nil files
        then inl (ValidationError "audio_files" (ValueFolderCount valid_folders)
                    (lit "No audio files found. Supported extensions: "
                     ++ str_join (lit ", ") SUPPORTED_EXTENSIONS))
        else inr files
    end.

(** utils.py, [validate_input_folders]: the loop.  [exists()] and
    [is_dir()] are outside the [try], so what they raise ends the loop;
    what the listing raises is recorded. *)
Fixpoint validate_loop (input_folders : list Path) (fs : FS) (r : FolderReport)
  : os_error + FolderReport :=
  match input_folders with
  | [] => inr r
  | folder_path :: rest =>
      match fs_exists os folder_path fs with
      | inl e => inl e
      | inr false =>
          validate_loop rest fs
            {| missing_folders := missing_folders r ++ [folder_path];
               permission_errors := permission_errors r;
               not_directories := not_directories r |}
      | inr true =>
          match fs_is_dir os folder_path fs with
          | inl e => inl e
          | inr false =>
              validate_loop rest fs
                {| missing_folders := missing_folders r;
                   permission_errors := permission_errors r;
                   not_directories := not_directories r ++ [folder_path] |}
          | inr true =>
              match fs_iterdir os folder_path fs with
              | inr _ => validate_loop rest fs r
              | inl (PermissionError _) =>
                  validate_loop rest fs
                    {| missing_folders := missing_folders r;
                       permission_errors := permission_errors r ++ [(folder_path, None)];
                       not_directories := not_directories r |}
              | inl (OtherOSError e) =>
                  validate_loop rest fs
                    {| missing_folders := missing_folders r;
                       permission_errors :=
                         permission_errors r ++ [(folder_path, Some e)];
                       not_directories := not_directories r |}
              end
          end
      end
  end.

(** utils.py, [validate_input_folders] *)
Definition validate_input_folders (input_folders : list Path) (fs : FS)
  : py_error + unit :=
  match validate_loop input_folders fs
          {| missing_folders := []; permission_errors := []; not_directories := [] |}
  with
  | inl e => inl (OSError e)
  | inr r =>
      if negb (is_nil (missing_folders r)) || negb (is_nil (permission_errors r))
         || negb (is_nil (not_directories r))
      then inl (FolderValidationError r)
      else inr tt
  end.

(** ** Reconciliation: [Playlist.verify_playlist] *)

(** The first loop: the index of the local files by normalized track name,
    and the files that could not be parsed. *)
Definition index_file (st : gmap (list N) (list (str * Path)) * list (Path * string))
    (file_path : Path) : gmap (list N) (list (str * Path)) * list (Path * string) :=
  let '(local_track_map, errors) := st in
  match extract_artist_and_track file_path with
  | inr (artist, trk) =>
      (<[trk := default [] (local_track_map !! trk) ++ [(artist, file_path)]]> local_track_map,
       errors)
  | inl e => (local_track_map, errors ++ [(file_path, e)])
  end.

Definition build_index (local_files : list Path)
  : gmap (list N) (list (str * Path)) * list (Path * string) :=
  foldl index_file (∅, []) local_files.

(** The inner [for]: the first local entry of this artist. *)
Fixpoint find_local (playlist_artist : str) (local_entries : list (str * Path))
  : option Path :=
  match local_entries with
  | [] => None
  | (local_artist, file_path) :: r =>
      if bool_decide (playlist_artist = local_artist) then Some file_path
      else find_local playlist_artist r
  end.

(** The outer [for], over the artists of the playlist track; it stops at
    the first artist that has a local entry. *)
Fixpoint find_match (playlist_artists : list str) (local_entries : list (str * Path))
  : option Path :=
  match playlist_artists with
  | [] => None
  | playlist_artist :: r =>
      match find_local playlist_artist local_entries with
      | Some file_path => Some file_path
      | None => find_match r local_entries
      end
  end.

(** The state of the second loop. *)
Record Verification := {
  v_artist_mismatches : list (nat * str * list str * list str);
  v_missing_from_local : list (nat * str * list str);
  v_matches : list PlaylistMatch
}.

(** One turn of the loop over the playlist tracks. *)
Definition verify_track (album_map : gmap (list N) (list N))
    (local_track_map : gmap (list N) (list (str * Path)))
    (v : Verification) (t : Track) : Verification :=
  match local_track_map !! normalized_name t with
  | None | Some [] =>
      {| v_artist_mismatches := v_artist_mismatches v;
         v_missing_from_local :=
           v_missing_from_local v ++ [(position t + 1, name t, artists t)%nat];
         v_matches := v_matches v |}
  | Some local_entries =>
      match find_match (normalized_artists t) local_entries with
      | Some matched_file =>
          let caa := default (album_artist t) (album_map !! album_id t) in
          {| v_artist_mismatches := v_artist_mismatches v;
             v_missing_from_local := v_missing_from_local v;
             v_matches := v_matches v ++
               [{| track := t; local_file := matched_file;
                   consolidated_album_artist := caa |}] |}
      | None =>
          {| v_artist_mismatches :=
               v_artist_mismatches v ++
               [(position t + 1, name t, local_entries.*1, artists t)%nat];
             v_missing_from_local := v_missing_from_local v;
             v_matches := v_matches v |}
      end
  end.

Definition verify_tracks (p : Playlist)
    (local_track_map : gmap (list N) (list (str * Path))) : Verification :=
  foldl (verify_track (_album_artist_map p) local_track_map)
    {| v_artist_mismatches := []; v_missing_from_local := []; v_matches := [] |}
    (tracks p).

(** [Playlist.verify_playlist].  The summary is logged before the report is
    looked at; its last line divides by the number of playlist tracks. *)
Definition verify_playlist (p : Playlist) (local_folders : list Path) (fs : FS)
  : py_error + list PlaylistMatch :=
  match collect_audio_files local_folders fs with
  | inl e => inl e
  | inr local_files =>
      let '(local_track_map, parsing_errs) := build_index local_files in
      let v := verify_tracks p local_track_map in
      let total_playlist_tracks := length (tracks p) in
      if (total_playlist_tracks =? 0)%nat then inl ZeroDivisionError
      else if negb (is_nil parsing_errs) || negb (is_nil (v_artist_mismatches v))
              || negb (is_nil (v_missing_from_local v))
      then inl (PlaylistVerificationError_init parsing_errs
                  (v_artist_mismatches v) (v_missing_from_local v))
      else inr (v_matches v)
  end.

(** ** The plan executor: [PlaylistMatch.move_or_copy] *)

(** [f"{n:02d}"]: the sign, then the digits padded with zeros to two
    characters in all. *)
Fixpoint uint_digits (d : Decimal.uint) : str :=
  match d with
  | Decimal.Nil => []
  | Decimal.D0 d => 48 :: uint_digits d
  | Decimal.D1 d => 49 :: uint_digits d
  | Decimal.D2 d => 50 :: uint_digits d
  | Decimal.D3 d => 51 :: uint_digits d
  | Decimal.D4 d => 52 :: uint_digits d
  | Decimal.D5 d => 53 :: uint_digits d
  | Decimal.D6 d => 54 :: uint_digits d
  | Decimal.D7 d => 55 :: uint_digits d
  | Decimal.D8 d => 56 :: uint_digits d
  | Decimal.D9 d => 57 :: uint_digits d
  end.

Definition format_02d (n : Z) : str :=
  let digits := uint_digits (N.to_uint (Z.abs_N n)) in
  if (n <? 0)%Z then 45 :: replicate (1 - length digits) 48 ++ digits
  else replicate (2 - length digits) 48 ++ digits.

(** [PlaylistMatch._generate_destination_path] *)
Definition _generate_destination_path (m : PlaylistMatch) (base_destination : Path)
  : Path :=
  let file_ext := path_suffix (local_file m) in
  let album_artist_dir := sanitize_filename (consolidated_album_artist m) in
  let album_dir := sanitize_filename (album_name (track m)) in
  let track_name := sanitize_filename (name (track m)) in
  let artists_str := sanitize_filename (str_join (lit ", ") (artists (track m))) in
  let filename :=
    format_02d (track_num (track m)) ++ lit " - " ++ artists_str ++ lit " - "
    ++ track_name ++ file_ext in
  path_div (path_div (path_div base_destination album_artist_dir) album_dir) filename.

(** What the executor writes to the log; the number is the playlist
    position + 1. *)
Inductive log_entry :=
  | LogSkipExisting (destination : Path) (pos : nat) (source : Path)
  | LogWould (move : bool) (pos : nat) (source destination : Path)
  | LogDone (move : bool) (pos : nat) (source destination : Path).

(** What the executor does, in order: its checks, its operations on the
    file system and its log lines. *)
Inductive event :=
  | EvExists (p : Path)
  | EvMkdir (p : Path)
  | EvMove (source destination : Path)
  | EvCopy2 (source destination : Path)
  | EvLog (e : log_entry).

Definition is_file_operation (e : event) : bool :=
  match e with
  | EvMkdir _ | EvMove _ _ | EvCopy2 _ _ => true
  | EvExists _ | EvLog _ => false
  end.

(** A computation on the file system: the exception or the result, the
    file system it leaves and what it did. *)
Definition IO (A : Type) : Type := FS -> (py_error + A) * FS * list event.

Definition IO_ret {A} (a : A) : IO A := fun fs => (inr a, fs, []).
Definition raise {A} (e : py_error) : IO A := fun fs => (inl e, fs, []).
Definition IO_bind {A B} (k : A -> IO B) (c : IO A) : IO B :=
  fun fs =>
    match c fs with
    | (inl e, fs1, t1) => (inl e, fs1, t1)
    | (inr a, fs1, t1) =>
        match k a fs1 with (r, fs2, t2) => (r, fs2, t1 ++ t2) end
    end.

#[local] Instance IO_mret : MRet IO := @IO_ret.
#[local] Instance IO_mbind : MBind IO := @IO_bind.

Definition exists_ (p : Path) : IO bool :=
  fun fs =>
    match fs_exists os p fs with
    | inl e => (inl (OSError e), fs, [EvExists p])
    | inr b => (inr b, fs, [EvExists p])
    end.
Definition log (e : log_entry) : IO unit := fun fs => (inr tt, fs, [EvLog e]).

(** A primitive under [try ... except Exception as e: raise
    FileOperationError(operation, source,
    f"Failed to {operation} to {destination}: {e}")]. *)
Definition guarded (ev : event) (prim : FS -> FS * option string)
    (operation : string) (source destination : Path) : IO unit :=
  fun fs =>
    match prim fs with
    | (fs', None) => (inr tt, fs', [ev])
    | (fs', Some e) =>
        (inl (FileOperationError operation source
                (DetailsFailed operation destination e)), fs', [ev])
    end.

(** [destination.parent] *)
Definition path_parent (p : Path) : Path :=
  match p with
  | [[47]] => p
  | _ => removelast p
  end.

(** [PlaylistMatch.move_or_copy] *)
Definition move_or_copy (m : PlaylistMatch) (base_destination : Path)
    (copy move dry_run : bool) : IO unit :=
  if negb copy && negb move then mret tt
  else
    source_exists ← exists_ (local_file m);
    if negb source_exists
    then raise (FileOperationError "validate source" (local_file m)
                  (DetailsText "Source file does not exist"))
    else
      let destination := _generate_destination_path m base_destination in
      destination_exists ← exists_ destination;
      if destination_exists && negb dry_run
      then log (LogSkipExisting destination (position (track m) + 1) (local_file m))
      else if dry_run
      then log (LogWould move (position (track m) + 1) (local_file m) destination)
      else
        let operation := if move then "move"%string else "copy"%string in
        guarded (EvMkdir (path_parent destination))
          (fs_mkdir_parents os (path_parent destination))
          operation (local_file m) destination ;;
        (if move
         then guarded (EvMove (local_file m) destination)
                (shutil_move os (local_file m) destination)
                operation (local_file m) destination
         else guarded (EvCopy2 (local_file m) destination)
                (shutil_copy2 os (local_file m) destination)
                operation (local_file m) destination) ;;
        log (LogDone move (position (track m) + 1) (local_file m) destination).

(** The [for] of [Playlist.move_or_copy]. *)
Fixpoint execute_plan (matches : list PlaylistMatch) (destination : Path)
    (copy move dry_run : bool) : IO unit :=
  match matches with
  | [] => mret tt
  | m :: r =>
      move_or_copy m destination copy move dry_run ;;
      execute_plan r destination copy move dry_run
  end.

(** [Playlist.move_or_copy] *)
Definition Playlist_move_or_copy (p : Playlist) (local_folders : list Path)
    (destination : Path) (copy move dry_run : bool) : IO unit :=
  fun fs =>
    match verify_playlist p local_folders fs with
    | inl e => (inl e, fs, [])
    | inr matches => execute_plan matches destination copy move dry_run fs
    end.

End Model.

(** A fragment of the Unicode tables, enough to run the examples: the
    Latin-1 capitals, e-acute, the no-break space and the trade mark sign
    are as in the database; every other code point above 127 is treated as
    a symbol without mappings. *)
Definition fragment : UnicodeData := {|
  lower_ext c :=
    if (cp_in 192 214 c || cp_in 216 222 c)%bool then [c + 32] else [c];
  nfkd_ext c :=
    if c =? 233 then [101; 769]        (* e-acute: e, combining acute *)
    else if c =? 160 then [32]         (* no-break space *)
    else if c =? 8482 then [84; 77]    (* trade mark sign: T, M *)
    else [c];
  class_ext c :=
    if c =? 160 then USpace
    else if (cp_in 192 214 c || cp_in 216 246 c || cp_in 248 255 c)%bool then UAlnum
    else UOther
|}.

(** ** A small file system

    A set of regular files; the directories are those the files lie in.
    No check raises, and every directory can be listed.  It instantiates
    [FileSystem] for the examples. *)
Definition simple_fs : FileSystem (list Path) := {|
  fs_exists p fs :=
    inr (bool_decide (p ∈ fs) || existsb (fun f => bool_decide (p `prefix_of` f)) fs);
  fs_is_file p fs := inr (bool_decide (p ∈ fs));
  fs_is_dir p fs :=
    inr (negb (bool_decide (p ∈ fs))
         && existsb (fun f => bool_decide (p `prefix_of` f)) fs);
  fs_iterdir d fs := inr (List.filter (fun f => bool_decide (path_parent f = d)) fs);
  fs_mkdir_parents d fs := (fs, None);
  shutil_move src dst fs :=
    if bool_decide (src ∈ fs)
    then (dst :: List.filter (fun f => negb (bool_decide (f = src))) fs, None)
    else (fs, Some "No such file or directory"%string);
  shutil_copy2 src dst fs :=
    if bool_decide (src ∈ fs) then (dst :: fs, None)
    else (fs, Some "No such file or directory"%string)
|}.

(** The same files, under a file system whose checks raise for a path
    with a part of more than 255 characters, as [stat] does. *)
Definition long_name_fs : FileSystem (list Path) :=
  let too_long (p : Path) := existsb (fun part => (255 <? length part)%nat) p in
  let checked {A} (primitive : Path -> list Path -> os_error + A) p fs :=
    if too_long p then inl (OtherOSError "File name too long") else primitive p fs in
  {|
    fs_exists := checked (fs_exists simple_fs);
    fs_is_file := checked (fs_is_file simple_fs);
    fs_is_dir := checked (fs_is_dir simple_fs);
    fs_iterdir := checked (fs_iterdir simple_fs);
    fs_mkdir_parents := fs_mkdir_parents simple_fs;
    shutil_move := shutil_move simple_fs;
    shutil_copy2 := shutil_copy2 simple_fs
  |}.

(** ** The reconciliation loop, track by track

    What one turn of the loop adds to each of the three lists. *)
Section Outcome.

Context (U : UnicodeData).

Definition entries_for (local_track_map : gmap (list N) (list (str * Path)))
    (t : Track) : list (str * Path) :=
  default [] (local_track_map !! normalized_name U t).

Definition match_for (album_map : gmap (list N) (list N))
    (local_track_map : gmap (list N) (list (str * Path))) (t : Track)
  : option PlaylistMatch :=
  match find_match (normalized_artists U t) (entries_for local_track_map t) with
  | Some f =>
      Some {| track := t; local_file := f;
              consolidated_album_artist :=
                default (album_artist t) (album_map !! album_id t) |}
  | None => None
  end.

Definition missing_for (local_track_map : gmap (list N) (list (str * Path)))
    (t : Track) : option (nat * str * list str) :=
  if is_nil (entries_for local_track_map t)
  then Some (position t + 1, name t, artists t)%nat else None.

Definition mismatch_for (local_track_map : gmap (list N) (list (str * Path)))
    (t : Track) : option (nat * str * list str * list str) :=
  if is_nil (entries_for local_track_map t) then None
  else match find_match (normalized_artists U t) (entries_for local_track_map t) with
       | Some _ => None
       | None =>
           Some (position t + 1, name t,
                 (entries_for local_track_map t).*1, artists t)%nat
       end.

(** The reading of the specification: the first candidate, in scan order,
    whose artist is any of the artists of the track. *)
Definition first_candidate_of_any_artist (playlist_artists : list str)
    (local_entries : list (str * Path)) : option Path :=
  snd <$> List.find (fun e => bool_decide (fst e ∈ playlist_artists)) local_entries.

End Outcome.

(** ** Normal forms, for the normalizer *)

(** The characters of a normalized name other than the space: ASCII letters
    and digits, the hyphen and the parentheses. *)
Definition nf_char (c : N) : bool :=
  ascii_alnum c || (c =? 45) || (c =? 40) || (c =? 41).

Definition out_char (c : N) : bool := nf_char c || (c =? 32).

(** No white space other than single spaces; [prev] tells that a space
    precedes. *)
Fixpoint spaced (p : N -> bool) (prev : bool) (s : str) : bool :=
  match s with
  | [] => true
  | c :: r =>
      if p c then (c =? 32) && negb prev && spaced p true r
      else spaced p false r
  end.

(** A normalized name: its characters, its spaces, its ends. *)
Record normal_form (U : UnicodeData) (y : str) : Prop := {
  nf_chars : Forall (fun c => out_char c = true) y;
  nf_spaced : spaced (is_space U) false y = true;
  nf_stripped : strip U y = y
}.

(** ** Substrings, for the filename parser *)

(** [sep in s] *)
Fixpoint contains (sep s : str) : bool :=
  is_prefix sep s || match s with [] => false | _ :: r => contains sep r end.

(** [s.endswith(suf)] *)
Definition ends_with (suf s : str) : bool :=
  bool_decide (drop (length s - length suf) s = suf).

(** The name that [extract_artist_and_track] splits: the file name without
    the numeric prefix and without the extension. *)
Definition split_name (U : UnicodeData) (filepath : Path) : str :=
  splitext_root (strip_numeric_prefix U (path_name filepath)).

(** ** Orders, folders and their audio files *)

(** The lexicographic order of two lists, by an order and an equality test
    of their items. *)
Fixpoint lex_ltb {A} (lt eqb : A -> A -> bool) (a b : list A) : bool :=
  match a, b with
  | _, [] => false
  | [], _ :: _ => true
  | x :: a', y :: b' => lt x y || (eqb x y && lex_ltb lt eqb a' b')
  end.

(** An entry that [collect_audio_files] asks [is_file()] of. *)
Definition has_supported_extension (U : UnicodeData) (f : Path) : bool :=
  bool_decide (str_lower U (path_suffix f) ∈ SUPPORTED_EXTENSIONS).

(** An entry that [collect_audio_files] keeps. *)
Definition is_audio_file {FS} (U : UnicodeData) (os : FileSystem FS) (fs : FS)
    (f : Path) : bool :=
  has_supported_extension U f
  && match fs_is_file os f fs with inr true => true | _ => false end.

(** ** Folder validation *)

(** What the checks of [validate_input_folders] outside its [try] raise
    on a folder: [exists()], then [is_dir()] when the folder exists. *)
Definition check_error {FS} (os : FileSystem FS) (fs : FS) (folder_path : Path)
  : option os_error :=
  match fs_exists os folder_path fs with
  | inl e => Some e
  | inr false => None
  | inr true =>
      match fs_is_dir os folder_path fs with
      | inl e => Some e
      | inr _ => None
      end
  end.

(** A folder that does not exist. *)
Definition is_missing {FS} (os : FileSystem FS) (fs : FS) (folder_path : Path) : bool :=
  match fs_exists os folder_path fs with
  | inr false => true
  | _ => false
  end.

(** A folder that exists and is no directory. *)
Definition is_not_directory {FS} (os : FileSystem FS) (fs : FS) (folder_path : Path)
  : bool :=
  match fs_exists os folder_path fs, fs_is_dir os folder_path fs with
  | inr true, inr false => true
  | _, _ => false
  end.

(** What the listing of a folder adds to the permission errors. *)
Definition permission_entry {FS} (os : FileSystem FS) (fs : FS) (folder_path : Path)
  : option (Path * option string) :=
  match fs_exists os folder_path fs, fs_is_dir os folder_path fs with
  | inr true, inr true =>
      match fs_iterdir os folder_path fs with
      | inr _ => None
      | inl (PermissionError _) => Some (folder_path, None)
      | inl (OtherOSError e) => Some (folder_path, Some e)
      end
  | _, _ => None
  end.

(** A directory that can be listed. *)
Definition is_listable {FS} (os : FileSystem FS) (fs : FS) (folder_path : Path) : Prop :=
  fs_exists os folder_path fs = inr true
  /\ fs_is_dir os folder_path fs = inr true
  /\ exists entries, fs_iterdir os folder_path fs = inr entries.


(** ** The track map, the albums and the parsed files *)

(** [Playlist.get_track_artist_map]: the tracks by their title; a later
    track replaces an earlier one of the same title. *)
Definition get_track_artist_map (p : Playlist) : gmap (list N) Track :=
  foldl (fun track_map t => <[name t := t]> track_map) ∅ (tracks p).

(** The tracks of one album, in playlist order. *)
Definition album_tracks_of (k : str) (ts : list Track) : list Track :=
  List.filter (fun t => bool_decide (album_id t = k)) ts.

Section Index.

Context (U : UnicodeData).

(** The local files that parse to the track name [k], with the artist
    parsed from each, in scan order. *)
Definition parsed_as (k : str) (files : list Path) : list (str * Path) :=
  omap (fun f =>
          match extract_artist_and_track U f with
          | inr (a, k') => if bool_decide (k' = k) then Some (a, f) else None
          | inl _ => None
          end) files.

(** The local files that do not parse, with the reason, in scan order. *)
Definition unparsable (files : list Path) : list (Path * string) :=
  omap (fun f =>
          match extract_artist_and_track U f with
          | inl e => Some (f, e)
          | inr _ => None
          end) files.

End Index.

(** ** Sanitized names and destinations *)

(** The characters that [sanitize_filename] replaces or removes. *)
Definition unsafe_char (c : N) : bool :=
  (c =? 58) || (c =? 47) || (c =? 92) || (c =? 60) || (c =? 62) || (c =? 34)
  || (c =? 124) || (c =? 63) || (c =? 42) || (c =? 0).

(** One directory level of the destination: none for an empty name. *)
Definition segment (d : str) : Path := if is_nil d then [] else [d].

(** The file name of the destination of a match. *)
Definition destination_filename (U : UnicodeData) (m : PlaylistMatch) : str :=
  format_02d (track_num (track m)) ++ lit " - "
  ++ sanitize_filename U (str_join (lit ", ") (artists (track m))) ++ lit " - "
  ++ sanitize_filename U (name (track m)) ++ path_suffix (local_file m).

(** The characters of [strip(". ")]. *)
Definition dot_or_space (c : N) : bool := (c =? 46) || (c =? 32).

(** ** Occurrence counts, for the consolidator *)

(** The artist slots of the tracks of an album: a track of [n] artists has
    [n] slots. *)
Definition artist_slots (tracks : list Track) : list str := flat_map artists tracks.

Definition occurrences (a : str) (tracks : list Track) : nat :=
  length (List.filter (fun b => bool_decide (b = a)) (artist_slots tracks)).

(** [a] is an artist of the album and no artist occurs more often. *)
Definition attains_max (a : str) (tracks : list Track) : Prop :=
  a ∈ artist_slots tracks
  /\ forall b, (occurrences b tracks <= occurrences a tracks)%nat.

(** The artists that occur most often, one item per slot. *)
Definition max_artists (tracks : list Track) : list str :=
  List.filter (fun a =>
      forallb (fun b => (occurrences b tracks <=? occurrences a tracks)%nat)
        (artist_slots tracks))
    (artist_slots tracks).

(** The count of [a] in a counter; 0 when it has no item. *)
Fixpoint counter_get (a : str) (c : list (str * nat)) : nat :=
  match c with
  | [] => 0%nat
  | (b, n) :: r => if bool_decide (a = b) then n else counter_get a r
  end.

(** The first item of [most_common] has the largest count. *)
Definition head_is_max (c : list (str * nat)) : Prop :=
  match c with
  | [] => True
  | (_, n) :: r => forall b k, (b, k) ∈ r -> (k <= n)%nat
  end.

(** An item of the counter holds the count of its artist, which is not 0. *)
Definition counter_ok (c : list (str * nat)) : Prop :=
  NoDup c.*1 /\ forall a n, (a, n) ∈ c -> (0 < n)%nat.

(** ** Example data *)

Definition raw_track (title : string) (artists_ : list str) (num : Z) : RawTrack := {|
  raw_name := lit title;
  raw_artists := artists_;
  raw_album_id := lit "4711";
  raw_album_name := lit "Alb1";
  raw_album_artist := lit "X";
  raw_track_num := num
|}.

Definition in_dir : Path := Path_of (lit "/in").
Definition out_dir : Path := Path_of (lit "/out").

(** Two local files of one title, by two artists. *)
Definition file_x : Path := Path_of (lit "/in/X - Song A.mp3").
Definition file_y : Path := Path_of (lit "/in/Y - Song A.mp3").
Definition fs_two_artists : list Path := [file_y; file_x].

(** Their entries in the index, in scan order. *)
Definition entries_x_y : list (str * Path) := [(lit "x", file_x); (lit "y", file_y)].

(** A playlist track that lists Y before X. *)
Definition playlist_y_x : Playlist :=
  Playlist_init [raw_track "Song A" [lit "Y"; lit "X"] 1] 200.

Definition playlist_x_y : Playlist :=
  Playlist_init [raw_track "Song A" [lit "X"; lit "Y"] 1] 200.

(** A playlist that has one title twice, and the one local file of it. *)
Definition playlist_twice : Playlist :=
  Playlist_init [raw_track "Song A" [lit "X"] 1; raw_track "Song A" [lit "X"] 1] 400.

Definition fs_one_file : list Path := [Path_of (lit "/in/X - Song A.mp3")].

(** A playlist of two titles and their two local files. *)
Definition raw_two : list RawTrack :=
  [raw_track "Song A" [lit "X"] 1; raw_track "Song B" [lit "X"; lit "Y"] 2].

Definition fs_two_files : list Path :=
  [Path_of (lit "/in/01 - X - Song A.mp3"); Path_of (lit "/in/02 - X - Song B.mp3")].

(** Albums of one track: without artists, and with three artists. *)
Definition tracks_no_artist : list Track :=
  tracks (Playlist_init [raw_track "Song A" [] 1] 200).

Definition tracks_three_artists : list Track :=
  tracks (Playlist_init [raw_track "Song A" [lit "X"; lit "Y"; lit "Z"] 1] 200).

(** A playlist without tracks. *)
Definition playlist_empty : Playlist := Playlist_init [] 0.

Definition playlist_two : Playlist := Playlist_init raw_two 300.

(** The matches of [playlist_two] against [fs_two_files]. *)
Definition matches_two : list PlaylistMatch :=
  Eval vm_compute in
    match verify_playlist fragment simple_fs playlist_two [in_dir] fs_two_files with
    | inr ms => ms
    | inl _ => []
    end.

(** The file system after [matches_two] were copied to [out_dir]. *)
Definition fs_copied : list Path :=
  Eval vm_compute in
    (execute_plan fragment simple_fs matches_two out_dir true false false fs_two_files).1.2.

(** A local file whose name has no separator. *)
Definition fs_unparsable : list Path := [Path_of (lit "/in/notes.mp3")].

(** A match of "Song A" with its local file. *)
Definition match_song_a : PlaylistMatch := {|
  track := Track_init 0 (raw_track "Song A" [lit "X"] 1);
  local_file := Path_of (lit "/in/01 - X - Song A.mp3");
  consolidated_album_artist := lit "X"
|}.

(** Two tracks of one title by two artists, and their two local files. *)
Definition raw_intro : list RawTrack :=
  [raw_track "Intro" [lit "A"] 1; raw_track "Intro" [lit "B"] 2].

Definition fs_intro : list Path :=
  [Path_of (lit "/in/A - Intro.mp3"); Path_of (lit "/in/B - Intro.mp3")].

(** The matches of this playlist against these files. *)
Definition matches_intro : list PlaylistMatch :=
  Eval vm_compute in
    match verify_playlist fragment simple_fs (Playlist_init raw_intro 100) [in_dir]
            fs_intro with
    | inr ms => ms
    | inl _ => []
    end.

(** A match of a track whose title has 300 characters. *)
Definition match_long_title : PlaylistMatch := {|
  track := Track_init 0 {|
    raw_name := replicate 300 97;
    raw_artists := [lit "X"];
    raw_album_id := lit "4711";
    raw_album_name := lit "Alb1";
    raw_album_artist := lit "X";
    raw_track_num := 1
  |};
  local_file := Path_of (lit "/in/01 - X - Song A.mp3");
  consolidated_album_artist := lit "X"
|}.

(** * Properties *)

Lemma is_nil_true {A} (l : list A) : is_nil l = true <-> l = [].
Proof. destruct l; simpl; split; congruence. Qed.

(** ** The name normalizer *)

Section Normalizer.

Context (U : UnicodeData).

Implicit Types (s t : str) (c : N) (p : N -> bool).

(** *** Stripping *)

Lemma lstrip_by_idem p s : lstrip_by p (lstrip_by p s) = lstrip_by p s.
Proof.
  induction s as [| c r IH]; simpl; [reflexivity |].
  destruct (p c) eqn:Hc; [exact IH |]. simpl. rewrite Hc. reflexivity.
Qed.

Lemma rstrip_by_cons p c r :
  rstrip_by p (c :: r) =
    match rstrip_by p r with
    | [] => if p c then [] else [c]
    | r' => c :: r'
    end.
Proof. reflexivity. Qed.

Lemma rstrip_by_idem p s : rstrip_by p (rstrip_by p s) = rstrip_by p s.
Proof.
  induction s as [| c r IH]; [reflexivity |].
  rewrite rstrip_by_cons. destruct (rstrip_by p r) as [| d r'] eqn:Hr.
  - destruct (p c) eqn:Hc; [reflexivity |]. simpl. rewrite Hc. reflexivity.
  - rewrite rstrip_by_cons, IH. reflexivity.
Qed.

Lemma rstrip_by_fixed_tail p c r :
  rstrip_by p (c :: r) = c :: r -> rstrip_by p r = r.
Proof.
  rewrite rstrip_by_cons. destruct (rstrip_by p r) as [| d r'] eqn:Hr.
  - destruct (p c); [discriminate |]. intros [= <-]. reflexivity.
  - intros [= <-]. reflexivity.
Qed.

Lemma rstrip_lstrip_fixed p s :
  rstrip_by p s = s -> rstrip_by p (lstrip_by p s) = lstrip_by p s.
Proof.
  induction s as [| c r IH]; [reflexivity |]. intros Hfix. simpl.
  destruct (p c); [| exact Hfix].
  apply IH, (rstrip_by_fixed_tail p c r Hfix).
Qed.

Lemma strip_by_idem p s : strip_by p (strip_by p s) = strip_by p s.
Proof.
  unfold strip_by.
  rewrite (rstrip_lstrip_fixed p (rstrip_by p s)) by apply rstrip_by_idem.
  apply lstrip_by_idem.
Qed.

(** *** White space runs *)

Lemma spaced_collapse b s : spaced (is_space U) b (collapse_from U b s) = true.
Proof.
  revert b. induction s as [| c r IH]; intros b; simpl; [reflexivity |].
  destruct (is_space U c) eqn:Hc.
  - destruct b; [apply IH |]. simpl. rewrite IH. reflexivity.
  - simpl. rewrite Hc. apply IH.
Qed.

Lemma collapse_spaced b s :
  spaced (is_space U) b s = true -> collapse_from U b s = s.
Proof.
  revert b. induction s as [| c r IH]; intros b; simpl; [reflexivity |].
  destruct (is_space U c) eqn:Hc.
  - intros [[Hc32 Hb]%andb_true_iff Hr]%andb_true_iff.
    apply N.eqb_eq in Hc32. subst c. destruct b; [discriminate |].
    rewrite (IH true Hr). reflexivity.
  - intros Hr. rewrite (IH false Hr). reflexivity.
Qed.

Lemma spaced_lstrip b b' s :
  spaced (is_space U) b s = true ->
  spaced (is_space U) b' (lstrip_by (is_space U) s) = true.
Proof.
  revert b. induction s as [| c r IH]; intros b; simpl; [reflexivity |].
  destruct (is_space U c) eqn:Hc.
  - intros [_ Hr]%andb_true_iff. eapply IH, Hr.
  - intros Hr. simpl. rewrite Hc. exact Hr.
Qed.

Lemma spaced_rstrip b s :
  spaced (is_space U) b s = true ->
  spaced (is_space U) b (rstrip_by (is_space U) s) = true.
Proof.
  revert b. induction s as [| c r IH]; intros b; [reflexivity |].
  rewrite rstrip_by_cons. simpl.
  destruct (is_space U c) eqn:Hc.
  - intros [Hhead Hr]%andb_true_iff. specialize (IH true Hr).
    destruct (rstrip_by (is_space U) r) as [| d r']; [reflexivity |].
    simpl in *. rewrite Hc, Hhead. exact IH.
  - intros Hr. specialize (IH false Hr).
    destruct (rstrip_by (is_space U) r) as [| d r']; simpl; rewrite Hc; [reflexivity |].
    exact IH.
Qed.

(** *** Characters below 128 *)

Lemma ascii_forall (P : N -> bool) :
  forallb P (List.map N.of_nat (seq 0 128)) = true ->
  forall c, is_ascii c = true -> P c = true.
Proof.
  intros H c Hc. rewrite forallb_forall in H. apply H.
  apply in_map_iff. exists (N.to_nat c). split; [apply N2Nat.id |].
  apply in_seq. unfold is_ascii in Hc. apply N.ltb_lt in Hc. lia.
Qed.

Lemma out_char_ascii c : out_char c = true -> is_ascii c = true.
Proof.
  unfold out_char, nf_char, ascii_alnum, ascii_digit, ascii_alpha, cp_in, is_ascii.
  rewrite !orb_true_iff, !andb_true_iff, !N.leb_le, !N.eqb_eq, N.ltb_lt. lia.
Qed.

(** Lowercasing a character of a normalized name gives such a character,
    a space only for the space; it is no quote and no underscore, and the
    pattern of [normalize_name] keeps it. *)
Lemma out_char_lower c :
  out_char c = true ->
  let c' := ascii_lower c in
  out_char c' = true /\ is_ascii c' = true
  /\ is_space U c' = is_space U c /\ (c' =? 32) = (c =? 32)
  /\ (c' =? 34) = false /\ (c' =? 39) = false /\ (c' =? 95) = false
  /\ kept_char U c' = true.
Proof.
  intros Hc.
  pose proof (ascii_forall (fun c =>
    implb (out_char c)
      (let c' := ascii_lower c in
       out_char c' && is_ascii c'
       && Bool.eqb (is_space U c') (is_space U c) && Bool.eqb (c' =? 32) (c =? 32)
       && negb (c' =? 34) && negb (c' =? 39) && negb (c' =? 95)
       && kept_char U c')) eq_refl c (out_char_ascii c Hc)) as H.
  cbv beta in H. rewrite Hc in H. cbv zeta in H. simpl implb in H.
  repeat (apply andb_true_iff in H as [H ?]).
  repeat match goal with
         | E : negb _ = true |- _ => apply negb_true_iff in E
         | E : Bool.eqb _ _ = true |- _ => apply Bool.eqb_prop in E
         end.
  auto 10.
Qed.

(** What the pattern keeps is, once the underscore is a space, white space
    or a character of a normalized name. *)
Lemma kept_char_ascii c :
  is_ascii c = true -> kept_char U c = true ->
  let c' := if c =? 95 then 32 else c in
  is_space U c' || nf_char c' = true.
Proof.
  intros Ha Hk.
  pose proof (ascii_forall (fun c =>
    implb (kept_char U c)
      (let c' := if c =? 95 then 32 else c in is_space U c' || nf_char c'))
    eq_refl c Ha) as H.
  cbv beta in H. rewrite Hk in H. exact H.
Qed.

(** *** The steps of [normalize_name] *)

Lemma Forall_lstrip_by (P : N -> Prop) p s : Forall P s -> Forall P (lstrip_by p s).
Proof.
  induction 1 as [| c r Hc Hr IH]; simpl; [constructor |].
  destruct (p c); [exact IH | constructor; assumption].
Qed.

Lemma Forall_rstrip_by (P : N -> Prop) p s : Forall P s -> Forall P (rstrip_by p s).
Proof.
  induction 1 as [| c r Hc Hr IH]; [constructor |].
  rewrite rstrip_by_cons. destruct (rstrip_by p r).
  - destruct (p c); constructor; auto.
  - constructor; assumption.
Qed.

Lemma normalize_name_steps x :
  normalize_name U x = strip U (collapse_whitespace U (before_collapse U x)).
Proof. reflexivity. Qed.

Lemma before_collapse_chars x :
  Forall (fun c => is_space U c || nf_char c = true) (before_collapse U x).
Proof.
  unfold before_collapse, replace_char, encode_ascii_ignore.
  apply List.Forall_forall. intros c' Hc'.
  apply in_map_iff in Hc' as (c & <- & Hc).
  apply filter_In in Hc as [Hc Hk].
  apply kept_char_ascii; [| exact Hk].
  apply in_map_iff in Hc as (c1 & <- & Hc1).
  apply in_map_iff in Hc1 as (c2 & <- & Hc2).
  apply filter_In in Hc2 as [_ Ha].
  destruct (c2 =? 34); [reflexivity |]. destruct (c2 =? 39); [reflexivity | exact Ha].
Qed.

Lemma collapse_chars b s :
  Forall (fun c => is_space U c || nf_char c = true) s ->
  Forall (fun c => out_char c = true) (collapse_from U b s).
Proof.
  intros H. revert b. induction H as [| c r Hc Hr IH]; intros b; simpl; [constructor |].
  destruct (is_space U c) eqn:Hs.
  - destruct b; [apply IH |]. constructor; [reflexivity | apply IH].
  - constructor; [| apply IH]. simpl in Hc. unfold out_char. rewrite Hc. reflexivity.
Qed.

Lemma normalize_name_normal_form x : normal_form U (normalize_name U x).
Proof.
  rewrite normalize_name_steps. split.
  - apply Forall_lstrip_by, Forall_rstrip_by, collapse_chars, before_collapse_chars.
  - eapply spaced_lstrip, spaced_rstrip, spaced_collapse.
  - apply strip_by_idem.
Qed.

(** On the characters of a normalized name, everything before the white
    space is collapsed comes to lowercasing. *)
Lemma before_collapse_out y :
  Forall (fun c => out_char c = true) y ->
  before_collapse U y = List.map ascii_lower y.
Proof.
  unfold before_collapse, replace_char, encode_ascii_ignore, nfkd, str_lower.
  induction 1 as [| c r Hc Hr IH]; [reflexivity |].
  destruct (out_char_lower c Hc) as (Ho & Ha & _ & _ & H34 & H39 & H95 & Hk).
  simpl. unfold lower_cp at 1. rewrite (out_char_ascii c Hc). simpl.
  unfold nfkd_cp at 1. rewrite Ha. simpl. rewrite Ha. simpl.
  rewrite H34, H39, Hk. simpl. rewrite H95. f_equal. exact IH.
Qed.

Lemma spaced_lower b y :
  Forall (fun c => out_char c = true) y ->
  spaced (is_space U) b (List.map ascii_lower y) = spaced (is_space U) b y.
Proof.
  intros H. revert b. induction H as [| c r Hc Hr IH]; intros b; [reflexivity |].
  destruct (out_char_lower c Hc) as (_ & _ & Hs & H32 & _).
  simpl. rewrite Hs, H32, !IH. reflexivity.
Qed.

Lemma lstrip_lower y :
  Forall (fun c => out_char c = true) y ->
  lstrip_by (is_space U) (List.map ascii_lower y)
  = List.map ascii_lower (lstrip_by (is_space U) y).
Proof.
  induction 1 as [| c r Hc Hr IH]; [reflexivity |].
  destruct (out_char_lower c Hc) as (_ & _ & Hs & _).
  simpl. rewrite Hs. destruct (is_space U c); [exact IH | reflexivity].
Qed.

Lemma rstrip_lower y :
  Forall (fun c => out_char c = true) y ->
  rstrip_by (is_space U) (List.map ascii_lower y)
  = List.map ascii_lower (rstrip_by (is_space U) y).
Proof.
  induction 1 as [| c r Hc Hr IH]; [reflexivity |].
  destruct (out_char_lower c Hc) as (_ & _ & Hs & _).
  change (List.map ascii_lower (c :: r)) with (ascii_lower c :: List.map ascii_lower r).
  rewrite !rstrip_by_cons, IH, Hs.
  destruct (rstrip_by (is_space U) r); simpl; [destruct (is_space U c) |]; reflexivity.
Qed.

(** Normalizing a normalized name lowercases it. *)
Theorem normalize_name_twice x :
  normalize_name U (normalize_name U x) = List.map ascii_lower (normalize_name U x).
Proof.
  destruct (normalize_name_normal_form x) as [Hchars Hspaced Hstripped].
  set (y := normalize_name U x) in *.
  rewrite normalize_name_steps, (before_collapse_out y Hchars).
  unfold collapse_whitespace. rewrite collapse_spaced by (rewrite spaced_lower; assumption).
  unfold strip, strip_by in *.
  rewrite rstrip_lower, lstrip_lower by (try apply Forall_rstrip_by; assumption).
  rewrite Hstripped. reflexivity.
Qed.

(** X3: [normalize_name] is idempotent on the names whose normalized form has
    no capital letter; those are the names that [nfkd] does not decompose
    into capital letters. *)
Corollary normalize_name_idempotent_lower x :
  Forall (fun c => ascii_upper c = false) (normalize_name U x) ->
  normalize_name U (normalize_name U x) = normalize_name U x.
Proof.
  intros H. rewrite normalize_name_twice.
  induction H as [| c r Hc Hr IH]; [reflexivity |].
  simpl. unfold ascii_lower at 1. rewrite Hc, IH. reflexivity.
Qed.

End Normalizer.

(** C6, at the trade mark sign: lowercasing leaves the sign alone, its
    compatibility decomposition is the two capital letters T and M, and so
    its normalized name is "TM", whose normalized name is "tm". *)
Theorem normalize_name_trade_mark :
  normalize_name fragment [8482] = lit "TM"
  /\ normalize_name fragment (normalize_name fragment [8482]) = lit "tm"
  /\ normalize_name fragment (normalize_name fragment [8482])
     <> normalize_name fragment [8482].
Proof. repeat split; try (vm_compute; reflexivity). vm_compute. discriminate. Qed.

(** ** The filename parser *)

Section Parser.

Context (U : UnicodeData).

Implicit Types (s u v sep : str) (c : N).

Lemma is_prefix_spec sep s : is_prefix sep s = true <-> exists v, s = sep ++ v.
Proof.
  revert s. induction sep as [| a sep IH]; intros s; simpl.
  - split; [eauto | reflexivity].
  - destruct s as [| b s]; [split; [discriminate | intros [v [=]]] |].
    rewrite andb_true_iff, N.eqb_eq, IH. split.
    + intros [-> [v ->]]. eauto.
    + intros [v [= -> ->]]. eauto.
Qed.

Lemma contains_spec sep s : contains sep s = true <-> exists u v, s = u ++ sep ++ v.
Proof.
  induction s as [| a s IH]; simpl.
  - rewrite orb_false_r, is_prefix_spec. split.
    + intros [v Hv]. exists [], v. exact Hv.
    + intros (u & v & Hs). destruct u; [eauto | discriminate].
  - rewrite orb_true_iff, is_prefix_spec, IH. split.
    + intros [[v Hv] | (u & v & ->)]; [exists [], v; exact Hv |].
      exists (a :: u), v. reflexivity.
    + intros ([| b u] & v & Hs); [left; eauto |].
      injection Hs as -> ->. right. eauto.
Qed.

Lemma ends_with_spec suf s : ends_with suf s = true <-> exists u, s = u ++ suf.
Proof.
  unfold ends_with. rewrite bool_decide_eq_true. split.
  - intros H. exists (take (length s - length suf) s).
    pose proof (take_drop (length s - length suf) s) as Htd.
    rewrite H in Htd. symmetry. exact Htd.
  - intros [u ->]. rewrite length_app.
    replace (length u + length suf - length suf)%nat with (length u) by lia.
    apply drop_app_length.
Qed.

(** The first [" - "] of [artist ++ " - " ++ trk] is the one written
    between them, unless [artist] holds one or ends with [" -"]. *)
Lemma split_once_artist_track artist trk :
  contains (lit " - ") artist = false ->
  ends_with (lit " -") artist = false ->
  split_once (lit " - ") (artist ++ lit " - " ++ trk) = Some (artist, trk).
Proof.
  induction artist as [| a r IH]; intros Hc He.
  - reflexivity.
  - assert (Hc' : contains (lit " - ") r = false).
    { simpl in Hc. apply orb_false_iff in Hc as [_ Hc]. exact Hc. }
    assert (He' : ends_with (lit " -") r = false).
    { destruct (ends_with (lit " -") r) eqn:E; [| reflexivity].
      apply ends_with_spec in E as [u ->].
      assert (ends_with (lit " -") (a :: u ++ lit " -") = true)
        by (apply ends_with_spec; exists (a :: u); reflexivity).
      congruence. }
    assert (Hhere : is_prefix (lit " - ") ((a :: r) ++ lit " - " ++ trk) = false).
    { destruct (is_prefix _ _) eqn:E; [| reflexivity]. exfalso.
      apply is_prefix_spec in E as [v Hv].
      destruct r as [| b [| d r]].
      - simpl in Hv. injection Hv as _ Hv. discriminate.
      - injection Hv as -> ->. vm_compute in He. discriminate.
      - enough (contains (lit " - ") (a :: b :: d :: r) = true) by congruence.
        apply contains_spec. exists [], r. injection Hv as -> -> -> _. reflexivity. }
    change ((a :: r) ++ lit " - " ++ trk) with (a :: (r ++ lit " - " ++ trk)) in *.
    cbn [split_once]. rewrite Hhere, (IH Hc' He'). reflexivity.
Qed.

Lemma rfind_none c s : c ∉ s -> rfind c s = None.
Proof.
  induction s as [| d s IH]; simpl; [reflexivity |].
  intros [Hne Hs]%not_elem_of_cons. rewrite (IH Hs).
  destruct (N.eqb_spec d c); congruence.
Qed.

Lemma rfind_last c s t : c ∉ t -> rfind c (s ++ c :: t) = Some (length s).
Proof.
  intros Ht. induction s as [| d s IH]; simpl.
  - rewrite (rfind_none c t Ht), N.eqb_refl. reflexivity.
  - rewrite IH. reflexivity.
Qed.

Lemma split_char_none c s : c ∉ s -> split_char c s = [s].
Proof.
  induction s as [| d s IH]; simpl; [reflexivity |].
  intros [Hne Hs]%not_elem_of_cons. rewrite (IH Hs).
  destruct (N.eqb_spec d c); congruence.
Qed.

(** A string without ["/"], other than [""] and ["."], is a path of one part. *)
Lemma Path_of_filename s : 47 ∉ s -> s <> [] -> s <> [46] -> Path_of s = [s].
Proof.
  intros Hsep Hne Hdot. unfold Path_of, rel_parts.
  rewrite (split_char_none 47 s Hsep). simpl.
  rewrite !bool_decide_false by assumption. simpl.
  destruct s as [| c s]; [contradiction |].
  destruct (N.eqb_spec c 47) as [-> | Hc];
    [exfalso; apply Hsep, elem_of_cons; auto |].
  destruct c as [| p]; [reflexivity |].
  do 6 (destruct p as [p | p |]; try reflexivity). all: try reflexivity. all: congruence.
Qed.

Lemma path_name_single s : s <> [47] -> path_name [s] = s.
Proof.
  intros Hs. unfold path_name. simpl.
  destruct s as [| c s]; [reflexivity |].
  destruct c as [| p]; [reflexivity |].
  do 6 (destruct p as [p | p |]; try reflexivity).
  destruct s; [congruence | reflexivity].
Qed.

Lemma splitext_root_mp3 s :
  47 ∉ s -> (exists c, c ∈ s /\ c <> 46) -> splitext_root (s ++ lit ".mp3") = s.
Proof.
  intros Hsep (c & Hc & Hdot). unfold splitext_root.
  change (s ++ lit ".mp3") with (s ++ 46 :: lit "mp3").
  rewrite (rfind_none 47), (rfind_last 46 s (lit "mp3")).
  - rewrite take_app_length, drop_0. simpl.
    replace (existsb _ s) with true; [reflexivity |].
    symmetry. apply existsb_exists. exists c. split; [apply list_elem_of_In, Hc |].
    destruct (N.eqb_spec c 46); [contradiction | reflexivity].
  - apply (bool_decide_unpack _). vm_compute. reflexivity.
  - rewrite not_elem_of_app. split; [exact Hsep |].
    apply (bool_decide_unpack _). vm_compute. reflexivity.
Qed.

(** C4, amended: for [artist] and [track] without [" - "] and without
    ["/"], both non-empty after normalization, where [artist] does not
    end with [" -"] and the filename ["{artist} - {track}.mp3"] does not
    begin with a numeric prefix (digits, white space, then ["."] or ["-"]),
    parsing the filename succeeds and returns the two normalized names. *)
Theorem extract_artist_and_track_round_trip artist trk :
  contains (lit " - ") artist = false ->
  contains (lit " - ") trk = false ->
  normalize_name U artist <> [] ->
  normalize_name U trk <> [] ->
  47 ∉ artist ->
  47 ∉ trk ->
  ends_with (lit " -") artist = false ->
  numeric_prefix_match U (artist ++ lit " - " ++ trk ++ lit ".mp3") = None ->
  extract_artist_and_track U (Path_of (artist ++ lit " - " ++ trk ++ lit ".mp3"))
    = inr (normalize_name U artist, normalize_name U trk).
Proof.
  intros Hca Hct Hna Hnt Hsa Hst Hend Hprefix.
  assert (Hsep : 47 ∉ artist ++ lit " - " ++ trk).
  { rewrite !not_elem_of_app. repeat split; try assumption.
    apply (bool_decide_unpack _). vm_compute. reflexivity. }
  assert (Hname : 47 ∉ artist ++ lit " - " ++ trk ++ lit ".mp3").
  { rewrite !app_assoc, not_elem_of_app, <- app_assoc. split; [exact Hsep |].
    apply (bool_decide_unpack _). vm_compute. reflexivity. }
  assert (Hlen : (7 <= length (artist ++ lit " - " ++ trk ++ lit ".mp3"))%nat).
  { rewrite !length_app. simpl. lia. }
  assert (Hstrip : strip_numeric_prefix U (artist ++ lit " - " ++ trk ++ lit ".mp3")
                   = artist ++ lit " - " ++ trk ++ lit ".mp3")
    by (unfold strip_numeric_prefix; rewrite Hprefix; reflexivity).
  assert (Hroot : splitext_root (artist ++ lit " - " ++ trk ++ lit ".mp3")
                  = artist ++ lit " - " ++ trk).
  { replace (artist ++ lit " - " ++ trk ++ lit ".mp3")
      with ((artist ++ lit " - " ++ trk) ++ lit ".mp3")
      by (rewrite <- !app_assoc; reflexivity).
    apply splitext_root_mp3; [exact Hsep |].
    exists 32. split; [| discriminate].
    rewrite !elem_of_app. right. left. apply elem_of_cons. auto. }
  unfold extract_artist_and_track.
  rewrite Path_of_filename, path_name_single; try assumption;
    try (intros E; rewrite E in Hlen; simpl in Hlen; lia).
  rewrite Hstrip, Hroot, split_once_artist_track by assumption.
  rewrite !bool_decide_false by assumption. reflexivity.
Qed.

(** A filename whose first character is not a decimal digit has no numeric
    prefix. *)
Lemma numeric_prefix_match_no_digit c s :
  is_decimal U c = false -> numeric_prefix_match U (c :: s) = None.
Proof. intros H. unfold numeric_prefix_match. rewrite H. reflexivity. Qed.

End Parser.

Lemma extract_artist_and_track_round_trip_witness :
  extract_artist_and_track fragment (Path_of (lit "Foo Bar - Baz (Live).mp3"))
    = inr (lit "foo bar", lit "baz (live)").
Proof.
  apply (extract_artist_and_track_round_trip fragment (lit "Foo Bar") (lit "Baz (Live)"));
    try (vm_compute; reflexivity); try (vm_compute; discriminate);
    apply (bool_decide_unpack _); vm_compute; reflexivity.
Defined.

(** C4 as stated fails: an artist that begins with digits and ["-"] or
    ["."] loses them as a numeric prefix, an artist of digits only takes the
    separator with it, an artist that ends with [" -"] moves the separator,
    and of an artist with ["/"] only what follows it is the file name. *)
Lemma filename_round_trip_counterexamples :
  (contains (lit " - ") (lit "2-Pac") = false
   /\ contains (lit " - ") (lit "Changes") = false
   /\ normalize_name fragment (lit "2-Pac") = lit "2-pac"
   /\ normalize_name fragment (lit "Changes") = lit "changes"
   /\ extract_artist_and_track fragment (Path_of (lit "2-Pac - Changes.mp3"))
      = inr (lit "pac", lit "changes"))
  /\ (contains (lit " - ") (lit "311") = false
   /\ contains (lit " - ") (lit "Down") = false
   /\ normalize_name fragment (lit "311") = lit "311"
   /\ normalize_name fragment (lit "Down") = lit "down"
   /\ extract_artist_and_track fragment (Path_of (lit "311 - Down.mp3"))
      = inl "Expected format: 'Artist - Track'"%string)
  /\ (contains (lit " - ") (lit "a -") = false
   /\ contains (lit " - ") (lit "b") = false
   /\ normalize_name fragment (lit "a -") = lit "a -"
   /\ normalize_name fragment (lit "b") = lit "b"
   /\ extract_artist_and_track fragment (Path_of (lit "a - - b.mp3"))
      = inr (lit "a", lit "- b"))
  /\ (contains (lit " - ") (lit "AC/DC") = false
   /\ contains (lit " - ") (lit "Thunderstruck") = false
   /\ normalize_name fragment (lit "AC/DC") = lit "acdc"
   /\ normalize_name fragment (lit "Thunderstruck") = lit "thunderstruck"
   /\ extract_artist_and_track fragment (Path_of (lit "AC/DC - Thunderstruck.mp3"))
      = inr (lit "dc", lit "thunderstruck")).
Proof. repeat split; vm_compute; reflexivity. Qed.

(** ** The album-artist consolidator *)

Section Consolidator.

Local Open Scope nat_scope.

Implicit Types (a b : str) (c : list (str * nat)) (tracks : list Track).

(** *** The sort *)

Lemma sorted_insert_perm {A} (lt : A -> A -> bool) (x : A) (l : list A) :
  sorted_insert lt x l ≡ₚ x :: l.
Proof.
  induction l as [| y r IH]; simpl; [reflexivity |].
  destruct (lt y x); [| reflexivity].
  rewrite IH. apply Permutation_swap.
Qed.

Lemma sorted_perm {A} (lt : A -> A -> bool) (l : list A) : sorted lt l ≡ₚ l.
Proof.
  induction l as [| x r IH]; simpl; [reflexivity |].
  unfold sorted in *. simpl. rewrite sorted_insert_perm, IH. reflexivity.
Qed.

Lemma most_common_head_is_max c : head_is_max (most_common c).
Proof.
  unfold most_common, sorted.
  induction c as [| [a n] r IH]; simpl; [exact I |].
  destruct (foldr _ [] r) as [| [b k] s] eqn:Hs; simpl.
  - intros ? ? []%elem_of_nil.
  - simpl in IH. destruct (Nat.ltb_spec n k) as [Hlt | Hge]; simpl.
    + intros b' k' Hin.
      pose proof (sorted_insert_perm (fun x y => (snd y <? snd x)%nat) (a, n) s) as Hp.
      rewrite Hp in Hin. apply elem_of_cons in Hin as [[= -> ->] | Hin]; [lia |].
      eapply IH, Hin.
    + intros b' k' [[= -> ->] | Hin]%elem_of_cons; [lia |].
      specialize (IH _ _ Hin). lia.
Qed.

(** *** The counter *)

Lemma counter_get_incr a b c :
  counter_get a (counter_incr b c)
  = if bool_decide (a = b) then S (counter_get a c) else counter_get a c.
Proof.
  induction c as [| [d n] r IH]; simpl.
  - repeat case_bool_decide; congruence.
  - repeat (case_bool_decide; simpl); subst; try congruence.
    all: rewrite ?IH; repeat (case_bool_decide; simpl); subst; congruence.
Qed.

Lemma counter_incr_keys b c :
  (counter_incr b c).*1 = if bool_decide (b ∈ c.*1) then c.*1 else c.*1 ++ [b].
Proof.
  induction c as [| [d n] r IH]; csimpl; [reflexivity |].
  destruct (decide (b = d)) as [-> | Hne].
  - rewrite (bool_decide_true (d = d)) by reflexivity. csimpl.
    rewrite bool_decide_true by (apply elem_of_cons; auto). reflexivity.
  - rewrite (bool_decide_false (b = d)) by assumption. csimpl. rewrite IH.
    destruct (decide (b ∈ r.*1)) as [Hin | Hnin].
    + rewrite !bool_decide_true; auto. apply elem_of_cons; auto.
    + rewrite !bool_decide_false; auto.
      intros [? | ?]%elem_of_cons; contradiction.
Qed.

Lemma counter_incr_NoDup b c : NoDup c.*1 -> NoDup (counter_incr b c).*1.
Proof.
  intros Hnd. rewrite counter_incr_keys. case_bool_decide; [exact Hnd |].
  apply NoDup_app. split; [exact Hnd |]. split.
  - intros x Hx ->%list_elem_of_singleton. contradiction.
  - apply NoDup_singleton.
Qed.

Lemma counter_incr_elem a n b c :
  (a, n) ∈ counter_incr b c -> (0 < n)%nat \/ (a, n) ∈ c.
Proof.
  induction c as [| [d k] r IH]; simpl.
  - intros [= -> ->]%list_elem_of_singleton. left. lia.
  - case_bool_decide; subst.
    + intros [[= -> ->] | Hin]%elem_of_cons; [left; lia |].
      right. apply elem_of_cons. auto.
    + intros [[= -> ->] | Hin]%elem_of_cons.
      * right. apply elem_of_cons. auto.
      * destruct (IH Hin); auto. right. apply elem_of_cons. auto.
Qed.

Lemma counter_incr_ok b c : counter_ok c -> counter_ok (counter_incr b c).
Proof.
  intros [Hnd Hpos]. split; [apply counter_incr_NoDup, Hnd |].
  intros a n Hin. destruct (counter_incr_elem _ _ _ _ Hin); eauto.
Qed.

Lemma counter_get_elem a n c :
  NoDup c.*1 -> (a, n) ∈ c -> counter_get a c = n.
Proof.
  induction c as [| [d k] r IH]; simpl; [intros _ []%elem_of_nil |].
  intros [Hd Hnd]%NoDup_cons [[= -> ->] | Hin]%elem_of_cons.
  - rewrite bool_decide_true; reflexivity.
  - case_bool_decide; [| auto]. subst. exfalso. apply Hd.
    apply list_elem_of_fmap. exists (d, n). auto.
Qed.

Lemma counter_get_pos a c :
  (0 < counter_get a c)%nat -> (a, counter_get a c) ∈ c.
Proof.
  induction c as [| [d k] r IH]; simpl; [lia |].
  case_bool_decide; subst.
  - intros _. apply elem_of_cons. auto.
  - intros H'. apply elem_of_cons. auto.
Qed.

Lemma count_artists_slots tracks :
  count_artists tracks
  = foldl (fun counter a => counter_incr a counter) [] (artist_slots tracks).
Proof.
  unfold count_artists, artist_slots. generalize (@nil (str * nat)).
  induction tracks as [| t r IH]; intros c0; simpl; [reflexivity |].
  rewrite foldl_app. apply IH.
Qed.

Lemma counter_fold_spec (l : list str) : forall c,
  counter_ok c ->
  let c' := foldl (fun counter a => counter_incr a counter) c l in
  counter_ok c'
  /\ forall a, counter_get a c'
       = (counter_get a c + length (List.filter (fun b => bool_decide (b = a)) l))%nat.
Proof.
  induction l as [| x l IH]; intros c Hok; simpl.
  - split; [exact Hok | intros; lia].
  - destruct (IH (counter_incr x c) (counter_incr_ok x c Hok)) as [Hok' Hget].
    split; [exact Hok' |]. intros a. rewrite Hget, counter_get_incr.
    destruct (decide (x = a)) as [-> | Hne].
    + rewrite !bool_decide_true by reflexivity. simpl. lia.
    + rewrite (bool_decide_false (x = a)) by assumption.
      rewrite (bool_decide_false (a = x)) by congruence. lia.
Qed.

Lemma count_artists_spec tracks :
  counter_ok (count_artists tracks)
  /\ forall a, counter_get a (count_artists tracks) = occurrences a tracks.
Proof.
  rewrite count_artists_slots.
  destruct (counter_fold_spec (artist_slots tracks) []) as [Hok Hget].
  - split; [constructor | intros ? ? []%elem_of_nil].
  - split; [exact Hok |]. intros a. rewrite Hget. reflexivity.
Qed.

Lemma occurrences_pos a tracks :
  (0 < occurrences a tracks)%nat <-> a ∈ artist_slots tracks.
Proof.
  unfold occurrences. induction (artist_slots tracks) as [| x l IH]; simpl.
  - split; [lia | intros []%elem_of_nil].
  - case_bool_decide; subst; simpl.
    + split; [intros _; apply elem_of_cons; auto | lia].
    + rewrite IH. rewrite elem_of_cons. split; [auto | intros [-> | ?]; congruence].
Qed.

Lemma count_artists_nil tracks :
  is_nil (count_artists tracks) = is_nil (artist_slots tracks).
Proof.
  destruct (count_artists_spec tracks) as [_ Hget].
  destruct (artist_slots tracks) as [| x l] eqn:Hslots.
  - rewrite count_artists_slots, Hslots. reflexivity.
  - assert (Hpos : (0 < occurrences x tracks)%nat).
    { apply occurrences_pos. rewrite Hslots. apply elem_of_cons. auto. }
    rewrite <- Hget in Hpos. destruct (count_artists tracks); simpl in *; [lia | easy].
Qed.

Lemma NoDup_filter_keys (p : str * nat -> bool) c :
  NoDup c.*1 -> NoDup (List.map fst (List.filter p c)).
Proof.
  induction c as [| [d n] r IH]; csimpl; [constructor |].
  intros [Hd Hnd]%NoDup_cons. destruct (p (d, n)); simpl; [| auto].
  apply NoDup_cons. split; [| auto].
  intros Hin. apply Hd. apply list_elem_of_In, in_map_iff in Hin as ([d' k] & Heq & Hin).
  simpl in Heq. subst d'. apply filter_In in Hin as [Hin _].
  apply list_elem_of_fmap. exists (d, k). split; [reflexivity |].
  apply list_elem_of_In, Hin.
Qed.

(** The artists with the largest count, as the code collects them. *)
Lemma top_artists_spec tracks :
  artist_slots tracks <> [] ->
  let common := most_common (count_artists tracks) in
  let max_count := match common with (_, n) :: _ => n | [] => 0%nat end in
  let top := List.map fst (List.filter (fun ac => (snd ac =? max_count)%nat) common) in
  NoDup top /\ forall a, a ∈ top <-> attains_max a tracks.
Proof.
  intros Hne common max_count top.
  destruct (count_artists_spec tracks) as [[Hnd Hpos] Hget].
  assert (Hperm : common ≡ₚ count_artists tracks) by apply sorted_perm.
  assert (Hnd' : NoDup common.*1) by (rewrite Hperm; exact Hnd).
  assert (Hin : forall a n, (a, n) ∈ common <-> (a, n) ∈ count_artists tracks)
    by (intros; rewrite Hperm; reflexivity).
  assert (Hmem : forall a n, (a, n) ∈ common <-> (0 < n)%nat /\ occurrences a tracks = n).
  { intros a n. rewrite Hin. split.
    - intros H. split; [eapply Hpos, H |]. rewrite <- Hget. apply counter_get_elem; auto.
    - intros [Hn <-]. rewrite <- Hget in *. apply counter_get_pos, Hn. }
  pose proof (most_common_head_is_max (count_artists tracks)) as Hmax.
  fold common in Hmax.
  destruct common as [| [a0 mx] s] eqn:Hcommon.
  { exfalso. apply Hne. apply is_nil_true. rewrite <- count_artists_nil.
    apply Permutation_nil_l in Hperm. rewrite <- Hperm. reflexivity. }
  simpl in Hmax, max_count.
  assert (Hhead : (0 < mx)%nat /\ occurrences a0 tracks = mx)
    by (apply Hmem, elem_of_cons; auto).
  assert (Hle : forall b, (occurrences b tracks <= mx)%nat).
  { intros b. destruct (Nat.eq_dec (occurrences b tracks) 0) as [-> | Hb]; [lia |].
    assert (Hb' : (b, occurrences b tracks) ∈ (a0, mx) :: s)
      by (apply Hmem; split; [lia | reflexivity]).
    apply elem_of_cons in Hb' as [[= _ ->] | Hb']; [lia | eapply Hmax, Hb']. }
  split; [apply NoDup_filter_keys, Hnd' |].
  intros a. unfold top. rewrite list_elem_of_In, in_map_iff. split.
  - intros ([a' n] & Heq & Hf). simpl in Heq. subst a'.
    apply filter_In in Hf as [Hf Hn]. simpl in Hn. apply Nat.eqb_eq in Hn. subst n.
    apply list_elem_of_In, Hmem in Hf as [_ Hocc].
    split; [apply occurrences_pos; lia |]. intros b. rewrite Hocc. apply Hle.
  - intros [Hslot Hall]. exists (a, mx). split; [reflexivity |].
    apply filter_In. split; [| apply Nat.eqb_eq; reflexivity].
    apply list_elem_of_In, Hmem. split; [lia |].
    specialize (Hall a0). specialize (Hle a). lia.
Qed.

Lemma str_ltb_asym a b : str_ltb a b = true -> str_ltb b a = false.
Proof.
  revert b. induction a as [| x a IH]; intros [| y b]; simpl; try easy.
  destruct (N.ltb_spec x y), (N.ltb_spec y x), (N.eqb_spec x y), (N.eqb_spec y x);
    simpl; try lia; try easy. apply IH.
Qed.

Lemma consolidated_from_top tracks t0 r :
  tracks = t0 :: r ->
  artist_slots tracks <> [] ->
  exists top,
    NoDup top /\ (forall a, a ∈ top <-> attains_max a tracks)
    /\ _get_consolidated_album_artist tracks =
         if (length top =? 1)%nat then default [] (head top)
         else if (2 <? length top)%nat then lit "Various Artists"
         else str_join (lit " & ") (sorted str_ltb top).
Proof.
  intros -> Hne. destruct (top_artists_spec _ Hne) as [Hnd Htop].
  eexists. split; [exact Hnd |]. split; [exact Htop |].
  unfold _get_consolidated_album_artist. rewrite count_artists_nil.
  destruct (artist_slots (t0 :: r)); [contradiction | reflexivity].
Qed.

Lemma artist_slots_empty tracks :
  Forall (fun t => artists t = []) tracks -> artist_slots tracks = [].
Proof.
  induction 1 as [| t r Ht _ IH]; simpl; [reflexivity |]. rewrite Ht, IH. reflexivity.
Qed.

Lemma attains_max_slots a tracks : attains_max a tracks -> artist_slots tracks <> [].
Proof. intros [Hin _] Hnil. rewrite Hnil in Hin. apply elem_of_nil in Hin. exact Hin. Qed.

(** C5: the consolidator returns "Unknown Artist" for no tracks; the raw
    album artist of the first track when no track has an artist; the one
    artist that occurs most often, when there is one; the two artists that
    occur most often joined by " & ", the smaller first, when there are
    two; and "Various Artists" when three or more artists occur most
    often. *)
Theorem consolidated_album_artist_cases tracks :
  (tracks = [] -> _get_consolidated_album_artist tracks = lit "Unknown Artist")
  /\ (forall t0 r, tracks = t0 :: r -> Forall (fun t => artists t = []) tracks ->
        _get_consolidated_album_artist tracks = album_artist t0)
  /\ (forall a, attains_max a tracks -> (forall b, attains_max b tracks -> b = a) ->
        _get_consolidated_album_artist tracks = a)
  /\ (forall a b, attains_max a tracks -> attains_max b tracks -> str_ltb a b = true ->
        (forall x, attains_max x tracks -> x = a \/ x = b) ->
        _get_consolidated_album_artist tracks = a ++ lit " & " ++ b)
  /\ (forall a b x, attains_max a tracks -> attains_max b tracks -> attains_max x tracks ->
        a <> b -> a <> x -> b <> x ->
        _get_consolidated_album_artist tracks = lit "Various Artists").
Proof.
  split; [intros ->; reflexivity |].
  split.
  { intros t0 r -> Hall. unfold _get_consolidated_album_artist.
    rewrite count_artists_nil, (artist_slots_empty _ Hall). reflexivity. }
  assert (Htop : forall a, attains_max a tracks ->
    exists top,
      NoDup top /\ (forall x, x ∈ top <-> attains_max x tracks)
      /\ _get_consolidated_album_artist tracks =
           if (length top =? 1)%nat then default [] (head top)
           else if (2 <? length top)%nat then lit "Various Artists"
           else str_join (lit " & ") (sorted str_ltb top)).
  { intros a Ha. pose proof (attains_max_slots a tracks Ha) as Hne.
    destruct tracks as [| t0 r]; [contradiction |].
    eapply consolidated_from_top; [reflexivity | exact Hne]. }
  split; [| split].
  - intros a Ha Huniq. destruct (Htop a Ha) as (top & Hnd & Hmem & ->).
    assert (Hsub : top ⊆+ [a]).
    { apply NoDup_submseteq; [exact Hnd |].
      intros x Hx%Hmem%Huniq. subst. apply elem_of_cons. auto. }
    assert (Hsup : [a] ⊆+ top).
    { apply NoDup_submseteq; [apply NoDup_singleton |].
      intros x ->%list_elem_of_singleton. apply Hmem, Ha. }
    apply submseteq_length in Hsub, Hsup. simpl in *.
    destruct top as [| x [| y top]]; simpl in *; try lia.
    assert (Hx : x ∈ [x]) by (apply elem_of_cons; auto).
    apply Hmem, Huniq in Hx. exact Hx.
  - intros a b Ha Hb Hlt Honly. destruct (Htop a Ha) as (top & Hnd & Hmem & ->).
    assert (Hab : a <> b).
    { intros ->. rewrite (str_ltb_asym _ _ Hlt) in Hlt. discriminate. }
    assert (Hsub : top ⊆+ [a; b]).
    { apply NoDup_submseteq; [exact Hnd |].
      intros x [-> | ->]%Hmem%Honly; rewrite !elem_of_cons; auto. }
    assert (Hsup : [a; b] ⊆+ top).
    { apply NoDup_submseteq.
      - apply NoDup_cons. split; [| apply NoDup_singleton].
        intros ->%list_elem_of_singleton. congruence.
      - intros x [-> | ->%list_elem_of_singleton]%elem_of_cons; apply Hmem; assumption. }
    pose proof (submseteq_length _ _ Hsub) as L1.
    pose proof (submseteq_length _ _ Hsup) as L2. simpl in L1, L2.
    destruct top as [| x [| y [| z top]]]; simpl in *; try lia.
    assert (Hx : attains_max x tracks) by (apply Hmem; rewrite !elem_of_cons; auto).
    assert (Hy : attains_max y tracks) by (apply Hmem; rewrite !elem_of_cons; auto).
    assert (Hxy : x <> y).
    { apply NoDup_cons in Hnd as [Hnx _]. intros ->. apply Hnx, elem_of_cons. auto. }
    unfold sorted. simpl.
    destruct (Honly x Hx) as [-> | ->], (Honly y Hy) as [-> | ->]; try congruence.
    + rewrite (str_ltb_asym _ _ Hlt). reflexivity.
    + rewrite Hlt. reflexivity.
  - intros a b d Ha Hb Hd Hab Had Hbd. destruct (Htop a Ha) as (top & Hnd & Hmem & ->).
    assert (Hsup : [a; b; d] ⊆+ top).
    { apply NoDup_submseteq.
      - repeat (apply NoDup_cons; split); try apply NoDup_nil; auto;
          rewrite ?elem_of_cons, ?elem_of_nil; intuition congruence.
      - intros x Hx. rewrite !elem_of_cons, elem_of_nil in Hx. apply Hmem.
        destruct Hx as [-> | [-> | [-> | []]]]; assumption. }
    apply submseteq_length in Hsup. simpl in Hsup.
    destruct top as [| x [| y [| z top]]]; simpl in *; try lia. reflexivity.
Qed.

End Consolidator.

Lemma attains_max_iff (a : str) (tracks : list Track) :
  attains_max a tracks <-> a ∈ max_artists tracks.
Proof.
  unfold max_artists. rewrite list_elem_of_In, filter_In, forallb_forall,
    <- list_elem_of_In.
  split; intros [Hin Hall]; (split; [exact Hin |]).
  - intros b _. apply Nat.leb_le, Hall.
  - intros b. destruct (Nat.eq_dec (occurrences b tracks) 0%nat) as [-> | Hb]; [lia |].
    apply Nat.leb_le, Hall, list_elem_of_In, occurrences_pos. lia.
Qed.

Lemma consolidated_album_artist_cases_witness :
  _get_consolidated_album_artist [] = lit "Unknown Artist"
  /\ _get_consolidated_album_artist tracks_no_artist = lit "X"
  /\ _get_consolidated_album_artist (tracks playlist_two) = lit "X"
  /\ _get_consolidated_album_artist (tracks playlist_y_x) = lit "X" ++ lit " & " ++ lit "Y"
  /\ _get_consolidated_album_artist tracks_three_artists = lit "Various Artists".
Proof.
  assert (Hmax : forall a tracks,
    bool_decide (a ∈ max_artists tracks) = true -> attains_max a tracks).
  { intros a tracks H. apply attains_max_iff, (bool_decide_unpack _), Is_true_true, H. }
  split; [| split; [| split; [| split]]].
  - destruct (consolidated_album_artist_cases []) as (H & _). apply H. reflexivity.
  - destruct (consolidated_album_artist_cases tracks_no_artist) as (_ & H & _).
    apply (H (Track_init 0 (raw_track "Song A" [] 1)) []); [reflexivity |].
    repeat constructor.
  - destruct (consolidated_album_artist_cases (tracks playlist_two)) as (_ & _ & H & _).
    apply (H (lit "X")); [apply Hmax; vm_compute; reflexivity |].
    intros b Hb%attains_max_iff.
    assert (E : max_artists (tracks playlist_two) = [lit "X"; lit "X"])
      by (vm_compute; reflexivity).
    rewrite E, !elem_of_cons, elem_of_nil in Hb. intuition.
  - destruct (consolidated_album_artist_cases (tracks playlist_y_x))
      as (_ & _ & _ & H & _).
    apply (H (lit "X") (lit "Y"));
      try (apply Hmax; vm_compute; reflexivity); [reflexivity |].
    intros x Hx%attains_max_iff.
    assert (E : max_artists (tracks playlist_y_x) = [lit "Y"; lit "X"])
      by (vm_compute; reflexivity).
    rewrite E, !elem_of_cons, elem_of_nil in Hx. intuition.
  - destruct (consolidated_album_artist_cases tracks_three_artists)
      as (_ & _ & _ & _ & H).
    apply (H (lit "X") (lit "Y") (lit "Z"));
      try (apply Hmax; vm_compute; reflexivity); discriminate.
Defined.

(** ** Reconciliation *)

Section Reconciliation.

Context (U : UnicodeData).

Implicit Types (t : Track) (v : Verification) (l : list Track)
  (idx : gmap (list N) (list (str * Path))) (am : gmap (list N) (list N)).

Lemma find_match_nil artists_ : find_match artists_ [] = None.
Proof. induction artists_ as [| a r IH]; simpl; auto. Qed.

(** One turn of the loop adds to each list what the outcome functions say. *)
Lemma verify_track_outcome am idx v t :
  v_matches (verify_track U am idx v t)
    = v_matches v ++ option_list (match_for U am idx t)
  /\ v_missing_from_local (verify_track U am idx v t)
    = v_missing_from_local v ++ option_list (missing_for U idx t)
  /\ v_artist_mismatches (verify_track U am idx v t)
    = v_artist_mismatches v ++ option_list (mismatch_for U idx t).
Proof.
  unfold verify_track, match_for, missing_for, mismatch_for, entries_for.
  destruct (idx !! normalized_name U t) as [[| e es] |]; simpl.
  - rewrite find_match_nil. simpl. rewrite !app_nil_r. auto.
  - destruct (find_match _ _); simpl; rewrite ?app_nil_r; auto.
  - rewrite find_match_nil. simpl. rewrite !app_nil_r. auto.
Qed.

Lemma verify_loop_outcome am idx l : forall v,
  let v' := foldl (verify_track U am idx) v l in
  v_matches v' = v_matches v ++ omap (match_for U am idx) l
  /\ v_missing_from_local v' = v_missing_from_local v ++ omap (missing_for U idx) l
  /\ v_artist_mismatches v' = v_artist_mismatches v ++ omap (mismatch_for U idx) l.
Proof.
  induction l as [| t l IH]; intros v; simpl.
  - rewrite !app_nil_r. auto.
  - destruct (IH (verify_track U am idx v t)) as (H1 & H2 & H3).
    destruct (verify_track_outcome am idx v t) as (E1 & E2 & E3).
    rewrite H1, H2, H3, E1, E2, E3, <- !app_assoc.
    destruct (match_for U am idx t), (missing_for U idx t), (mismatch_for U idx t);
      simpl; auto.
Qed.

Lemma verify_tracks_outcome p idx :
  v_matches (verify_tracks U p idx) = omap (match_for U (_album_artist_map p) idx) (tracks p)
  /\ v_missing_from_local (verify_tracks U p idx) = omap (missing_for U idx) (tracks p)
  /\ v_artist_mismatches (verify_tracks U p idx) = omap (mismatch_for U idx) (tracks p).
Proof. unfold verify_tracks. apply verify_loop_outcome. Qed.

Lemma match_for_track am idx t m : match_for U am idx t = Some m -> track m = t.
Proof.
  unfold match_for. destruct (find_match _ _); intros H; inversion H; reflexivity.
Qed.

(** A track is matched, or missing, or mismatched. *)
Lemma outcome_cases am idx t :
  missing_for U idx t = None -> mismatch_for U idx t = None ->
  is_Some (match_for U am idx t).
Proof.
  unfold missing_for, mismatch_for, match_for.
  destruct (is_nil _); [discriminate |].
  destruct (find_match _ _); [eauto | discriminate].
Qed.

(** With nothing missing and nothing mismatched, the matches are the
    tracks, one each and in order. *)
Lemma all_matched am idx l :
  omap (missing_for U idx) l = [] -> omap (mismatch_for U idx) l = [] ->
  List.map track (omap (match_for U am idx) l) = l.
Proof.
  induction l as [| t l IH]; simpl; [reflexivity |].
  destruct (missing_for U idx t) eqn:Hmiss; [discriminate |].
  destruct (mismatch_for U idx t) eqn:Hmis; [discriminate |].
  intros H1 H2. destruct (outcome_cases am idx t Hmiss Hmis) as [m Hm].
  rewrite Hm. simpl. rewrite (match_for_track _ _ _ _ Hm).
  f_equal. apply IH; assumption.
Qed.

Lemma find_local_sound a entries f :
  find_local a entries = Some f -> (a, f) ∈ entries.
Proof.
  induction entries as [| [b g] r IH]; simpl; [discriminate |].
  case_bool_decide as Hab.
  - intros [= ->]. subst b. apply elem_of_cons. auto.
  - intros H. apply elem_of_cons. auto.
Qed.

Lemma find_local_none a entries : a ∉ entries.*1 -> find_local a entries = None.
Proof.
  induction entries as [| [b g] r IH]; simpl; [reflexivity |].
  intros [Hne Hr]%not_elem_of_cons. case_bool_decide; [contradiction | auto].
Qed.

Lemma find_local_first a epre f epost :
  a ∉ epre.*1 -> find_local a (epre ++ (a, f) :: epost) = Some f.
Proof.
  induction epre as [| [b g] r IH]; simpl.
  - intros _. case_bool_decide; [reflexivity | contradiction].
  - intros [Hne Hr]%not_elem_of_cons. case_bool_decide; [contradiction | auto].
Qed.

Lemma find_match_sound artists_ entries f :
  find_match artists_ entries = Some f ->
  exists a, a ∈ artists_ /\ (a, f) ∈ entries.
Proof.
  induction artists_ as [| a r IH]; simpl; [discriminate |].
  destruct (find_local a entries) as [g |] eqn:Hloc.
  - intros [= ->]. exists a. split; [apply elem_of_cons; auto |].
    apply find_local_sound, Hloc.
  - intros H. destruct (IH H) as (b & Hb & Hin).
    exists b. split; [apply elem_of_cons; auto | exact Hin].
Qed.

Lemma find_match_first pre a post entries f :
  (forall a', a' ∈ pre -> a' ∉ entries.*1) ->
  find_local a entries = Some f ->
  find_match (pre ++ a :: post) entries = Some f.
Proof.
  intros Hpre Hloc. induction pre as [| b r IH]; simpl.
  - rewrite Hloc. reflexivity.
  - rewrite find_local_none by (apply Hpre, elem_of_cons; auto).
    apply IH. intros a' Ha'. apply Hpre, elem_of_cons. auto.
Qed.

(** Every entry of the index stands under the track name parsed from its
    file, with the artist parsed from it. *)
Lemma index_file_sound st file :
  (forall k a f, (a, f) ∈ default [] (st.1 !! k) ->
     extract_artist_and_track U f = inr (a, k)) ->
  forall k a f, (a, f) ∈ default [] ((index_file U st file).1 !! k) ->
     extract_artist_and_track U f = inr (a, k).
Proof.
  destruct st as [m errs]. simpl. intros Hinv k a f. unfold index_file.
  destruct (extract_artist_and_track U file) as [e | [artist trk]] eqn:Hx; simpl;
    [apply Hinv |].
  destruct (decide (trk = k)) as [-> | Hne].
  - rewrite lookup_insert_eq. simpl.
    intros [Hold | Hnew%list_elem_of_singleton]%elem_of_app.
    + apply Hinv, Hold.
    + inversion Hnew; subst. exact Hx.
  - rewrite lookup_insert_ne by assumption. apply Hinv.
Qed.

Lemma build_index_sound files k a f :
  (a, f) ∈ default [] ((build_index U files).1 !! k) ->
  extract_artist_and_track U f = inr (a, k).
Proof.
  unfold build_index.
  assert (H : forall st,
    (forall k a f, (a, f) ∈ default [] (st.1 !! k) ->
       extract_artist_and_track U f = inr (a, k)) ->
    forall k a f, (a, f) ∈ default [] ((foldl (index_file U) st files).1 !! k) ->
       extract_artist_and_track U f = inr (a, k)).
  { induction files as [| file r IH]; intros st Hinv; simpl; [exact Hinv |].
    apply IH, index_file_sound, Hinv. }
  apply H. intros k' a' f'. simpl. rewrite lookup_empty. simpl.
  intros []%elem_of_nil.
Qed.

(** The file of a match is a local entry of the normalized name of its
    track, for one of the normalized artists of the track. *)
Lemma match_for_sound am idx t m :
  match_for U am idx t = Some m ->
  track m = t /\ exists a, a ∈ normalized_artists U t
    /\ (a, local_file m) ∈ default [] (idx !! normalized_name U t).
Proof.
  unfold match_for, entries_for.
  destruct (find_match _ _) as [f |] eqn:Hf; [| discriminate].
  intros [= <-]. simpl. split; [reflexivity |].
  apply find_match_sound, Hf.
Qed.

End Reconciliation.

Section VerifyPlaylist.

Context (U : UnicodeData) {FS : Type} (os : FileSystem FS).

(** [verify_playlist] on a playlist that has tracks: the verification error
    with the three lists when one of them has an entry, the matches
    otherwise. *)
Lemma verify_playlist_nonempty p folders fs files idx errs :
  collect_audio_files U os folders fs = inr files ->
  build_index U files = (idx, errs) ->
  tracks p <> [] ->
  let v := verify_tracks U p idx in
  verify_playlist U os p folders fs =
    if is_nil errs && is_nil (v_artist_mismatches v) && is_nil (v_missing_from_local v)
    then inr (v_matches v)
    else inl (PlaylistVerificationError
                {| parsing_errors := errs;
                   artist_mismatches := v_artist_mismatches v;
                   missing_from_playlist := v_missing_from_local v |}).
Proof.
  intros Hfiles Hidx Hne v. unfold verify_playlist. rewrite Hfiles, Hidx.
  fold v. destruct (tracks p) as [| t r]; [contradiction |]. simpl.
  destruct (is_nil errs), (is_nil (v_artist_mismatches v)),
    (is_nil (v_missing_from_local v)); reflexivity.
Qed.

(** On a playlist without tracks the summary cannot be computed. *)
Lemma verify_playlist_no_tracks p folders fs files :
  collect_audio_files U os folders fs = inr files ->
  tracks p = [] ->
  verify_playlist U os p folders fs = inl ZeroDivisionError.
Proof.
  intros Hfiles Hnil. unfold verify_playlist. rewrite Hfiles, Hnil.
  destruct (build_index U files). reflexivity.
Qed.

(** What a normal return of [verify_playlist] tells. *)
Lemma verify_playlist_returns p folders fs ms :
  verify_playlist U os p folders fs = inr ms ->
  exists files idx,
    collect_audio_files U os folders fs = inr files
    /\ build_index U files = (idx, [])
    /\ omap (missing_for U idx) (tracks p) = []
    /\ omap (mismatch_for U idx) (tracks p) = []
    /\ ms = omap (match_for U (_album_artist_map p) idx) (tracks p).
Proof.
  intros Hret.
  destruct (collect_audio_files U os folders fs) as [e | files] eqn:Hfiles;
    [unfold verify_playlist in Hret; rewrite Hfiles in Hret; discriminate |].
  destruct (build_index U files) as [idx errs] eqn:Hidx.
  destruct (tracks p) as [| t r] eqn:Htracks.
  { rewrite (verify_playlist_no_tracks p folders fs files Hfiles Htracks) in Hret.
    discriminate. }
  rewrite (verify_playlist_nonempty p folders fs files idx errs Hfiles Hidx) in Hret
    by (rewrite Htracks; discriminate).
  destruct (verify_tracks_outcome U p idx) as (Hm & Hmiss & Hmis).
  destruct (is_nil errs) eqn:E1; [| discriminate].
  destruct (is_nil (v_artist_mismatches _)) eqn:E2; [| discriminate].
  destruct (is_nil (v_missing_from_local _)) eqn:E3; [| discriminate].
  simpl in Hret. injection Hret as <-.
  apply is_nil_true in E1, E2, E3. subst errs.
  exists files, idx. rewrite <- Htracks, <- Hmiss, <- Hmis, <- Hm. auto.
Qed.

Lemma positions_of_init raw dur :
  position <$> tracks (Playlist_init raw dur) = seq 0 (length raw).
Proof.
  simpl. rewrite fmap_imap.
  rewrite (imap_ext _ (fun j _ => j)) by reflexivity.
  rewrite imap_seq_0. apply list_fmap_id.
Qed.

(** C9: when [verify_playlist] returns normally, the list has one match per
    playlist track: as many matches as tracks, and the match at index [i]
    holds the track at index [i] of the playlist, whose position is [i]. *)
Theorem verify_playlist_one_match_per_track raw dur folders fs ms :
  verify_playlist U os (Playlist_init raw dur) folders fs = inr ms ->
  length ms = length raw
  /\ forall i m, ms !! i = Some m ->
       tracks (Playlist_init raw dur) !! i = Some (track m)
       /\ position (track m) = i.
Proof.
  intros Hret.
  destruct (verify_playlist_returns _ _ _ _ Hret)
    as (files & idx & _ & _ & Hmiss & Hmis & ->).
  pose proof (all_matched U (_album_artist_map (Playlist_init raw dur)) idx _ Hmiss Hmis)
    as Hall.
  set (ms := omap _ _) in *.
  assert (Hlen : length ms = length raw).
  { rewrite <- (length_map track ms), Hall. simpl. apply length_imap. }
  split; [exact Hlen |].
  intros i m Hi.
  assert (Ht : tracks (Playlist_init raw dur) !! i = Some (track m)).
  { rewrite <- Hall. change (List.map track ms) with (track <$> ms).
    rewrite list_lookup_fmap, Hi. reflexivity. }
  split; [exact Ht |].
  assert (Hp : (position <$> tracks (Playlist_init raw dur)) !! i
               = Some (position (track m)))
    by (rewrite list_lookup_fmap, Ht; reflexivity).
  rewrite positions_of_init in Hp.
  apply lookup_seq in Hp. lia.
Qed.

End VerifyPlaylist.

Lemma verify_playlist_one_match_per_track_witness :
  verify_playlist fragment simple_fs (Playlist_init raw_two 300) [in_dir] fs_two_files
    = inr matches_two
  /\ length matches_two = length raw_two.
Proof.
  split; [vm_compute; reflexivity |].
  apply (verify_playlist_one_match_per_track fragment simple_fs raw_two 300
           [in_dir] fs_two_files matches_two).
  vm_compute; reflexivity.
Defined.

(** C2, at a playlist without tracks: the summary that [verify_playlist]
    logs before it looks at the report divides by the number of tracks, so
    the call raises [ZeroDivisionError]: with the three lists empty it does
    not return the matches, and with a parsing failure in the report it does
    not raise the verification error. *)
Theorem verify_playlist_empty_playlist :
  tracks playlist_empty = []
  /\ (build_index fragment fs_one_file).2 = []
  /\ v_artist_mismatches (verify_tracks fragment playlist_empty
                            (build_index fragment fs_one_file).1) = []
  /\ v_missing_from_local (verify_tracks fragment playlist_empty
                             (build_index fragment fs_one_file).1) = []
  /\ verify_playlist fragment simple_fs playlist_empty [in_dir] fs_one_file
     = inl ZeroDivisionError
  /\ (build_index fragment fs_unparsable).2 <> []
  /\ verify_playlist fragment simple_fs playlist_empty [in_dir] fs_unparsable
     = inl ZeroDivisionError.
Proof. repeat split; try (vm_compute; reflexivity). discriminate. Qed.

Section Choice.

Context (U : UnicodeData).

Lemma NoDup_fmap_elem_inj {A B} (g : A -> B) (l : list A) x y :
  NoDup (g <$> l) -> x ∈ l -> y ∈ l -> g x = g y -> x = y.
Proof.
  induction l as [| z l IH]; simpl; [intros _ []%elem_of_nil |].
  intros [Hz Hnd]%NoDup_cons [-> | Hx]%elem_of_cons [-> | Hy]%elem_of_cons Heq; auto.
  - exfalso. apply Hz. rewrite Heq. apply list_elem_of_fmap_2, Hy.
  - exfalso. apply Hz. rewrite <- Heq. apply list_elem_of_fmap_2, Hx.
Qed.

(** C1, amended: a playlist track whose normalized name has local entries
    is matched to the first entry, in scan order, of the first of its
    normalized artists, in the order of its artist list, that has a local
    entry at all; the order of the artist list decides when more than one
    artist has entries. *)
Theorem verify_tracks_match_choice (p : Playlist)
    (idx : gmap (list N) (list (str * Path))) (t : Track)
    (entries epre epost : list (str * Path)) (pre post : list str)
    (a : str) (f : Path) :
  t ∈ tracks p ->
  idx !! normalized_name U t = Some entries ->
  normalized_artists U t = pre ++ a :: post ->
  (forall a', a' ∈ pre -> a' ∉ entries.*1) ->
  entries = epre ++ (a, f) :: epost ->
  a ∉ epre.*1 ->
  (exists m, m ∈ v_matches (verify_tracks U p idx) /\ track m = t)
  /\ forall m, m ∈ v_matches (verify_tracks U p idx) -> track m = t -> local_file m = f.
Proof.
  intros Hin Hidx Harts Hpre Hent Hepre.
  destruct (verify_tracks_outcome U p idx) as (-> & _ & _).
  assert (Hm : match_for U (_album_artist_map p) idx t =
    Some {| track := t; local_file := f;
            consolidated_album_artist :=
              default (album_artist t) (_album_artist_map p !! album_id t) |}).
  { unfold match_for, entries_for. rewrite Hidx, Harts. simpl.
    rewrite (find_match_first pre a post entries f Hpre); [reflexivity |].
    rewrite Hent. apply find_local_first, Hepre. }
  split.
  - eexists. split; [apply list_elem_of_omap; exists t; split; eassumption |].
    reflexivity.
  - intros m (t' & _ & Hm')%list_elem_of_omap Ht.
    pose proof (match_for_track U _ _ _ _ Hm') as Ht'.
    rewrite Ht in Ht'. subst t'.
    rewrite Hm in Hm'. injection Hm' as <-. reflexivity.
Qed.

End Choice.

Lemma verify_tracks_match_choice_witness :
  exists m,
    m ∈ v_matches (verify_tracks fragment playlist_y_x
                     (build_index fragment [file_x; file_y]).1)
    /\ track m = Track_init 0 (raw_track "Song A" [lit "Y"; lit "X"] 1)
    /\ local_file m = file_y.
Proof.
  destruct (verify_tracks_match_choice fragment playlist_y_x
              (build_index fragment [file_x; file_y]).1
              (Track_init 0 (raw_track "Song A" [lit "Y"; lit "X"] 1))
              entries_x_y [(lit "x", file_x)] []
              [] [lit "x"] (lit "y") file_y) as [(m & Hin & Ht) Hfile].
  - apply elem_of_cons. left. reflexivity.
  - vm_compute. reflexivity.
  - vm_compute. reflexivity.
  - intros a' Ha'. apply elem_of_nil in Ha'. contradiction.
  - reflexivity.
  - apply (bool_decide_unpack _). vm_compute. reflexivity.
  - exists m. split; [exact Hin |]. split; [exact Ht |]. apply Hfile; assumption.
Defined.

(** C1 as stated fails: the scan order of [fs_two_artists] has the file of
    X before the file of Y, and both artists are on the track; the track
    that lists Y first is matched to the file of Y, not to the first
    candidate of any of its artists, and the track that lists X first is
    matched to the file of X. *)
Lemma match_depends_on_artist_order :
  collect_audio_files fragment simple_fs [in_dir] fs_two_artists = inr [file_x; file_y]
  /\ (build_index fragment [file_x; file_y]).1 !! lit "song a" = Some entries_x_y
  /\ first_candidate_of_any_artist [lit "y"; lit "x"] entries_x_y = Some file_x
  /\ (exists m, verify_playlist fragment simple_fs playlist_y_x [in_dir] fs_two_artists
                  = inr [m] /\ local_file m = file_y)
  /\ (exists m, verify_playlist fragment simple_fs playlist_x_y [in_dir] fs_two_artists
                  = inr [m] /\ local_file m = file_x)
  /\ file_x <> file_y.
Proof.
  repeat split; try (vm_compute; reflexivity).
  - eexists. split; vm_compute; reflexivity.
  - eexists. split; vm_compute; reflexivity.
  - discriminate.
Qed.

Section Distinct.

Context (U : UnicodeData) {FS : Type} (os : FileSystem FS).

(** The file of a match is the first local entry of the artist under
    which the track was matched. *)
Lemma find_match_chosen artists_ entries f :
  find_match artists_ entries = Some f ->
  exists a, a ∈ artists_ /\ find_local a entries = Some f.
Proof.
  induction artists_ as [| a r IH]; simpl; [discriminate |].
  destruct (find_local a entries) as [g |] eqn:Hloc.
  - intros [= ->]. exists a. split; [apply elem_of_cons; auto | exact Hloc].
  - intros H. destruct (IH H) as (b & Hb & Hin).
    exists b. split; [apply elem_of_cons; auto | exact Hin].
Qed.

Lemma match_for_chosen am idx t m :
  match_for U am idx t = Some m ->
  track m = t
  /\ exists a, a ∈ normalized_artists U t
       /\ find_local a (entries_for U idx t) = Some (local_file m).
Proof.
  unfold match_for.
  destruct (find_match _ _) as [f |] eqn:Hf; [| discriminate].
  intros [= <-]. simpl. split; [reflexivity |].
  apply find_match_chosen, Hf.
Qed.

(** C3, amended: in the list that [verify_playlist] returns, every playlist
    track appears in at most one match.  Two matches hold the same local
    file exactly when their tracks have the same normalized name and were
    matched under the same normalized artist, the one their files parse to.
    So every local file appears in at most one match when no two playlist
    tracks of the same normalized name have a normalized artist in
    common. *)
Theorem verify_playlist_matches_distinct raw dur folders fs ms :
  verify_playlist U os (Playlist_init raw dur) folders fs = inr ms ->
  NoDup ((fun m => position (track m)) <$> ms)
  /\ (forall m1 m2, m1 ∈ ms -> m2 ∈ ms ->
        local_file m1 = local_file m2 <->
        normalized_name U (track m1) = normalized_name U (track m2)
        /\ exists a,
             a ∈ normalized_artists U (track m1)
             /\ a ∈ normalized_artists U (track m2)
             /\ extract_artist_and_track U (local_file m1)
                = inr (a, normalized_name U (track m1))
             /\ extract_artist_and_track U (local_file m2)
                = inr (a, normalized_name U (track m2)))
  /\ ((forall t1 t2,
         t1 ∈ tracks (Playlist_init raw dur) -> t2 ∈ tracks (Playlist_init raw dur) ->
         position t1 <> position t2 ->
         normalized_name U t1 = normalized_name U t2 ->
         forall a, a ∈ normalized_artists U t1 -> a ∉ normalized_artists U t2) ->
      NoDup (local_file <$> ms)).
Proof.
  intros Hret.
  destruct (verify_playlist_returns U os _ _ _ _ Hret)
    as (files & idx & _ & Hidx & Hmiss & Hmis & Hms).
  pose proof (all_matched U (_album_artist_map (Playlist_init raw dur)) idx _ Hmiss Hmis)
    as Hall.
  rewrite <- Hms in Hall. change (List.map track ms) with (track <$> ms) in Hall.
  assert (Hpos : NoDup ((fun m => position (track m)) <$> ms)).
  { change (fun m => position (track m)) with (position ∘ track).
    rewrite list_fmap_compose, Hall, positions_of_init. apply NoDup_seq. }
  assert (Hkey : forall m, m ∈ ms ->
    exists a, a ∈ normalized_artists U (track m)
      /\ find_local a (entries_for U idx (track m)) = Some (local_file m)
      /\ extract_artist_and_track U (local_file m)
         = inr (a, normalized_name U (track m))).
  { intros m Hm. rewrite Hms in Hm.
    apply list_elem_of_omap in Hm as (t & _ & Hm).
    destruct (match_for_chosen _ _ _ _ Hm) as (-> & a & Ha & Hloc).
    exists a. repeat split; [exact Ha | exact Hloc |].
    apply (build_index_sound U files). rewrite Hidx.
    apply find_local_sound, Hloc. }
  assert (Hsame : forall m1 m2, m1 ∈ ms -> m2 ∈ ms ->
    local_file m1 = local_file m2 <->
    normalized_name U (track m1) = normalized_name U (track m2)
    /\ exists a,
         a ∈ normalized_artists U (track m1)
         /\ a ∈ normalized_artists U (track m2)
         /\ extract_artist_and_track U (local_file m1)
            = inr (a, normalized_name U (track m1))
         /\ extract_artist_and_track U (local_file m2)
            = inr (a, normalized_name U (track m2))).
  { intros m1 m2 H1 H2.
    destruct (Hkey m1 H1) as (a1 & Ha1 & L1 & E1), (Hkey m2 H2) as (a2 & Ha2 & L2 & E2).
    split.
    - intros Hfile. rewrite Hfile, E2 in E1. injection E1 as <- Hname.
      split; [symmetry; exact Hname |]. exists a2.
      repeat split; try assumption. rewrite Hfile, <- Hname. exact E2.
    - intros (Hname & a & _ & _ & E1' & E2').
      rewrite E1 in E1'. injection E1' as ->.
      rewrite E2 in E2'. injection E2' as ->.
      unfold entries_for in L1, L2. rewrite Hname, L2 in L1. congruence. }
  split; [exact Hpos |]. split; [exact Hsame |].
  intros Hprov. apply NoDup_fmap_2_strong; [| eapply NoDup_fmap_1, Hpos].
  intros m1 m2 H1 H2 Hfile.
  apply (NoDup_fmap_elem_inj _ ms m1 m2 Hpos H1 H2).
  destruct (decide (position (track m1) = position (track m2))) as [E | Hne];
    [exact E | exfalso].
  apply (Hsame m1 m2 H1 H2) in Hfile as (Hname & a & Ha1 & Ha2 & _).
  assert (Ht : forall m, m ∈ ms -> track m ∈ tracks (Playlist_init raw dur))
    by (intros m Hm; rewrite <- Hall; apply list_elem_of_fmap_2, Hm).
  exact (Hprov _ _ (Ht m1 H1) (Ht m2 H2) Hne Hname a Ha1 Ha2).
Qed.

End Distinct.

Lemma verify_playlist_matches_distinct_witness :
  NoDup ((fun m => position (track m)) <$> matches_intro)
  /\ NoDup (local_file <$> matches_intro).
Proof.
  destruct (verify_playlist_matches_distinct fragment simple_fs raw_intro 100
              [in_dir] fs_intro matches_intro) as (Hpos & _ & Hfiles).
  - vm_compute; reflexivity.
  - split; [exact Hpos |]. apply Hfiles.
    intros t1 t2 H1 H2 Hne _ a Ha1 Ha2.
    simpl in H1, H2.
    apply elem_of_cons in H1 as [-> | ->%list_elem_of_singleton];
      apply elem_of_cons in H2 as [-> | ->%list_elem_of_singleton];
      try (apply Hne; reflexivity).
    + assert (E1 : normalized_artists fragment (Track_init 0 (raw_track "Intro" [lit "A"] 1))
                   = [lit "a"]) by (vm_compute; reflexivity).
      assert (E2 : normalized_artists fragment (Track_init 1 (raw_track "Intro" [lit "B"] 2))
                   = [lit "b"]) by (vm_compute; reflexivity).
      rewrite E1 in Ha1. rewrite E2 in Ha2.
      apply list_elem_of_singleton in Ha1, Ha2. subst a. discriminate.
    + assert (E1 : normalized_artists fragment (Track_init 0 (raw_track "Intro" [lit "A"] 1))
                   = [lit "a"]) by (vm_compute; reflexivity).
      assert (E2 : normalized_artists fragment (Track_init 1 (raw_track "Intro" [lit "B"] 2))
                   = [lit "b"]) by (vm_compute; reflexivity).
      rewrite E2 in Ha1. rewrite E1 in Ha2.
      apply list_elem_of_singleton in Ha1, Ha2. subst a. discriminate.
Defined.

(** C3 as stated fails: a playlist that has one title twice is verified
    against the one local file of that title, and both matches hold this
    file. *)
Lemma same_file_matched_twice :
  exists m1 m2,
    verify_playlist fragment simple_fs playlist_twice [in_dir] fs_one_file = inr [m1; m2]
    /\ position (track m1) = 0%nat /\ position (track m2) = 1%nat
    /\ local_file m1 = local_file m2
    /\ ~ NoDup (local_file <$> [m1; m2]).
Proof.
  eexists _, _. split; [vm_compute; reflexivity |].
  repeat split.
  intros [Hnot _]%NoDup_cons. apply Hnot. simpl. apply elem_of_cons. auto.
Qed.

(** ** The plan executor *)

Section Executor.

Context (U : UnicodeData) {FS : Type} (os : FileSystem FS).

Implicit Types (m : PlaylistMatch) (fs : FS) (base : Path).

(** What [move_or_copy] does once one of [copy], [move] is set and the
    source exists, by the answer of the destination check. *)
Lemma move_or_copy_checked m base copy move dry_run fs :
  copy || move = true ->
  fs_exists os (local_file m) fs = inr true ->
  let dst := _generate_destination_path U m base in
  let pos := (position (track m) + 1)%nat in
  (fs_exists os dst fs = inr true -> dry_run = false ->
     move_or_copy U os m base copy move dry_run fs =
       (inr tt, fs,
        [EvExists (local_file m); EvExists dst;
         EvLog (LogSkipExisting dst pos (local_file m))]))
  /\ (forall answer, fs_exists os dst fs = inr answer -> dry_run = true ->
     move_or_copy U os m base copy move dry_run fs =
       (inr tt, fs,
        [EvExists (local_file m); EvExists dst;
         EvLog (LogWould move pos (local_file m) dst)]))
  /\ (forall e, fs_exists os dst fs = inl e ->
     move_or_copy U os m base copy move dry_run fs =
       (inl (OSError e), fs, [EvExists (local_file m); EvExists dst])).
Proof.
  intros Hmode Hsrc dst pos.
  assert (Hgate : negb copy && negb move = false)
    by (destruct copy, move; simpl in *; congruence).
  split; [| split].
  - intros Hdst ->. unfold move_or_copy. rewrite Hgate.
    unfold mbind, IO_mbind, IO_bind, exists_. rewrite Hsrc. simpl.
    fold dst. rewrite Hdst. reflexivity.
  - intros answer Hdst ->. unfold move_or_copy. rewrite Hgate.
    unfold mbind, IO_mbind, IO_bind, exists_. rewrite Hsrc. simpl.
    fold dst. rewrite Hdst, andb_false_r. reflexivity.
  - intros e Hdst. unfold move_or_copy. rewrite Hgate.
    unfold mbind, IO_mbind, IO_bind, exists_. rewrite Hsrc. simpl.
    fold dst. rewrite Hdst. reflexivity.
Qed.

(** C10: with neither [copy] nor [move], [move_or_copy] returns at once: no
    exception, the file system as it was, and nothing done, not even the
    check of the source, whatever [dry_run] is and whether or not the source
    exists. *)
Theorem move_or_copy_noop m base dry_run fs :
  move_or_copy U os m base false false dry_run fs = (inr tt, fs, []).
Proof. reflexivity. Qed.

(** C7: in a real run ([dry_run] off) in copy or move mode, a match whose
    source exists and whose destination exists already returns without
    error, leaves the file system as it was and performs no file operation;
    so a plan whose destinations all exist runs to its end with the file
    system unchanged and no file operation. *)
Theorem move_or_copy_existing_destination copy move base :
  copy || move = true ->
  (forall m fs,
     fs_exists os (local_file m) fs = inr true ->
     fs_exists os (_generate_destination_path U m base) fs = inr true ->
     exists t,
       move_or_copy U os m base copy move false fs = (inr tt, fs, t)
       /\ List.filter is_file_operation t = [])
  /\ (forall matches fs,
     Forall (fun m =>
       fs_exists os (local_file m) fs = inr true
       /\ fs_exists os (_generate_destination_path U m base) fs = inr true) matches ->
     exists t,
       execute_plan U os matches base copy move false fs = (inr tt, fs, t)
       /\ List.filter is_file_operation t = []
       /\ length (List.filter (fun e => match e with EvLog (LogSkipExisting _ _ _) => true
                                          | _ => false end) t) = length matches).
Proof.
  intros Hmode.
  assert (Hone : forall m fs,
     fs_exists os (local_file m) fs = inr true ->
     fs_exists os (_generate_destination_path U m base) fs = inr true ->
     move_or_copy U os m base copy move false fs =
       (inr tt, fs,
        [EvExists (local_file m); EvExists (_generate_destination_path U m base);
         EvLog (LogSkipExisting (_generate_destination_path U m base)
                  (position (track m) + 1) (local_file m))])).
  { intros m fs Hsrc Hdst.
    destruct (move_or_copy_checked m base copy move false fs Hmode Hsrc) as [H _].
    apply H; [exact Hdst | reflexivity]. }
  split.
  - intros m fs Hsrc Hdst. eexists. split; [apply Hone; assumption | reflexivity].
  - intros matches fs Hall. induction Hall as [| m r [Hsrc Hdst] _ IH].
    + exists []. repeat split; reflexivity.
    + destruct IH as (t & Hrun & Hops & Hskips).
      eexists. split; [| split].
      * simpl. unfold mbind, IO_mbind, IO_bind.
        rewrite (Hone m fs Hsrc Hdst), Hrun. reflexivity.
      * simpl. exact Hops.
      * simpl. rewrite Hskips. reflexivity.
Qed.

(** C8, amended: in a dry run in copy or move mode, [move_or_copy] checks
    the source: an [OSError] of the check is raised as it is, and a missing
    source raises the operation error.  Otherwise it checks the
    destination: an [OSError] of this check (a name that is too long, say)
    is raised as it is; with any answer of the check it logs the operation
    (move or copy), the source and the resolved destination, whether or not
    the destination exists: a dry run reports no skip.  In every case the
    file system is left as it was. *)
Theorem move_or_copy_dry_run m base copy move fs :
  copy || move = true ->
  let src := local_file m in
  let dst := _generate_destination_path U m base in
  move_or_copy U os m base copy move true fs =
    match fs_exists os src fs with
    | inl e => (inl (OSError e), fs, [EvExists src])
    | inr false =>
        (inl (FileOperationError "validate source" src
                (DetailsText "Source file does not exist")),
         fs, [EvExists src])
    | inr true =>
        match fs_exists os dst fs with
        | inl e => (inl (OSError e), fs, [EvExists src; EvExists dst])
        | inr _ =>
            (inr tt, fs,
             [EvExists src; EvExists dst;
              EvLog (LogWould move (position (track m) + 1) src dst)])
        end
    end.
Proof.
  intros Hmode src dst.
  assert (Hgate : negb copy && negb move = false)
    by (destruct copy, move; simpl in *; congruence).
  destruct (fs_exists os src fs) as [e | [|]] eqn:Hsrc.
  - unfold move_or_copy. rewrite Hgate.
    unfold mbind, IO_mbind, IO_bind, exists_. fold src. rewrite Hsrc. reflexivity.
  - destruct (move_or_copy_checked m base copy move true fs Hmode Hsrc)
      as (_ & Hlog & Hraise).
    fold dst in Hlog, Hraise.
    destruct (fs_exists os dst fs) as [e | answer] eqn:Hdst.
    + apply Hraise. reflexivity.
    + eapply Hlog; reflexivity.
  - unfold move_or_copy. rewrite Hgate.
    unfold mbind, IO_mbind, IO_bind, exists_. fold src. rewrite Hsrc. reflexivity.
Qed.

End Executor.

Lemma move_or_copy_existing_destination_witness :
  exists t,
    execute_plan fragment simple_fs matches_two out_dir true false false fs_copied
      = (inr tt, fs_copied, t)
    /\ List.filter is_file_operation t = []
    /\ length (List.filter (fun e => match e with EvLog (LogSkipExisting _ _ _) => true
                                       | _ => false end) t) = length matches_two.
Proof.
  destruct (move_or_copy_existing_destination fragment simple_fs true false out_dir)
    as [_ Hplan]; [reflexivity |].
  apply Hplan. repeat constructor.
Defined.

Lemma move_or_copy_dry_run_witness :
  (exists m dst,
     matches_two !! 0%nat = Some m
     /\ move_or_copy fragment simple_fs m out_dir false true true fs_two_files =
          (inr tt, fs_two_files,
           [EvExists (local_file m); EvExists dst;
            EvLog (LogWould true 1 (local_file m) dst)])
     /\ dst = Path_of (lit "/out/X/Alb1/01 - X - Song A.mp3"))
  /\ move_or_copy fragment long_name_fs match_long_title out_dir false true true
       fs_two_files
     = (inl (OSError (OtherOSError "File name too long")), fs_two_files,
        [EvExists (local_file match_long_title);
         EvExists (_generate_destination_path fragment match_long_title out_dir)]).
Proof.
  split.
  - eexists _, _. split; [reflexivity |]. split.
    + rewrite (move_or_copy_dry_run fragment simple_fs _ out_dir false true fs_two_files)
        by reflexivity.
      reflexivity.
    + vm_compute. reflexivity.
  - rewrite (move_or_copy_dry_run fragment long_name_fs match_long_title out_dir
               false true fs_two_files) by reflexivity.
    vm_compute. reflexivity.
Defined.

(** C8 as stated fails: with the destination in place, a real run skips
    the match, and the dry run reports a copy. *)
Lemma dry_run_reports_no_skip :
  exists m dst,
    matches_two !! 0%nat = Some m
    /\ dst = _generate_destination_path fragment m out_dir
    /\ fs_exists simple_fs dst fs_copied = inr true
    /\ move_or_copy fragment simple_fs m out_dir true false false fs_copied =
         (inr tt, fs_copied,
          [EvExists (local_file m); EvExists dst;
           EvLog (LogSkipExisting dst 1 (local_file m))])
    /\ move_or_copy fragment simple_fs m out_dir true false true fs_copied =
         (inr tt, fs_copied,
          [EvExists (local_file m); EvExists dst;
           EvLog (LogWould false 1 (local_file m) dst)]).
Proof.
  eexists _, _. split; [reflexivity |].
  repeat split; vm_compute; reflexivity.
Qed.

(** * Further properties *)

(** ** More on the name normalizer *)

Section NormalizerMore.

Context (U : UnicodeData).

Implicit Types (s t x y : str) (c : N) (p : N -> bool).

(** *** Character by character *)

Lemma before_collapse_app x y :
  before_collapse U (x ++ y) = before_collapse U x ++ before_collapse U y.
Proof.
  unfold before_collapse, replace_char, encode_ascii_ignore, nfkd, str_lower.
  rewrite !flat_map_app, List.filter_app, !List.map_app, List.filter_app, List.map_app.
  reflexivity.
Qed.

Lemma before_collapse_cons c x :
  before_collapse U (c :: x) = before_collapse U [c] ++ before_collapse U x.
Proof. apply (before_collapse_app [c] x). Qed.

(** Two names that are alike character by character, up to what
    [normalize_name] does to one character before it looks at the white
    space, have one normalized name. *)
Lemma normalize_name_pointwise (f : N -> N) x :
  (forall c, before_collapse U [f c] = before_collapse U [c]) ->
  normalize_name U (List.map f x) = normalize_name U x.
Proof.
  intros Hf. rewrite !normalize_name_steps. do 2 f_equal.
  induction x as [| c r IH]; [reflexivity |].
  simpl List.map. rewrite (before_collapse_cons (f c)), (before_collapse_cons c), Hf, IH.
  reflexivity.
Qed.

Lemma before_collapse_lower c :
  before_collapse U [ascii_lower c] = before_collapse U [c].
Proof.
  destruct (is_ascii c) eqn:Ha.
  - pose proof (ascii_forall (fun c =>
      bool_decide (before_collapse U [ascii_lower c] = before_collapse U [c]))
      eq_refl c Ha) as H.
    apply bool_decide_eq_true in H. exact H.
  - unfold ascii_lower, ascii_upper, cp_in, is_ascii in *.
    apply N.ltb_ge in Ha.
    destruct (N.leb_spec c 90); [lia |]. rewrite andb_false_r. reflexivity.
Qed.

(** X4: ASCII case does not matter to [normalize_name]: two names with the
    same ASCII-lowercased characters have the same normalized name. *)
Theorem normalize_name_case_insensitive x y :
  List.map ascii_lower x = List.map ascii_lower y ->
  normalize_name U x = normalize_name U y.
Proof.
  intros H.
  rewrite <- (normalize_name_pointwise ascii_lower x before_collapse_lower).
  rewrite <- (normalize_name_pointwise ascii_lower y before_collapse_lower).
  rewrite H. reflexivity.
Qed.

(** X5: Double quotes, single quotes, underscores and spaces are one to
    [normalize_name]: writing an underscore for each quote of one kind, or a
    space for each underscore, does not change the normalized name. *)
Theorem normalize_name_quotes_as_underscores x :
  normalize_name U (replace_char 34 95 x) = normalize_name U x
  /\ normalize_name U (replace_char 39 95 x) = normalize_name U x
  /\ normalize_name U (replace_char 95 32 x) = normalize_name U x.
Proof.
  unfold replace_char. repeat split; apply normalize_name_pointwise; intros c.
  - destruct (N.eqb_spec c 34) as [-> |]; reflexivity.
  - destruct (N.eqb_spec c 39) as [-> |]; reflexivity.
  - destruct (N.eqb_spec c 95) as [-> |]; reflexivity.
Qed.

(** *** The shape of a normalized name *)

Lemma lstrip_by_head p s c r : lstrip_by p s = c :: r -> p c = false.
Proof.
  induction s as [| d s IH]; simpl; [discriminate |].
  destruct (p d) eqn:Hd; [exact IH |]. intros [= <- <-]. exact Hd.
Qed.

Lemma rstrip_by_last p s u c : rstrip_by p s = s -> s = u ++ [c] -> p c = false.
Proof.
  revert s. induction u as [| d u IH]; intros s Hfix ->.
  - simpl in Hfix. destruct (p c); [discriminate | reflexivity].
  - apply (IH (u ++ [c])); [| reflexivity].
    apply (rstrip_by_fixed_tail p d), Hfix.
Qed.

Lemma spaced_no_run p b u c1 c2 v :
  spaced p b (u ++ c1 :: c2 :: v) = true -> p c1 = true -> p c2 = false.
Proof.
  revert b. induction u as [| d u IH]; intros b; simpl.
  - intros H H1. rewrite H1 in H. destruct (p c2); [| reflexivity].
    rewrite !andb_true_iff in H. destruct H as [_ [[_ H] _]]. discriminate.
  - destruct (p d); [intros [_ H]%andb_true_iff | intros H]; eapply IH, H.
Qed.

(** X1: A normalized name consists of ASCII letters, digits, hyphens,
    parentheses and spaces; it neither begins nor ends with a space, and
    it has no two spaces in a row. *)
Theorem normalize_name_shape x :
  let y := normalize_name U x in
  Forall (fun c => out_char c = true) y
  /\ head y <> Some 32
  /\ last y <> Some 32
  /\ forall u v, y <> u ++ 32 :: 32 :: v.
Proof.
  intros y. destruct (normalize_name_normal_form U x) as [Hchars Hspaced Hstripped].
  fold y in Hchars, Hspaced, Hstripped.
  assert (Hr : rstrip_by (is_space U) y = y).
  { unfold y. rewrite normalize_name_steps. unfold strip, strip_by.
    apply rstrip_lstrip_fixed, rstrip_by_idem. }
  repeat split; [exact Hchars | | |].
  - unfold strip, strip_by in Hstripped. destruct y as [| c r] eqn:Hy; [discriminate |].
    intros [= ->]. apply lstrip_by_head in Hstripped. discriminate.
  - intros Hlast. apply last_Some in Hlast as [u Hu].
    pose proof (rstrip_by_last _ _ _ _ Hr Hu). discriminate.
  - intros u v Hy. rewrite Hy in Hspaced.
    pose proof (spaced_no_run _ _ _ _ _ _ Hspaced eq_refl). discriminate.
Qed.

(** *** ASCII names *)

Lemma before_collapse_no_upper x :
  Forall (fun c => is_ascii c = true) x ->
  Forall (fun c => ascii_upper c = false) (before_collapse U x).
Proof.
  induction 1 as [| c r Hc Hr IH]; [constructor |].
  rewrite before_collapse_cons. apply Forall_app. split; [| exact IH].
  pose proof (ascii_forall (fun c =>
    forallb (fun d => negb (ascii_upper d)) (before_collapse U [c])) eq_refl c Hc) as H.
  rewrite forallb_forall in H. apply List.Forall_forall. intros d Hd.
  apply negb_true_iff, H, Hd.
Qed.

Lemma Forall_collapse_from (P : N -> Prop) b s :
  P 32 -> Forall P s -> Forall P (collapse_from U b s).
Proof.
  intros H32 H. revert b. induction H as [| c r Hc Hr IH]; intros b; simpl; [constructor |].
  destruct (is_space U c); [destruct b |]; try constructor; auto.
Qed.

Lemma map_ascii_lower_id s :
  Forall (fun c => ascii_upper c = false) s -> List.map ascii_lower s = s.
Proof.
  induction 1 as [| c r Hc Hr IH]; [reflexivity |].
  simpl. unfold ascii_lower at 1. rewrite Hc, IH. reflexivity.
Qed.

(** X2: [normalize_name] is idempotent on ASCII names. *)
Theorem normalize_name_idempotent_ascii x :
  Forall (fun c => is_ascii c = true) x ->
  normalize_name U (normalize_name U x) = normalize_name U x.
Proof.
  intros Hx. rewrite normalize_name_twice. apply map_ascii_lower_id.
  rewrite normalize_name_steps. unfold strip, strip_by, collapse_whitespace.
  apply Forall_lstrip_by, Forall_rstrip_by, Forall_collapse_from; [reflexivity |].
  apply before_collapse_no_upper, Hx.
Qed.

End NormalizerMore.

Lemma normalize_name_case_insensitive_witness :
  normalize_name fragment (lit "CAFE del Mar") = normalize_name fragment (lit "Cafe Del MAR").
Proof.
  apply (normalize_name_case_insensitive fragment). vm_compute. reflexivity.
Defined.

Lemma normalize_name_idempotent_ascii_witness :
  normalize_name fragment (normalize_name fragment (lit "Tum Tum (From 'Enemy - Tamil')"))
  = normalize_name fragment (lit "Tum Tum (From 'Enemy - Tamil')").
Proof.
  apply (normalize_name_idempotent_ascii fragment).
  apply (bool_decide_unpack _). vm_compute. reflexivity.
Defined.

Lemma normalize_name_idempotent_lower_witness :
  normalize_name fragment (normalize_name fragment [67; 97; 102; 233])
  = normalize_name fragment [67; 97; 102; 233].
Proof.
  apply (normalize_name_idempotent_lower fragment).
  apply (bool_decide_unpack _). vm_compute. reflexivity.
Defined.

(** ** More on the filename parser *)

Section ParserMore.

Context (U : UnicodeData).

Implicit Types (s t u v sep : str) (c : N) (p : N -> bool).

Lemma is_prefix_shorter sep s t :
  is_prefix sep s = true -> is_prefix sep (s ++ t) = true.
Proof.
  intros [v ->]%is_prefix_spec. apply is_prefix_spec. exists (v ++ t).
  rewrite app_assoc. reflexivity.
Qed.

(** [split_once] splits at the first occurrence of the separator. *)
Lemma split_once_spec sep s a b :
  sep <> [] -> split_once sep s = Some (a, b) ->
  s = a ++ sep ++ b /\ contains sep a = false.
Proof.
  intros Hsep. revert a b. induction s as [| c r IH]; intros a b; [discriminate |].
  cbn [split_once]. destruct (is_prefix sep (c :: r)) eqn:Hp.
  - intros [= <- <-]. split.
    + apply is_prefix_spec in Hp as [v Hv]. rewrite Hv at 2.
      rewrite drop_app_length. exact Hv.
    + destruct sep; [contradiction | reflexivity].
  - destruct (split_once sep r) as [[a' b'] |] eqn:Hr; [| discriminate].
    intros [= <- <-]. destruct (IH a' b' eq_refl) as [-> Hc]. split; [reflexivity |].
    simpl. rewrite Hc, orb_false_r.
    destruct (is_prefix sep (c :: a')) eqn:Hp'; [| reflexivity].
    apply (is_prefix_shorter _ _ (sep ++ b')) in Hp'. simpl in Hp'. congruence.
Qed.

Lemma split_once_none sep s :
  sep <> [] -> (split_once sep s = None <-> contains sep s = false).
Proof.
  intros Hsep. induction s as [| c r IH].
  - destruct sep; [contradiction |]. simpl. split; reflexivity.
  - cbn [split_once contains]. destruct (is_prefix sep (c :: r)) eqn:Hp; simpl.
    + split; discriminate.
    + rewrite <- IH. destruct (split_once sep r) as [[a b] |]; split; congruence.
Qed.

(** X6: Parsing fails for the format exactly when the name, taken without its
    numeric prefix and its extension, has no [" - "]. *)
Theorem extract_artist_and_track_no_separator filepath :
  extract_artist_and_track U filepath = inl "Expected format: 'Artist - Track'"%string
  <-> contains (lit " - ") (split_name U filepath) = false.
Proof.
  unfold extract_artist_and_track, split_name.
  rewrite <- (split_once_none (lit " - ")) by discriminate.
  destruct (split_once _ _) as [[a b] |]; [| split; reflexivity].
  split; [| discriminate].
  destruct (_ || _); discriminate.
Qed.

(** No occurrence of the separator starts before the one at which
    [split_once] splits. *)
Lemma split_once_first sep s a b :
  split_once sep s = Some (a, b) ->
  forall u v, s = u ++ sep ++ v -> (length a <= length u)%nat.
Proof.
  revert a b. induction s as [| c r IH]; intros a b; [discriminate |].
  cbn [split_once]. destruct (is_prefix sep (c :: r)) eqn:Hp.
  - intros [= <- <-] u v _. simpl. lia.
  - destruct (split_once sep r) as [[a' b'] |] eqn:Hr; [| discriminate].
    intros [= <- <-] [| d u] v Hs.
    + assert (Hp' : is_prefix sep (c :: r) = true)
        by (apply is_prefix_spec; exists v; exact Hs).
      congruence.
    + injection Hs as _ Hs. simpl. apply le_n_S. exact (IH a' b' eq_refl u v Hs).
Qed.

(** X7: When parsing succeeds, the name is [part0 ++ " - " ++ part1], split
    at the first [" - "]: no other way to write the name around a [" - "]
    has a shorter first part.  The result is the two normalized parts,
    neither of them empty. *)
Theorem extract_artist_and_track_success filepath artist trk :
  extract_artist_and_track U filepath = inr (artist, trk) ->
  exists part0 part1,
    split_name U filepath = part0 ++ lit " - " ++ part1
    /\ (forall u v, split_name U filepath = u ++ lit " - " ++ v ->
          (length part0 <= length u)%nat)
    /\ artist = normalize_name U part0 /\ trk = normalize_name U part1
    /\ artist <> [] /\ trk <> [].
Proof.
  unfold extract_artist_and_track, split_name.
  destruct (split_once _ _) as [[a b] |] eqn:Hs; [| discriminate].
  assert (Hsep : lit " - " <> []) by discriminate.
  destruct (split_once_spec _ _ _ _ Hsep Hs) as [Hname _].
  pose proof (split_once_first _ _ _ _ Hs) as Hfirst.
  case_bool_decide as Ha; [discriminate |].
  case_bool_decide as Hb; [discriminate |].
  intros [= <- <-]. exists a, b. auto 10.
Qed.

(** *** The numeric prefix *)

Lemma lstrip_by_run p u r :
  Forall (fun c => p c = true) u -> lstrip_by p r = r -> lstrip_by p (u ++ r) = r.
Proof. induction 1 as [| c u Hc _ IH]; simpl; [auto |]. rewrite Hc. exact IH. Qed.

Lemma lstrip_by_stop p c r : p c = false -> lstrip_by p (c :: r) = c :: r.
Proof. intros H. simpl. rewrite H. reflexivity. Qed.

Lemma space_not_decimal c : is_space U c = true -> is_decimal U c = false.
Proof.
  unfold is_space, is_decimal. destruct (is_ascii c) eqn:Ha.
  - intros Hs.
    pose proof (ascii_forall (fun c => implb (ascii_space c) (negb (ascii_digit c)))
                  eq_refl c Ha) as H.
    cbv beta in H. rewrite Hs in H. apply negb_true_iff in H. exact H.
  - destruct (class_ext U c); congruence.
Qed.

(** A numeric prefix is removed whole: digits, white space, a dot or a
    hyphen, white space. *)
Lemma strip_numeric_prefix_numbered digits ws1 q ws2 rest :
  digits <> [] ->
  Forall (fun c => is_decimal U c = true) digits ->
  Forall (fun c => is_space U c = true) ws1 ->
  q = 46 \/ q = 45 ->
  Forall (fun c => is_space U c = true) ws2 ->
  lstrip_by (is_space U) rest = rest ->
  strip_numeric_prefix U (digits ++ ws1 ++ q :: ws2 ++ rest) = rest.
Proof.
  intros Hne Hd Hw1 Hp Hw2 Hrest.
  assert (Hpd : is_decimal U q = false) by (destruct Hp as [-> | ->]; reflexivity).
  assert (Hps : is_space U q = false) by (destruct Hp as [-> | ->]; reflexivity).
  assert (H1 : lstrip_by (is_decimal U) (digits ++ ws1 ++ q :: ws2 ++ rest)
               = ws1 ++ q :: ws2 ++ rest).
  { apply lstrip_by_run; [exact Hd |].
    destruct Hw1 as [| c ws1 Hc _]; simpl; [rewrite Hpd; reflexivity |].
    rewrite (space_not_decimal c Hc). reflexivity. }
  assert (H2 : lstrip_by (is_space U) (ws1 ++ q :: ws2 ++ rest) = q :: ws2 ++ rest).
  { apply lstrip_by_run; [exact Hw1 | apply lstrip_by_stop, Hps]. }
  unfold strip_numeric_prefix, numeric_prefix_match.
  destruct Hd as [| d digits Hd Hds]; [contradiction |].
  change ((d :: digits) ++ ws1 ++ q :: ws2 ++ rest)
    with (d :: (digits ++ ws1 ++ q :: ws2 ++ rest)) in *.
  cbv beta match. rewrite Hd, H1, H2. cbv beta match.
  replace ((q =? 46) || (q =? 45)) with true by (destruct Hp as [-> | ->]; reflexivity).
  simpl. apply lstrip_by_run; assumption.
Qed.

(** X8: A file numbered as in ["001. Artist - Track.ext"] or
    ["01 - Artist - Track.ext"] parses as the file without the number. *)
Theorem extract_artist_and_track_numbered dir digits ws1 q ws2 rest :
  digits <> [] ->
  Forall (fun c => is_decimal U c = true) digits ->
  Forall (fun c => is_space U c = true) ws1 ->
  q = 46 \/ q = 45 ->
  Forall (fun c => is_space U c = true) ws2 ->
  lstrip_by (is_space U) rest = rest ->
  numeric_prefix_match U rest = None ->
  47 ∉ rest ->
  extract_artist_and_track U (dir ++ [digits ++ ws1 ++ q :: ws2 ++ rest])
  = extract_artist_and_track U (dir ++ [rest]).
Proof.
  intros Hne Hd Hw1 Hp Hw2 Hrest Hnone Hsep.
  assert (Hname : forall s, s <> [47] -> path_name (dir ++ [s]) = s).
  { intros s Hs. unfold path_name. rewrite rev_unit.
    pose proof (path_name_single s Hs) as H1. unfold path_name in H1. simpl in H1.
    exact H1. }
  unfold extract_artist_and_track. rewrite !Hname.
  - rewrite (strip_numeric_prefix_numbered _ _ _ _ _ Hne Hd Hw1 Hp Hw2 Hrest).
    unfold strip_numeric_prefix. rewrite Hnone. reflexivity.
  - intros ->. apply Hsep, elem_of_cons. auto.
  - destruct Hd as [| d digits Hd _]; [contradiction |].
    intros [= -> _]. discriminate.
Qed.

End ParserMore.

Lemma extract_artist_and_track_success_witness :
  exists part0 part1,
    split_name fragment (Path_of (lit "/in/a - - b.mp3"))
      = part0 ++ lit " - " ++ part1
    /\ (forall u v,
          split_name fragment (Path_of (lit "/in/a - - b.mp3")) = u ++ lit " - " ++ v ->
          (length part0 <= length u)%nat)
    /\ lit "a" = normalize_name fragment part0
    /\ lit "- b" = normalize_name fragment part1
    /\ lit "a" <> [] /\ lit "- b" <> [].
Proof.
  apply (extract_artist_and_track_success fragment). vm_compute. reflexivity.
Defined.

Lemma extract_artist_and_track_numbered_witness :
  extract_artist_and_track fragment (Path_of (lit "/in/001. Foo - Bar.flac"))
  = extract_artist_and_track fragment (Path_of (lit "/in/Foo - Bar.flac")).
Proof.
  apply (extract_artist_and_track_numbered fragment (Path_of (lit "/in"))
           (lit "001") [] 46 (lit " ") (lit "Foo - Bar.flac")).
  - discriminate.
  - repeat constructor.
  - constructor.
  - left. reflexivity.
  - repeat constructor.
  - reflexivity.
  - vm_compute. reflexivity.
  - apply (bool_decide_unpack _). vm_compute. reflexivity.
Defined.

(** ** The sanitizer and the destination path *)

Section Sanitizer.

Context (U : UnicodeData).

Implicit Types (s t x y : str) (c : N).

(** [sanitize_filename] before the white space is collapsed. *)
Lemma sanitize_filename_steps x :
  exists s, sanitize_filename U x
            = collapse_whitespace U (strip_by dot_or_space s)
    /\ Forall (fun c => unsafe_char c = false) s.
Proof.
  eexists. split; [reflexivity |].
  unfold remove_char, replace_char. apply List.Forall_forall. intros c Hc.
  apply filter_In in Hc as [Hc H0]. apply filter_In in Hc as [Hc H42].
  apply filter_In in Hc as [Hc H63].
  repeat (apply in_map_iff in Hc as (? & <- & Hc)).
  clear Hc. revert H0 H42 H63. unfold unsafe_char.
  destruct (N.eqb_spec x0 58) as [-> | H58]; [intros; reflexivity | cbv beta iota].
  destruct (N.eqb_spec x0 47) as [-> | H47]; [intros; reflexivity | cbv beta iota].
  destruct (N.eqb_spec x0 92) as [-> | H92]; [intros; reflexivity | cbv beta iota].
  destruct (N.eqb_spec x0 60) as [-> | H60]; [intros; reflexivity | cbv beta iota].
  destruct (N.eqb_spec x0 62) as [-> | H62]; [intros; reflexivity | cbv beta iota].
  destruct (N.eqb_spec x0 34) as [-> | H34]; [intros; reflexivity | cbv beta iota].
  destruct (N.eqb_spec x0 124) as [-> | H124]; [intros; reflexivity | cbv beta iota].
  intros H0 H42 H63. apply negb_true_iff in H0, H42, H63.
  apply N.eqb_neq in H58, H47, H92, H60, H62, H34, H124.
  rewrite H58, H47, H92, H60, H62, H34, H124, H0, H42, H63. reflexivity.
Qed.

Lemma sanitize_filename_chars (P : N -> Prop) x :
  P 32 -> (forall c, unsafe_char c = false -> P c) ->
  Forall P (sanitize_filename U x).
Proof.
  intros H32 HP. destruct (sanitize_filename_steps x) as (s & -> & Hs).
  unfold collapse_whitespace, strip_by.
  apply Forall_collapse_from; [exact H32 |].
  apply Forall_lstrip_by, Forall_rstrip_by.
  eapply Forall_impl; [exact Hs | exact HP].
Qed.

(** X9: [sanitize_filename] leaves none of the characters it replaces or
    removes: no colon, slash, backslash, angle bracket, double quote, bar,
    question mark, asterisk or NUL. *)
Theorem sanitize_filename_safe x :
  Forall (fun c => unsafe_char c = false) (sanitize_filename U x).
Proof. apply sanitize_filename_chars; [reflexivity | auto]. Qed.

Lemma collapse_whitespace_head d s c r :
  collapse_whitespace U (d :: s) = c :: r -> c = 32 \/ c = d.
Proof.
  unfold collapse_whitespace. simpl.
  destruct (is_space U d); intros [= <- _]; auto.
Qed.

Lemma collapse_from_last b s c :
  last (collapse_from U b s) = Some c -> c = 32 \/ last s = Some c.
Proof.
  revert b. induction s as [| d s IH]; intros b; simpl; [discriminate |].
  assert (Hl : forall t, last t = Some c -> c = 32 \/ last s = Some c ->
                 c = 32 \/ last (d :: s) = Some c).
  { intros t _ [-> | H]; [auto |]. right. destruct s; [discriminate | exact H]. }
  destruct (is_space U d) eqn:Hd.
  - destruct b.
    + intros H. apply (Hl _ H), (IH _ H).
    + destruct (collapse_from U true s) eqn:Hc.
      * intros [= <-]. auto.
      * intros H. change (last (32 :: n :: l)) with (last (n :: l)) in H.
        rewrite <- Hc in H. apply (Hl _ H), (IH _ H).
  - destruct (collapse_from U false s) eqn:Hc.
    + intros [= <-]. right. destruct s as [| e s]; [reflexivity |].
      simpl in Hc. destruct (is_space U e); discriminate.
    + intros H. change (last (d :: n :: l)) with (last (n :: l)) in H.
      rewrite <- Hc in H. apply (Hl _ H), (IH _ H).
Qed.

Lemma spaced_spaces b s :
  spaced (is_space U) b s = true ->
  Forall (fun c => is_space U c = true -> c = 32) s.
Proof.
  revert b. induction s as [| c r IH]; intros b; simpl; [constructor |].
  destruct (is_space U c) eqn:Hc.
  - intros [[H32 _]%andb_true_iff Hr]%andb_true_iff. apply N.eqb_eq in H32.
    constructor; [auto | eapply IH, Hr].
  - intros Hr. constructor; [congruence | eapply IH, Hr].
Qed.

Lemma sanitize_filename_head x : head (sanitize_filename U x) <> Some 46.
Proof.
  destruct (sanitize_filename_steps x) as (s & Hy & _).
  destruct (sanitize_filename U x) as [| c r]; [done |]. simpl. intros [= ->].
  destruct (strip_by dot_or_space s) as [| d t'] eqn:Et; [discriminate |].
  symmetry in Hy. apply collapse_whitespace_head in Hy as [? | <-]; [discriminate |].
  unfold strip_by in Et. apply lstrip_by_head in Et. discriminate.
Qed.

(** X10: A sanitized name neither begins nor ends with a dot, its only
    white space is the space, and it has no two spaces in a row. *)
Theorem sanitize_filename_shape x :
  let y := sanitize_filename U x in
  head y <> Some 46 /\ last y <> Some 46
  /\ Forall (fun c => is_space U c = true -> c = 32) y
  /\ forall u v, y <> u ++ 32 :: 32 :: v.
Proof.
  intros y. destruct (sanitize_filename_steps x) as (s & Hy & _). fold y in Hy.
  assert (Hy' : y = sanitize_filename U x) by reflexivity.
  clearbody y. set (t := strip_by dot_or_space s) in *.
  assert (Hspaced : spaced (is_space U) false y = true)
    by (rewrite Hy; apply spaced_collapse).
  assert (Hlast : forall c, last t = Some c -> dot_or_space c = false).
  { intros c [u Hu]%last_Some. eapply rstrip_by_last; [| exact Hu].
    unfold t, strip_by. apply rstrip_lstrip_fixed, rstrip_by_idem. }
  repeat split.
  - rewrite Hy'. apply sanitize_filename_head.
  - intros H. rewrite Hy in H. apply collapse_from_last in H as [? | H]; [discriminate |].
    apply Hlast in H. discriminate.
  - eapply spaced_spaces, Hspaced.
  - intros u v E. rewrite E in Hspaced.
    pose proof (spaced_no_run _ _ _ _ _ _ Hspaced eq_refl). discriminate.
Qed.

End Sanitizer.

Section Destination.

Context (U : UnicodeData).

Implicit Types (s t x y d : str) (c : N) (m : PlaylistMatch) (base : Path).

Lemma uint_digits_chars (u : Decimal.uint) :
  Forall (fun c => ascii_digit c = true) (uint_digits u).
Proof. induction u; simpl; constructor; auto. Qed.

Lemma format_02d_length (n : Z) : (2 <= length (format_02d n))%nat.
Proof.
  unfold format_02d. destruct (n <? 0)%Z; simpl;
    rewrite ?length_app, length_replicate; lia.
Qed.

Lemma format_02d_chars (n : Z) :
  Forall (fun c => ascii_digit c = true \/ c = 45) (format_02d n).
Proof.
  assert (Hd : Forall (fun c => ascii_digit c = true \/ c = 45)
                 (uint_digits (N.to_uint (Z.abs_N n)))).
  { eapply Forall_impl; [apply uint_digits_chars | auto]. }
  assert (Hz : forall k, Forall (fun c => ascii_digit c = true \/ c = 45) (replicate k 48)).
  { intros k. apply Forall_replicate. left. reflexivity. }
  unfold format_02d. destruct (n <? 0)%Z.
  - constructor; [auto |]. apply Forall_app. auto.
  - apply Forall_app. auto.
Qed.

Lemma rel_parts_segment d : 47 ∉ d -> head d <> Some 46 -> rel_parts d = segment d.
Proof.
  intros Hsep Hdot. unfold rel_parts, segment.
  rewrite (split_char_none 47 d Hsep). simpl.
  destruct d as [| c r]; [reflexivity |]. simpl.
  rewrite bool_decide_false; [reflexivity |]. intros [= -> _]. contradiction.
Qed.

Lemma path_div_segment base d :
  47 ∉ d -> head d <> Some 46 -> path_div base d = base ++ segment d.
Proof.
  intros Hsep Hdot. unfold path_div. rewrite (rel_parts_segment d Hsep Hdot).
  destruct d as [| c r]; [reflexivity |].
  destruct (N.eqb_spec c 47) as [-> | Hc];
    [exfalso; apply Hsep, elem_of_cons; auto |].
  destruct c as [| p]; [reflexivity |].
  do 6 (destruct p as [p | p |]; try reflexivity). congruence.
Qed.

Lemma sanitize_filename_no_sep x : 47 ∉ sanitize_filename U x.
Proof.
  intros Hin.
  pose proof (sanitize_filename_chars U (fun c => c <> 47) x) as H.
  rewrite List.Forall_forall in H.
  apply list_elem_of_In, H in Hin; [congruence | discriminate |].
  intros c Hc ->. discriminate.
Qed.

Lemma path_suffix_no_sep (p : Path) : 47 ∉ path_name p -> 47 ∉ path_suffix p.
Proof.
  intros H. unfold path_suffix. destruct (rfind 46 (path_name p)); [| apply not_elem_of_nil].
  destruct (_ && _); [| apply not_elem_of_nil].
  intros Hin. apply H.
  apply list_elem_of_lookup in Hin as [i Hi]. rewrite lookup_drop in Hi.
  apply (list_elem_of_lookup_2 _ _ _ Hi).
Qed.

Lemma destination_filename_chars m :
  47 ∉ path_name (local_file m) ->
  (47 ∉ destination_filename U m)
  /\ head (destination_filename U m) <> Some 46
  /\ (2 <= length (destination_filename U m))%nat.
Proof.
  intros Hname. unfold destination_filename.
  pose proof (format_02d_length (track_num (track m))) as Hlen.
  pose proof (format_02d_chars (track_num (track m))) as Hchars.
  split; [| split].
  - rewrite !not_elem_of_app.
    repeat split;
      first [ apply sanitize_filename_no_sep
            | apply path_suffix_no_sep; exact Hname
            | apply (bool_decide_unpack _); vm_compute; reflexivity
            | idtac ].
    intros Hin. rewrite List.Forall_forall in Hchars.
    apply list_elem_of_In, Hchars in Hin as [? | ?]; discriminate.
  - destruct (format_02d _) as [| c r]; [simpl in Hlen; lia |]. simpl.
    apply Forall_cons in Hchars as [[? | ?] _]; intros [= ->]; discriminate.
  - rewrite length_app. lia.
Qed.

Lemma destination_path_parts m base :
  47 ∉ path_name (local_file m) ->
  _generate_destination_path U m base
  = base ++ segment (sanitize_filename U (consolidated_album_artist m))
         ++ segment (sanitize_filename U (album_name (track m)))
         ++ [destination_filename U m].
Proof.
  intros Hname. destruct (destination_filename_chars m Hname) as (Hsep & Hdot & Hlen).
  unfold _generate_destination_path. fold (destination_filename U m).
  rewrite !path_div_segment;
    try apply sanitize_filename_no_sep; try apply sanitize_filename_head;
    try assumption.
  unfold segment at 3. destruct (destination_filename U m); [simpl in Hlen; lia |].
  simpl. rewrite <- !app_assoc. reflexivity.
Qed.

Lemma destination_path_name m base :
  47 ∉ path_name (local_file m) ->
  path_name (_generate_destination_path U m base) = destination_filename U m.
Proof.
  intros Hname. destruct (destination_filename_chars m Hname) as (_ & _ & Hlen).
  rewrite (destination_path_parts m base Hname).
  rewrite !app_assoc. unfold path_name. rewrite rev_unit.
  pose proof (path_name_single (destination_filename U m)) as H1.
  unfold path_name in H1. simpl in H1. apply H1.
  intros E. rewrite E in Hlen. simpl in Hlen. lia.
Qed.

(** X11: The destination of a match lies under the base directory: one
    directory for the sanitized consolidated album artist and one for the
    sanitized album name, each left out when the sanitized name is empty,
    and then the file name, which is the last part of the path. *)
Theorem _generate_destination_path_shape m base :
  47 ∉ path_name (local_file m) ->
  _generate_destination_path U m base
  = base ++ segment (sanitize_filename U (consolidated_album_artist m))
         ++ segment (sanitize_filename U (album_name (track m)))
         ++ [destination_filename U m]
  /\ base `prefix_of` _generate_destination_path U m base
  /\ path_name (_generate_destination_path U m base) = destination_filename U m.
Proof.
  intros Hname. split; [apply destination_path_parts, Hname |].
  split; [| apply destination_path_name, Hname].
  rewrite (destination_path_parts m base Hname). eexists. reflexivity.
Qed.

Lemma rfind_spec c s i :
  rfind c s = Some i ->
  s !! i = Some c /\ c ∉ drop (S i) s.
Proof.
  revert i. induction s as [| d s IH]; intros i; simpl; [discriminate |].
  destruct (rfind c s) as [j |] eqn:Hj.
  - intros [= <-]. apply (IH j eq_refl).
  - destruct (N.eqb_spec d c) as [-> | _]; [| discriminate]. intros [= <-].
    split; [reflexivity |]. simpl. clear IH.
    induction s as [| e s IH]; [apply not_elem_of_nil |]. simpl in Hj.
    destruct (rfind c s); [discriminate |].
    destruct (N.eqb_spec e c); [discriminate |].
    apply not_elem_of_cons. split; [congruence | apply IH; reflexivity].
Qed.

(** A non-empty suffix is a dot and then at least one character, none of
    them a dot. *)
Lemma path_suffix_shape (p : Path) :
  path_suffix p <> [] ->
  exists e, path_suffix p = 46 :: e /\ e <> [] /\ 46 ∉ e.
Proof.
  unfold path_suffix. destruct (rfind 46 (path_name p)) as [i |] eqn:Hi; [| done].
  destruct (_ && _) eqn:Hb; [| done]. intros _.
  apply andb_true_iff in Hb as [_ Hlt]. apply Nat.ltb_lt in Hlt.
  destruct (rfind_spec _ _ _ Hi) as [Hc Hnot].
  exists (drop (S i) (path_name p)). split; [| split; [| exact Hnot]].
  - rewrite (drop_S _ _ _ Hc). reflexivity.
  - intros E. apply (f_equal length) in E. rewrite length_drop in E. simpl in E. lia.
Qed.

(** X12: The destination keeps the extension of the local file, when it has
    one. *)
Theorem _generate_destination_path_suffix m base :
  47 ∉ path_name (local_file m) ->
  path_suffix (local_file m) <> [] ->
  path_suffix (_generate_destination_path U m base) = path_suffix (local_file m).
Proof.
  intros Hname Hext.
  destruct (destination_filename_chars m Hname) as (Hsep & _ & Hlen).
  pose proof (destination_path_name m base Hname) as Hpn.
  destruct (path_suffix_shape _ Hext) as (e & He & Hne & Hdot).
  unfold path_suffix at 1. rewrite Hpn. unfold destination_filename. rewrite He.
  set (stem := format_02d (track_num (track m)) ++ lit " - " ++
           sanitize_filename U (str_join (lit ", ") (artists (track m))) ++ lit " - " ++
           sanitize_filename U (name (track m))).
  pose proof (format_02d_length (track_num (track m))) as Hf.
  assert (Hstem : (2 <= length stem)%nat) by (unfold stem; rewrite length_app; lia).
  replace (format_02d (track_num (track m)) ++ lit " - " ++
           sanitize_filename U (str_join (lit ", ") (artists (track m))) ++ lit " - " ++
           sanitize_filename U (name (track m)) ++ 46 :: e)
    with (stem ++ 46 :: e) by (unfold stem; rewrite <- !app_assoc; reflexivity).
  rewrite (rfind_last 46 stem e Hdot), drop_app_length.
  assert (Hn : (length stem < length (stem ++ (46 :: e)%N) - 1)%nat).
  { rewrite length_app. simpl. destruct e; [contradiction | simpl; lia]. }
  apply Nat.ltb_lt in Hn. rewrite Hn.
  replace ((0 <? length stem)%nat) with true by (symmetry; apply Nat.ltb_lt; lia).
  reflexivity.
Qed.

End Destination.

Lemma _generate_destination_path_shape_witness :
  out_dir `prefix_of` _generate_destination_path fragment match_song_a out_dir
  /\ path_name (_generate_destination_path fragment match_song_a out_dir)
     = lit "01 - X - Song A.mp3".
Proof.
  destruct (_generate_destination_path_shape fragment match_song_a out_dir)
    as (_ & Hprefix & Hname).
  - apply (bool_decide_unpack _). vm_compute. reflexivity.
  - split; [exact Hprefix |]. rewrite Hname. vm_compute. reflexivity.
Defined.

Lemma _generate_destination_path_suffix_witness :
  path_suffix (_generate_destination_path fragment match_song_a out_dir) = lit ".mp3".
Proof.
  rewrite (_generate_destination_path_suffix fragment match_song_a out_dir).
  - vm_compute. reflexivity.
  - apply (bool_decide_unpack _). vm_compute. reflexivity.
  - vm_compute. discriminate.
Defined.

(** ** The album artist map and the track map *)

Section Maps.

Context (U : UnicodeData).

Implicit Types (t : Track) (ts : list Track) (k : str).

Lemma group_by_album_fold ts k : forall (m0 : gmap (list N) (list Track)),
  foldl (fun album_tracks t =>
           <[album_id t := default [] (album_tracks !! album_id t) ++ [t]]> album_tracks)
    m0 ts !! k
  = match m0 !! k with
    | Some g => Some (g ++ album_tracks_of k ts)
    | None => match album_tracks_of k ts with [] => None | l => Some l end
    end.
Proof.
  induction ts as [| t r IH]; intros m0; simpl.
  - destruct (m0 !! k); [rewrite app_nil_r |]; reflexivity.
  - rewrite IH. unfold album_tracks_of. simpl.
    destruct (decide (album_id t = k)) as [<- | Hne].
    + rewrite lookup_insert_eq, bool_decide_true by reflexivity.
      destruct (m0 !! album_id t); simpl; rewrite <- ?app_assoc; reflexivity.
    + rewrite lookup_insert_ne, bool_decide_false by assumption. reflexivity.
Qed.

Lemma build_album_artist_map_lookup ts t :
  t ∈ ts ->
  _build_album_artist_map ts !! album_id t
  = Some (_get_consolidated_album_artist (album_tracks_of (album_id t) ts)).
Proof.
  intros Hin. unfold _build_album_artist_map, group_by_album.
  rewrite lookup_fmap, group_by_album_fold, lookup_empty.
  destruct (album_tracks_of (album_id t) ts) eqn:E; [| reflexivity].
  exfalso. assert (Ht : In t (album_tracks_of (album_id t) ts)).
  { apply filter_In. split; [apply list_elem_of_In, Hin |].
    apply bool_decide_eq_true. reflexivity. }
  rewrite E in Ht. exact Ht.
Qed.

(** X14: The album artist map of a playlist has, for every track, the
    consolidated artist of the playlist tracks of its album; and every
    match that reconciliation makes carries it. *)
Theorem album_artist_map_complete (raw : list RawTrack) (dur : Z)
    (idx : gmap (list N) (list (str * Path))) :
  let p := Playlist_init raw dur in
  (forall t, t ∈ tracks p ->
     _album_artist_map p !! album_id t
     = Some (_get_consolidated_album_artist (album_tracks_of (album_id t) (tracks p))))
  /\ (forall m, m ∈ v_matches (verify_tracks U p idx) ->
        consolidated_album_artist m
        = _get_consolidated_album_artist
            (album_tracks_of (album_id (track m)) (tracks p))).
Proof.
  intros p.
  assert (Hmap : forall t, t ∈ tracks p ->
     _album_artist_map p !! album_id t
     = Some (_get_consolidated_album_artist (album_tracks_of (album_id t) (tracks p)))).
  { intros t Ht. apply (build_album_artist_map_lookup (tracks p)), Ht. }
  split; [exact Hmap |]. clearbody p.
  intros m Hm. destruct (verify_tracks_outcome U p idx) as (E & _ & _).
  rewrite E in Hm. apply list_elem_of_omap in Hm as (t & Ht & Hm).
  unfold match_for in Hm. destruct (find_match _ _); [| discriminate].
  injection Hm as <-. cbn [consolidated_album_artist track].
  rewrite (Hmap t Ht). reflexivity.
Qed.

(** X15: The track map has, for every title, the last playlist track of this
    title. *)
Theorem get_track_artist_map_lookup (p : Playlist) (n : str) :
  get_track_artist_map p !! n
  = last (List.filter (fun t => bool_decide (name t = n)) (tracks p)).
Proof.
  unfold get_track_artist_map.
  assert (H : forall (m0 : gmap (list N) Track),
    foldl (fun track_map t => <[name t := t]> track_map) m0 (tracks p) !! n
    = match last (List.filter (fun t => bool_decide (name t = n)) (tracks p)) with
      | Some t => Some t
      | None => m0 !! n
      end).
  { induction (tracks p) as [| t r IH]; intros m0; simpl; [reflexivity |].
    rewrite IH. destruct (decide (name t = n)) as [<- | Hne].
    - rewrite bool_decide_true by reflexivity. rewrite last_cons, lookup_insert_eq.
      destruct (last _); reflexivity.
    - rewrite bool_decide_false, lookup_insert_ne by assumption. reflexivity. }
  rewrite H, lookup_empty. destruct (last _); reflexivity.
Qed.

End Maps.

Section IndexProps.

Context (U : UnicodeData).

Implicit Types (t : Track) (k : str) (files : list Path)
  (idx : gmap (list N) (list (str * Path))).

Lemma build_index_fold files k :
  forall (m0 : gmap (list N) (list (str * Path))) (errs : list (Path * string)),
  (foldl (index_file U) (m0, errs) files).1 !! k
  = match m0 !! k with
    | Some g => Some (g ++ parsed_as U k files)
    | None => match parsed_as U k files with [] => None | l => Some l end
    end
  /\ (foldl (index_file U) (m0, errs) files).2 = errs ++ unparsable U files.
Proof.
  induction files as [| f r IH]; intros m0 errs.
  - unfold parsed_as, unparsable. simpl. rewrite !app_nil_r.
    destruct (m0 !! k); rewrite ?app_nil_r; auto.
  - change (foldl (index_file U) (m0, errs) (f :: r))
      with (foldl (index_file U) (index_file U (m0, errs) f) r).
    destruct (index_file U (m0, errs) f) as [m1 errs1] eqn:Hstep.
    destruct (IH m1 errs1) as [H1 H2]. rewrite H1, H2. clear H1 H2 IH.
    unfold index_file in Hstep. unfold parsed_as, unparsable. simpl omap.
    destruct (extract_artist_and_track U f) as [e | [a k']] eqn:Hx;
      injection Hstep as <- <-.
    + rewrite <- app_assoc. auto.
    + split; [| reflexivity].
      destruct (decide (k' = k)) as [-> | Hne].
      * rewrite lookup_insert_eq, bool_decide_true by reflexivity.
        destruct (m0 !! k); simpl; rewrite <- ?app_assoc; reflexivity.
      * rewrite lookup_insert_ne, bool_decide_false by assumption. reflexivity.
Qed.

Lemma build_index_entries files k :
  default [] ((build_index U files).1 !! k) = parsed_as U k files.
Proof.
  unfold build_index. destruct (build_index_fold files k ∅ []) as [-> _].
  rewrite lookup_empty. destruct (parsed_as U k files); reflexivity.
Qed.

Lemma build_index_errors files : (build_index U files).2 = unparsable U files.
Proof.
  unfold build_index. destruct (build_index_fold files [] ∅ []) as [_ ->].
  reflexivity.
Qed.

(** X16: The index has, under each track name, the local files that parse to
    it, with their parsed artists, in scan order, and no entry for a name
    that no file parses to; the parsing failures are the files that do not
    parse, in scan order. *)
Theorem build_index_spec files k :
  (build_index U files).1 !! k
  = match parsed_as U k files with [] => None | l => Some l end
  /\ (build_index U files).2 = unparsable U files.
Proof.
  unfold build_index. destruct (build_index_fold files k ∅ []) as [-> ->].
  rewrite lookup_empty. auto.
Qed.

Lemma parsed_as_elem k files a f :
  (a, f) ∈ parsed_as U k files <->
  f ∈ files /\ extract_artist_and_track U f = inr (a, k).
Proof.
  unfold parsed_as. rewrite list_elem_of_omap. split.
  - intros (f' & Hin & Hx).
    destruct (extract_artist_and_track U f') as [e | [a' k']] eqn:E; [discriminate |].
    case_bool_decide; [| discriminate]. injection Hx as -> ->. subst. auto.
  - intros [Hin Hx]. exists f. split; [exact Hin |]. rewrite Hx.
    rewrite bool_decide_true; reflexivity.
Qed.

Lemma find_match_none artists_ entries :
  find_match artists_ entries = None <-> forall a, a ∈ artists_ -> a ∉ entries.*1.
Proof.
  induction artists_ as [| a r IH]; simpl.
  - split; [intros _ a []%elem_of_nil | reflexivity].
  - destruct (find_local a entries) as [f |] eqn:Hf.
    + split; [discriminate |]. intros H. exfalso.
      apply (H a); [apply elem_of_cons; auto |].
      apply list_elem_of_fmap. exists (a, f). split; [reflexivity |].
      apply find_local_sound, Hf.
    + rewrite IH. split.
      * intros H b Hb. apply elem_of_cons in Hb as [-> | Hb]; [| auto].
        intros Hin. apply list_elem_of_fmap in Hin as ([a' f] & Ha & Hin).
        simpl in Ha. subst a'.
        assert (exists epre g epost, entries = epre ++ (a, g) :: epost /\ a ∉ epre.*1)
          as (epre & g & epost & -> & Hpre).
        { clear -Hin. induction entries as [| [c h] es IHe];
            [apply elem_of_nil in Hin; contradiction |].
          destruct (decide (c = a)) as [-> | Hc].
          - exists [], h, es. split; [reflexivity | apply not_elem_of_nil].
          - apply elem_of_cons in Hin as [[= -> _] | Hin]; [contradiction |].
            destruct (IHe Hin) as (epre & g & epost & -> & Hpre).
            exists ((c, h) :: epre), g, epost. split; [reflexivity |].
            csimpl. apply not_elem_of_cons. auto. }
        rewrite (find_local_first a epre g epost Hpre) in Hf. discriminate.
      * intros H b Hb. apply H, elem_of_cons. auto.
Qed.

Lemma outcome_one am idx t :
  (length (option_list (match_for U am idx t))
   + length (option_list (missing_for U idx t))
   + length (option_list (mismatch_for U idx t)))%nat = 1%nat.
Proof.
  unfold missing_for, mismatch_for, match_for.
  destruct (entries_for U idx t) as [| e es]; simpl.
  - rewrite find_match_nil. reflexivity.
  - destruct (find_match _ _); reflexivity.
Qed.

(** X17: Every playlist track adds to exactly one of the three lists, and the
    matches keep the order of the playlist. *)
Theorem verify_tracks_partition (p : Playlist) idx :
  let v := verify_tracks U p idx in
  (length (v_matches v) + length (v_missing_from_local v)
   + length (v_artist_mismatches v))%nat = length (tracks p)
  /\ track <$> v_matches v `sublist_of` tracks p.
Proof.
  intros v. destruct (verify_tracks_outcome U p idx) as (E1 & E2 & E3).
  fold v in E1, E2, E3. rewrite E1, E2, E3. clear. split.
  - induction (tracks p) as [| t r IH]; [reflexivity |].
    pose proof (outcome_one (_album_artist_map p) idx t) as H1. csimpl.
    destruct (match_for U (_album_artist_map p) idx t),
      (missing_for U idx t), (mismatch_for U idx t); csimpl in *; lia.
  - induction (tracks p) as [| t r IH]; [constructor |]. simpl.
    destruct (match_for U (_album_artist_map p) idx t) as [m |] eqn:Hm.
    + rewrite fmap_cons, (match_for_track U _ _ _ _ Hm). apply sublist_skip, IH.
    + apply sublist_cons, IH.
Qed.

End IndexProps.

Section Classification.

Context (U : UnicodeData) {FS : Type} (os : FileSystem FS).

Implicit Types (t : Track) (files : list Path).

Lemma entries_for_index files t :
  entries_for U (build_index U files).1 t = parsed_as U (normalized_name U t) files.
Proof. apply build_index_entries. Qed.

(** X18: Every match that [verify_playlist] returns pairs a playlist track with
    one of the collected files, and this file parses to the normalized name
    of the track and to one of its normalized artists. *)
Theorem verify_playlist_matches_sound (p : Playlist) folders fs ms :
  verify_playlist U os p folders fs = inr ms ->
  exists files,
    collect_audio_files U os folders fs = inr files
    /\ forall m, m ∈ ms ->
         track m ∈ tracks p /\ local_file m ∈ files
         /\ exists a, a ∈ normalized_artists U (track m)
              /\ extract_artist_and_track U (local_file m)
                 = inr (a, normalized_name U (track m)).
Proof.
  intros Hret.
  destruct (verify_playlist_returns U os _ _ _ _ Hret)
    as (files & idx & Hfiles & Hidx & _ & _ & ->).
  exists files. split; [exact Hfiles |].
  intros m (t & Ht & Hm)%list_elem_of_omap.
  destruct (match_for_sound U _ _ _ _ Hm) as (-> & a & Ha & Hent).
  assert (Hidx' : idx = (build_index U files).1) by (rewrite Hidx; reflexivity).
  rewrite Hidx', build_index_entries in Hent. apply parsed_as_elem in Hent as [Hin Hx].
  split; [exact Ht |]. split; [exact Hin |]. exists a. auto.
Qed.

(** X19: How reconciliation classifies a playlist track, by the local files
    that parse to its normalized name: missing when there is none;
    mismatched when none of them has one of the normalized artists of the
    track; matched otherwise. *)
Theorem verify_tracks_classification (p : Playlist) files t :
  t ∈ tracks p ->
  let v := verify_tracks U p (build_index U files).1 in
  let cands := parsed_as U (normalized_name U t) files in
  ((position t + 1, name t, artists t)%nat ∈ v_missing_from_local v <-> cands = [])
  /\ ((position t + 1, name t, cands.*1, artists t)%nat ∈ v_artist_mismatches v
      <-> cands <> [] /\ forall a, a ∈ normalized_artists U t -> a ∉ cands.*1)
  /\ ((exists m, m ∈ v_matches v /\ track m = t)
      <-> exists a, a ∈ normalized_artists U t /\ a ∈ cands.*1).
Proof.
  intros Ht v cands.
  destruct (verify_tracks_outcome U p (build_index U files).1) as (E1 & E2 & E3).
  fold v in E1, E2, E3. rewrite E1, E2, E3.
  assert (Hsame : forall t', name t' = name t ->
            entries_for U (build_index U files).1 t' = cands).
  { intros t' Hn. rewrite entries_for_index. unfold cands, normalized_name.
    rewrite Hn. reflexivity. }
  split; [| split].
  - rewrite list_elem_of_omap. split.
    + intros (t' & _ & Hm). unfold missing_for in Hm.
      destruct (is_nil _) eqn:En; [| discriminate]. injection Hm as _ Hn _.
      rewrite (Hsame t' Hn) in En. apply is_nil_true, En.
    + intros Hc. exists t. split; [exact Ht |]. unfold missing_for.
      rewrite (Hsame t eq_refl), Hc. reflexivity.
  - rewrite list_elem_of_omap. split.
    + intros (t' & _ & Hm). unfold mismatch_for in Hm.
      destruct (is_nil _) eqn:En; [discriminate |].
      destruct (find_match _ _) eqn:Hf; [discriminate |].
      injection Hm as _ Hn _ Ha. rewrite (Hsame t' Hn) in En, Hf.
      split; [intros Hc; rewrite Hc in En; discriminate |].
      unfold normalized_artists in *. rewrite Ha in Hf.
      apply find_match_none, Hf.
    + intros [Hne Hall]. exists t. split; [exact Ht |]. unfold mismatch_for.
      rewrite (Hsame t eq_refl).
      destruct cands eqn:Ec; [contradiction |]. simpl is_nil. cbv iota.
      apply find_match_none in Hall. rewrite Hall. reflexivity.
  - split.
    + intros (m & (t' & _ & Hm)%list_elem_of_omap & Htm).
      destruct (match_for_sound U _ _ _ _ Hm) as (Ht' & a & Ha & Hent).
      rewrite Htm in Ht'. subst t'.
      rewrite build_index_entries in Hent. exists a. split; [exact Ha |].
      apply list_elem_of_fmap. exists (a, local_file m). auto.
    + intros (a & Ha & Hin).
      destruct (match_for U (_album_artist_map p) (build_index U files).1 t)
        as [m |] eqn:Hm.
      * exists m. split; [| eapply match_for_track, Hm].
        apply list_elem_of_omap. eauto.
      * exfalso. unfold match_for in Hm. rewrite (Hsame t eq_refl) in Hm.
        destruct (find_match _ _) eqn:Hf; [discriminate |].
        apply (proj1 (find_match_none _ _) Hf a Ha Hin).
Qed.

End Classification.

Lemma album_artist_map_complete_witness :
  _album_artist_map playlist_two !! lit "4711" = Some (lit "X").
Proof.
  destruct (album_artist_map_complete fragment raw_two 300 ∅) as [H _].
  eapply eq_trans.
  - apply (H (Track_init 0 (raw_track "Song A" [lit "X"] 1))).
    apply elem_of_cons. left. reflexivity.
  - vm_compute. reflexivity.
Defined.

Lemma verify_playlist_matches_sound_witness :
  exists files,
    collect_audio_files fragment simple_fs [in_dir] fs_two_files = inr files
    /\ local_file match_song_a ∈ files.
Proof.
  destruct (verify_playlist_matches_sound fragment simple_fs playlist_two
              [in_dir] fs_two_files matches_two) as (files & Hfiles & Hall).
  - vm_compute. reflexivity.
  - exists files. split; [exact Hfiles |].
    apply (Hall match_song_a). apply elem_of_cons. left. reflexivity.
Defined.

Lemma verify_tracks_classification_witness :
  exists m,
    m ∈ v_matches (verify_tracks fragment playlist_two
                     (build_index fragment fs_two_files).1)
    /\ track m = Track_init 0 (raw_track "Song A" [lit "X"] 1).
Proof.
  destruct (verify_tracks_classification fragment playlist_two fs_two_files
              (Track_init 0 (raw_track "Song A" [lit "X"] 1))) as (_ & _ & H).
  - apply elem_of_cons. left. reflexivity.
  - apply H. exists (lit "x").
    split; apply (bool_decide_unpack _); vm_compute; reflexivity.
Defined.

(** ** Collecting, validating, executing *)

Section Lex.

Context {A : Type} (lt eqb : A -> A -> bool).

Hypothesis eqb_eq : forall x y, eqb x y = true <-> x = y.
Hypothesis lt_irrefl : forall x, lt x x = false.
Hypothesis lt_trans : forall x y z, lt x y = true -> lt y z = true -> lt x z = true.
Hypothesis lt_total : forall x y, lt x y = true \/ x = y \/ lt y x = true.

Lemma lex_ltb_irrefl a : lex_ltb lt eqb a a = false.
Proof.
  induction a as [| x a IH]; simpl; [reflexivity |].
  rewrite lt_irrefl, IH, andb_false_r. reflexivity.
Qed.

Lemma lex_ltb_trans a : forall b c,
  lex_ltb lt eqb a b = true -> lex_ltb lt eqb b c = true -> lex_ltb lt eqb a c = true.
Proof.
  induction a as [| x a IH]; intros [| y b] [| z c]; simpl; try easy.
  rewrite !orb_true_iff, !andb_true_iff, !eqb_eq.
  intros [Hxy | [-> Hab]] [Hyz | [<- Hbc]]; eauto.
Qed.

Lemma lex_ltb_total a : forall b,
  lex_ltb lt eqb a b = true \/ a = b \/ lex_ltb lt eqb b a = true.
Proof.
  induction a as [| x a IH]; intros [| y b]; simpl; auto.
  rewrite !orb_true_iff, !andb_true_iff, !eqb_eq.
  destruct (lt_total x y) as [H | [-> | H]]; auto.
  destruct (IH b) as [H | [-> | H]]; auto.
Qed.

End Lex.

Section Sorting.

Context {A : Type} (lt : A -> A -> bool).

Hypothesis lt_irrefl : forall x, lt x x = false.
Hypothesis lt_trans : forall x y z, lt x y = true -> lt y z = true -> lt x z = true.
Hypothesis lt_total : forall x y, lt x y = true \/ x = y \/ lt y x = true.

Lemma lt_asym x y : lt x y = true -> lt y x = false.
Proof.
  intros H. destruct (lt y x) eqn:E; [| reflexivity].
  rewrite <- (lt_irrefl x). symmetry. eapply lt_trans; eassumption.
Qed.





End Sorting.

Lemma str_ltb_lex a b : str_ltb a b = lex_ltb N.ltb N.eqb a b.
Proof.
  revert b. induction a as [| x a IH]; intros [| y b]; simpl; try reflexivity.
  rewrite IH. reflexivity.
Qed.


Lemma str_ltb_order :
  (forall x, str_ltb x x = false)
  /\ (forall x y z, str_ltb x y = true -> str_ltb y z = true -> str_ltb x z = true)
  /\ (forall x y, str_ltb x y = true \/ x = y \/ str_ltb y x = true).
Proof.
  repeat split; intros; rewrite ?str_ltb_lex in *.
  - apply lex_ltb_irrefl; intros; [apply N.ltb_irrefl].
  - eapply (lex_ltb_trans N.ltb N.eqb); try eassumption.
    + apply N.eqb_eq.
    + intros a b c. rewrite !N.ltb_lt. lia.
  - apply (lex_ltb_total N.ltb N.eqb).
    + apply N.eqb_eq.
    + intros a b. rewrite !N.ltb_lt. lia.
Qed.


Section Collect.

Context (U : UnicodeData) {FS : Type} (os : FileSystem FS).

Implicit Types (fs : FS) (folders files entries block : list Path) (folder f : Path).

(** A scan of the entries that ends without exception keeps the audio
    files, and every entry with a supported extension was asked for. *)
Lemma audio_files_of_inr entries fs block :
  audio_files_of U os entries fs = inr block ->
  block = List.filter (is_audio_file U os fs) entries
  /\ Forall (fun f => has_supported_extension U f = true ->
               exists b, fs_is_file os f fs = inr b) entries.
Proof.
  revert block. induction entries as [| f r IH]; intros block; simpl.
  - intros [= <-]. auto.
  - unfold is_audio_file at 1, has_supported_extension at 1 2.
    destruct (bool_decide _) eqn:Hext.
    + destruct (fs_is_file os f fs) as [e | b] eqn:Hf; [discriminate |].
      destruct (audio_files_of U os r fs) as [e | rest]; cbv beta iota;
        [discriminate |].
      intros [= <-]. destruct (IH rest eq_refl) as [-> Hall].
      split; [destruct b; reflexivity |].
      constructor; [eauto | exact Hall].
    + simpl. intros H. destruct (IH block H) as [-> Hall].
      split; [reflexivity |]. constructor; [congruence | exact Hall].
Qed.

Lemma audio_files_of_answers entries fs :
  Forall (fun f => has_supported_extension U f = true ->
            exists b, fs_is_file os f fs = inr b) entries ->
  audio_files_of U os entries fs = inr (List.filter (is_audio_file U os fs) entries).
Proof.
  induction 1 as [| f r Hf _ IH]; [reflexivity |]. simpl.
  unfold is_audio_file at 1, has_supported_extension at 1.
  unfold has_supported_extension in Hf.
  destruct (bool_decide _) eqn:Hext.
  - destruct (Hf eq_refl) as [b ->]. rewrite IH. destruct b; reflexivity.
  - exact IH.
Qed.

(** The exception of a scan is the exception of [is_file()] on an entry
    with a supported extension. *)
Lemma audio_files_of_inl entries fs e :
  audio_files_of U os entries fs = inl e ->
  exists f, f ∈ entries /\ has_supported_extension U f = true
            /\ fs_is_file os f fs = inl e.
Proof.
  induction entries as [| f r IH]; simpl; [discriminate |].
  destruct (bool_decide _) eqn:Hext.
  - destruct (fs_is_file os f fs) as [e' | b] eqn:Hf.
    + intros [= ->]. exists f. repeat split; [apply elem_of_cons; auto | exact Hext | exact Hf].
    + destruct (audio_files_of U os r fs) as [e' | rest]; [| discriminate].
      intros [= ->]. destruct (IH eq_refl) as (g & Hg & Hs & He).
      exists g. repeat split; [apply elem_of_cons; auto | exact Hs | exact He].
  - intros H. destruct (IH H) as (g & Hg & Hs & He).
    exists g. repeat split; [apply elem_of_cons; auto | exact Hs | exact He].
Qed.


Lemma folder_files_inl folder fs e :
  folder_files U os folder fs = inl e ->
  fs_iterdir os folder fs = inl e
  \/ exists entries f,
       fs_iterdir os folder fs = inr entries /\ f ∈ entries
       /\ bool_decide (str_lower U (path_suffix f) ∈ SUPPORTED_EXTENSIONS) = true
       /\ fs_is_file os f fs = inl e.
Proof.
  unfold folder_files. destruct (fs_iterdir os folder fs) as [e' | entries].
  - intros [= ->]. auto.
  - intros (f & Hf & Hs & He)%audio_files_of_inl. right. exists entries, f.
    rewrite sorted_perm in Hf. auto.
Qed.

(** A folder without audio files: it can be listed, and [is_file()]
    answers [False] for each of its entries with a supported extension. *)
Lemma folder_files_nil folder fs :
  folder_files U os folder fs = inr [] <->
  exists entries,
    fs_iterdir os folder fs = inr entries
    /\ forall f, f ∈ entries ->
         bool_decide (str_lower U (path_suffix f) ∈ SUPPORTED_EXTENSIONS) = true ->
         fs_is_file os f fs = inr false.
Proof.
  unfold folder_files. split.
  - destruct (fs_iterdir os folder fs) as [e | entries]; [discriminate |].
    intros H. exists entries. split; [reflexivity |]. intros f Hf Hs.
    destruct (audio_files_of_inr _ _ _ H) as [Hnil Hall].
    rewrite List.Forall_forall in Hall.
    assert (Hin : In f (sorted path_ltb entries))
      by (apply list_elem_of_In; rewrite sorted_perm; exact Hf).
    destruct (Hall f Hin Hs) as [[|] Hb]; [| exact Hb].
    assert (Hk : In f (List.filter (is_audio_file U os fs) (sorted path_ltb entries))).
    { apply filter_In. split; [exact Hin |].
      unfold is_audio_file, has_supported_extension. rewrite Hs, Hb. reflexivity. }
    rewrite <- Hnil in Hk. contradiction.
  - intros (entries & -> & Hall). rewrite audio_files_of_answers.
    + f_equal. destruct (List.filter _ _) as [| f l] eqn:E; [reflexivity |].
      assert (Hk : In f (List.filter (is_audio_file U os fs) (sorted path_ltb entries)))
        by (rewrite E; left; reflexivity).
      apply filter_In in Hk as [Hin Ha]. unfold is_audio_file in Ha.
      apply andb_true_iff in Ha as [Hs Hb].
      apply list_elem_of_In in Hin. rewrite sorted_perm in Hin.
      rewrite (Hall f Hin Hs) in Hb. discriminate.
    + apply List.Forall_forall. intros f Hin Hs.
      apply list_elem_of_In in Hin. rewrite sorted_perm in Hin. eauto.
Qed.

(** The loop: its counter counts the folders, and it stops at the first
    folder whose scan raises. *)
Lemma collect_loop_spec folders fs : forall files n,
  match collect_loop U os folders fs files n with
  | inr (files', n') =>
      n' = (n + length folders)%nat
      /\ exists blocks,
           Forall2 (fun folder block => folder_files U os folder fs = inr block)
             folders blocks
           /\ files' = files ++ concat blocks
  | inl e =>
      exists pre folder post,
        folders = pre ++ folder :: post
        /\ Forall (fun d => exists block, folder_files U os d fs = inr block) pre
        /\ folder_files U os folder fs = inl e
  end.
Proof.
  induction folders as [| d ds IH]; intros files n; simpl.
  - split; [lia |]. exists []. split; [constructor | rewrite app_nil_r; reflexivity].
  - destruct (folder_files U os d fs) as [e | found] eqn:Hd.
    + exists [], d, ds. repeat split; [constructor | exact Hd].
    + specialize (IH (files ++ found) (n + 1)%nat).
      destruct (collect_loop U os ds fs (files ++ found) (n + 1)) as [e | [files' n']].
      * destruct IH as (pre & folder & post & -> & Hpre & He).
        exists (d :: pre), folder, post. repeat split; [| exact He].
        constructor; [eauto | exact Hpre].
      * destruct IH as (-> & blocks & Hb & ->). split; [lia |].
        exists (found :: blocks). split; [constructor; assumption |].
        simpl. rewrite app_assoc. reflexivity.
Qed.

Lemma collect_loop_raises folders fs pre folder post e : forall files n,
  folders = pre ++ folder :: post ->
  Forall (fun d => exists block, folder_files U os d fs = inr block) pre ->
  folder_files U os folder fs = inl e ->
  collect_loop U os folders fs files n = inl e.
Proof.
  intros files n -> Hpre He. revert files n.
  induction Hpre as [| d ds [block Hd] _ IH]; intros files n; simpl.
  - rewrite He. reflexivity.
  - rewrite Hd. apply IH.
Qed.


(** X21: [collect_audio_files] raises in three cases, and in no other:
    without folders, its validation error for the folders; when the listing
    of a folder, or [is_file()] on an entry with a supported extension,
    raises, this [OSError], from the first folder where it happens; and when
    every folder is scanned and none has a regular file with a supported
    extension, its validation error for the audio files, with the number of
    folders.  The error for no valid folder is never raised. *)
Theorem collect_audio_files_error folders fs e :
  (collect_audio_files U os folders fs = inl e <->
   (folders = []
    /\ e = ValidationError "input_folders" (ValueText "empty list")
             (lit "No input folders provided"))
   \/ (exists pre folder post x,
         folders = pre ++ folder :: post
         /\ Forall (fun d => exists block, folder_files U os d fs = inr block) pre
         /\ folder_files U os folder fs = inl x
         /\ e = OSError x)
   \/ (folders <> []
       /\ Forall (fun folder =>
            exists entries,
              fs_iterdir os folder fs = inr entries
              /\ forall f, f ∈ entries ->
                   bool_decide (str_lower U (path_suffix f) ∈ SUPPORTED_EXTENSIONS)
                   = true ->
                   fs_is_file os f fs = inr false) folders
       /\ e = ValidationError "audio_files" (ValueFolderCount (length folders))
                (lit "No audio files found. Supported extensions: .flac, .mp3, .m4a, .wav, .aac, .ogg, .wma")))
  /\ (forall folder x,
        folder_files U os folder fs = inl x ->
        fs_iterdir os folder fs = inl x
        \/ exists entries f,
             fs_iterdir os folder fs = inr entries /\ f ∈ entries
             /\ bool_decide (str_lower U (path_suffix f) ∈ SUPPORTED_EXTENSIONS) = true
             /\ fs_is_file os f fs = inl x).
Proof.
  split; [| intros folder x; apply folder_files_inl].
  unfold collect_audio_files. destruct folders as [| d ds].
  - simpl. split.
    + intros [= <-]. auto.
    + intros [[_ ->] | [(pre & folder & post & x & H & _) | (H & _)]];
        [reflexivity | destruct pre; discriminate | contradiction].
  - set (l := d :: ds). change (is_nil l) with false. cbv iota.
    pose proof (collect_loop_spec l fs [] 0%nat) as Hloop.
    destruct (collect_loop U os l fs [] 0) as [x | [files' n']] eqn:Hrun.
    + destruct Hloop as (pre & folder & post & Hl & Hpre & Hx). split.
      * intros [= <-]. right. left. exists pre, folder, post, x. auto.
      * intros [[? _] | [(pre' & folder' & post' & x' & Hl' & Hpre' & Hx' & ->) | (_ & Hall & _)]].
        -- discriminate.
        -- rewrite (collect_loop_raises l fs pre' folder' post' x' [] 0%nat Hl' Hpre' Hx')
             in Hrun. congruence.
        -- exfalso. rewrite Hl in Hall. apply Forall_app in Hall as [_ Hall].
           apply Forall_cons in Hall as [Hf _]. apply folder_files_nil in Hf. congruence.
    + destruct Hloop as (-> & blocks & Hb & ->). simpl.
      assert (Hnil : concat blocks = [] <->
                Forall (fun folder => folder_files U os folder fs = inr []) l).
      { clear Hrun. induction Hb as [| folder block fl bl Hf _ IH]; simpl.
        - split; [constructor | reflexivity].
        - split.
          + intros [-> Hr]%app_eq_nil. constructor; [exact Hf | apply IH, Hr].
          + intros [Hf' Hr]%Forall_cons. rewrite Hf in Hf'. injection Hf' as ->.
            simpl. apply IH, Hr. }
      destruct (concat blocks) as [| f0 fl] eqn:E; simpl.
      * split.
        -- intros [= <-]. right. right. split; [discriminate |]. split; [| reflexivity].
           eapply Forall_impl; [apply Hnil; reflexivity |].
           intros folder. apply folder_files_nil.
        -- intros [[? _] | [(pre' & folder' & post' & x' & Hl' & Hpre' & Hx' & ->) | (_ & _ & ->)]].
           ++ discriminate.
           ++ rewrite (collect_loop_raises l fs pre' folder' post' x' [] 0%nat Hl' Hpre' Hx')
                in Hrun. discriminate.
           ++ reflexivity.
      * split; [discriminate |].
        intros [[? _] | [(pre' & folder' & post' & x' & Hl' & Hpre' & Hx' & ->) | (_ & Hall & _)]].
        -- discriminate.
        -- rewrite (collect_loop_raises l fs pre' folder' post' x' [] 0%nat Hl' Hpre' Hx')
             in Hrun. discriminate.
        -- assert (Hf : Forall (fun folder => folder_files U os folder fs = inr []) l).
           { eapply Forall_impl; [exact Hall |]. intros folder. apply folder_files_nil. }
           apply Hnil in Hf. discriminate.
Qed.

End Collect.

Section Validate.

Context {FS : Type} (os : FileSystem FS).

Implicit Types (fs : FS) (folders : list Path) (r : FolderReport).

(** The loop: it ends at the first folder whose [exists()] or [is_dir()]
    raises; otherwise it adds to each list its folders, in order. *)
Lemma validate_loop_spec fs folders : forall r,
  validate_loop os folders fs r
  = match omap (check_error os fs) folders with
    | e :: _ => inl e
    | [] =>
        inr {| missing_folders :=
                 missing_folders r ++ List.filter (is_missing os fs) folders;
               permission_errors :=
                 permission_errors r ++ omap (permission_entry os fs) folders;
               not_directories :=
                 not_directories r ++ List.filter (is_not_directory os fs) folders |}
    end.
Proof.
  induction folders as [| d ds IH]; intros r.
  - simpl. rewrite !app_nil_r. destruct r; reflexivity.
  - cbn [validate_loop]. csimpl.
    unfold check_error at 1, is_missing at 1, is_not_directory at 1,
      permission_entry at 1.
    destruct (fs_exists os d fs) as [e | [|]]; [reflexivity | |].
    + destruct (fs_is_dir os d fs) as [e | [|]]; [reflexivity | |].
      * destruct (fs_iterdir os d fs) as [[e | e] | entries]; rewrite IH;
          destruct (omap (check_error os fs) ds); simpl;
          rewrite <- ?app_assoc; reflexivity.
      * rewrite IH. destruct (omap (check_error os fs) ds); simpl;
          rewrite <- ?app_assoc; reflexivity.
    + rewrite IH. destruct (omap (check_error os fs) ds); simpl;
        rewrite <- ?app_assoc; reflexivity.
Qed.

Lemma validate_nothing_to_report fs folders :
  Forall (is_listable os fs) folders ->
  omap (check_error os fs) folders = []
  /\ List.filter (is_missing os fs) folders = []
  /\ List.filter (is_not_directory os fs) folders = []
  /\ omap (permission_entry os fs) folders = [].
Proof.
  induction 1 as [| d ds (He & Hd & entries & Hl) _ (IH0 & IH1 & IH2 & IH3)];
    [auto |].
  csimpl. unfold check_error at 1, is_missing at 1, is_not_directory at 1,
    permission_entry at 1.
  rewrite He, Hd, Hl. simpl. auto.
Qed.

(** X22: [validate_input_folders] takes the folders in order.  When
    [exists()] or [is_dir()] raises on a folder, this [OSError] is raised
    at the first such folder and nothing is reported.  Otherwise every
    folder is looked at: the error it raises lists all the folders that do
    not exist, all that exist and are no directories, and all the
    directories that cannot be listed, each list in the order of the input.
    It raises nothing exactly when every folder is a directory that can be
    listed. *)
Theorem validate_input_folders_spec folders fs :
  let missing := List.filter (is_missing os fs) folders in
  let not_dirs := List.filter (is_not_directory os fs) folders in
  let denied := omap (permission_entry os fs) folders in
  validate_input_folders os folders fs
  = match omap (check_error os fs) folders with
    | e :: _ => inl (OSError e)
    | [] =>
        if is_nil missing && is_nil denied && is_nil not_dirs then inr tt
        else inl (FolderValidationError
                    {| missing_folders := missing; permission_errors := denied;
                       not_directories := not_dirs |})
    end
  /\ (validate_input_folders os folders fs = inr tt <->
      Forall (is_listable os fs) folders).
Proof.
  intros missing not_dirs denied.
  assert (Heq : validate_input_folders os folders fs
    = match omap (check_error os fs) folders with
      | e :: _ => inl (OSError e)
      | [] =>
          if is_nil missing && is_nil denied && is_nil not_dirs then inr tt
          else inl (FolderValidationError
                      {| missing_folders := missing; permission_errors := denied;
                         not_directories := not_dirs |})
      end).
  { unfold validate_input_folders. rewrite validate_loop_spec.
    destruct (omap (check_error os fs) folders); [| reflexivity].
    cbn [missing_folders permission_errors not_directories app].
    fold missing not_dirs denied.
    destruct (is_nil missing), (is_nil denied), (is_nil not_dirs); reflexivity. }
  split; [exact Heq |]. rewrite Heq. split.
  - destruct (omap (check_error os fs) folders) as [| e es] eqn:E0; [| discriminate].
    intros H. destruct (is_nil missing) eqn:E1; [| discriminate].
    destruct (is_nil denied) eqn:E2; [| discriminate].
    destruct (is_nil not_dirs) eqn:E3; [| discriminate].
    apply is_nil_true in E1, E2, E3. apply List.Forall_forall. intros d Hd.
    assert (Hc : check_error os fs d = None).
    { destruct (check_error os fs d) as [e |] eqn:Hc; [| reflexivity].
      assert (Hin : e ∈ omap (check_error os fs) folders).
      { apply list_elem_of_omap. exists d. split; [apply list_elem_of_In, Hd | exact Hc]. }
      rewrite E0 in Hin. apply elem_of_nil in Hin. contradiction. }
    assert (Hm : is_missing os fs d = false).
    { destruct (is_missing os fs d) eqn:Hm; [| reflexivity].
      assert (In d missing) by (apply filter_In; auto).
      rewrite E1 in *. contradiction. }
    assert (Hn : is_not_directory os fs d = false).
    { destruct (is_not_directory os fs d) eqn:Hn; [| reflexivity].
      assert (In d not_dirs) by (apply filter_In; auto).
      rewrite E3 in *. contradiction. }
    assert (Hp : permission_entry os fs d = None).
    { destruct (permission_entry os fs d) as [x |] eqn:Hp; [| reflexivity].
      assert (Hin : x ∈ denied).
      { apply list_elem_of_omap. exists d. split; [apply list_elem_of_In, Hd | exact Hp]. }
      rewrite E2 in Hin. apply elem_of_nil in Hin. contradiction. }
    unfold check_error, is_missing, is_not_directory, permission_entry, is_listable in *.
    destruct (fs_exists os d fs) as [e | [|]]; try discriminate.
    destruct (fs_is_dir os d fs) as [e | [|]]; try discriminate.
    destruct (fs_iterdir os d fs) as [[e | e] | entries]; try discriminate.
    eauto.
  - intros Hall.
    destruct (validate_nothing_to_report fs folders Hall) as (E0 & E1 & E3 & E2).
    unfold missing, denied, not_dirs. rewrite E0, E1, E2, E3. reflexivity.
Qed.

End Validate.

Section Plan.

Context (U : UnicodeData) {FS : Type} (os : FileSystem FS).

Implicit Types (m : PlaylistMatch) (fs : FS) (base : Path) (p : Playlist).

(** X23: Running a plan of two parts is running the first part and then, if it
    raised nothing, the second part on the file system the first part left;
    the events of the two parts follow each other.  An exception of the
    first part ends the plan. *)
Theorem execute_plan_app (ms1 ms2 : list PlaylistMatch) base copy move dry_run fs :
  execute_plan U os (ms1 ++ ms2) base copy move dry_run fs
  = match execute_plan U os ms1 base copy move dry_run fs with
    | (inl e, fs1, t1) => (inl e, fs1, t1)
    | (inr _, fs1, t1) =>
        match execute_plan U os ms2 base copy move dry_run fs1 with
        | (r, fs2, t2) => (r, fs2, t1 ++ t2)
        end
    end.
Proof.
  revert fs. induction ms1 as [| m r IH]; intros fs.
  - simpl. destruct (execute_plan U os ms2 base copy move dry_run fs) as [[? ?] ?].
    reflexivity.
  - simpl. unfold mbind, IO_mbind, IO_bind.
    destruct (move_or_copy U os m base copy move dry_run fs) as [[[e | []] fs1] t1];
      [reflexivity |].
    rewrite IH.
    destruct (execute_plan U os r base copy move dry_run fs1) as [[[e | []] fs2] t2];
      [reflexivity |].
    destruct (execute_plan U os ms2 base copy move dry_run fs2) as [[? ?] ?].
    rewrite app_assoc. reflexivity.
Qed.

Lemma move_or_copy_dry_run_pure m base copy move fs :
  (move_or_copy U os m base copy move true fs).1.2 = fs
  /\ List.filter is_file_operation (move_or_copy U os m base copy move true fs).2 = [].
Proof.
  destruct (copy || move) eqn:Hmode.
  - assert (Hgate : negb copy && negb move = false)
      by (destruct copy, move; simpl in *; congruence).
    unfold move_or_copy. rewrite Hgate.
    unfold mbind, IO_mbind, IO_bind, exists_.
    destruct (fs_exists os (local_file m) fs) as [e | [|]]; simpl; auto.
    destruct (fs_exists os (_generate_destination_path U m base) fs) as [e | b];
      simpl; auto.
    rewrite andb_false_r. simpl. auto.
  - apply orb_false_iff in Hmode as [-> ->]. auto.
Qed.

Lemma execute_plan_dry_run_pure (ms : list PlaylistMatch) base copy move fs :
  (execute_plan U os ms base copy move true fs).1.2 = fs
  /\ List.filter is_file_operation (execute_plan U os ms base copy move true fs).2 = [].
Proof.
  induction ms as [| m r IH]; [auto |].
  simpl. unfold mbind, IO_mbind, IO_bind.
  destruct (move_or_copy_dry_run_pure m base copy move fs) as [H1 H2].
  destruct (move_or_copy U os m base copy move true fs) as [[[e | []] fs1] t1];
    simpl in H1, H2; subst fs1; [auto |].
  destruct IH as [H3 H4].
  destruct (execute_plan U os r base copy move true fs) as [[r2 fs2] t2].
  simpl in *. rewrite List.filter_app, H2, H4. auto.
Qed.

(** X24: A dry run of [Playlist.move_or_copy] leaves the file system as it was
    and performs no file operation, whatever it returns or raises. *)
Theorem Playlist_move_or_copy_dry_run p (folders : list Path) base copy move fs :
  (Playlist_move_or_copy U os p folders base copy move true fs).1.2 = fs
  /\ List.filter is_file_operation
       (Playlist_move_or_copy U os p folders base copy move true fs).2 = [].
Proof.
  unfold Playlist_move_or_copy.
  destruct (verify_playlist U os p folders fs); [auto |].
  apply execute_plan_dry_run_pure.
Qed.

(** X26: A playlist track without a matching local file, or a local file that
    does not parse, stops [Playlist.move_or_copy] before any match is
    executed: it raises the verification error, and no check, file operation
    or log line of the executor takes place. *)
Theorem Playlist_move_or_copy_all_or_nothing p (folders files : list Path)
    base copy move dry_run fs :
  collect_audio_files U os folders fs = inr files ->
  tracks p <> [] ->
  unparsable U files <> []
  \/ (exists t, t ∈ tracks p
        /\ forall a, a ∈ normalized_artists U t ->
             a ∉ (parsed_as U (normalized_name U t) files).*1) ->
  exists report,
    Playlist_move_or_copy U os p folders base copy move dry_run fs
    = (inl (PlaylistVerificationError report), fs, []).
Proof.
  intros Hfiles Hne Hbad. unfold Playlist_move_or_copy.
  destruct (build_index U files) as [idx errs] eqn:Hidx.
  rewrite (verify_playlist_nonempty U os p folders fs files idx errs Hfiles Hidx Hne).
  assert (Hnil : is_nil errs && is_nil (v_artist_mismatches (verify_tracks U p idx))
                 && is_nil (v_missing_from_local (verify_tracks U p idx)) = false).
  { destruct Hbad as [Hun | (t & Ht & Hall)].
    - pose proof (build_index_errors U files) as He. rewrite Hidx in He. simpl in He.
      rewrite He. destruct (unparsable U files); [contradiction | reflexivity].
    - destruct (verify_tracks_outcome U p idx) as (_ & E2 & E3). rewrite E2, E3.
      assert (Hidx' : idx = (build_index U files).1) by (rewrite Hidx; reflexivity).
      assert (Hm : match_for U (_album_artist_map p) idx t = None).
      { unfold match_for. rewrite Hidx', entries_for_index.
        apply find_match_none in Hall. rewrite Hall. reflexivity. }
      destruct (missing_for U idx t) as [x |] eqn:Hmiss.
      + assert (Hin : x ∈ omap (missing_for U idx) (tracks p))
          by (apply list_elem_of_omap; eauto).
        destruct (omap (missing_for U idx) (tracks p));
          [apply elem_of_nil in Hin; contradiction |].
        rewrite andb_false_r. reflexivity.
      + destruct (mismatch_for U idx t) as [x |] eqn:Hmis.
        * assert (Hin : x ∈ omap (mismatch_for U idx) (tracks p))
            by (apply list_elem_of_omap; eauto).
          destruct (omap (mismatch_for U idx) (tracks p));
            [apply elem_of_nil in Hin; contradiction |].
          rewrite andb_false_r. reflexivity.
        * destruct (outcome_cases U (_album_artist_map p) idx t Hmiss Hmis) as [m Hm'].
          congruence. }
  rewrite Hnil. eexists. reflexivity.
Qed.

(** X27: A real run in copy or move mode, with the source in place and no file
    at the destination: the parent directory of the destination is made
    first, then the file is moved when [move] is set and copied otherwise;
    an exception of either step is raised as the operation error of the move
    or the copy, for the source, with the operation, the destination and
    the text of the exception as its details; and an exception of the first
    step keeps the second from being tried. *)
Theorem move_or_copy_real_run m base copy move fs :
  copy || move = true ->
  fs_exists os (local_file m) fs = inr true ->
  fs_exists os (_generate_destination_path U m base) fs = inr false ->
  let src := local_file m in
  let dst := _generate_destination_path U m base in
  let operation := if move then "move"%string else "copy"%string in
  let checks := [EvExists src; EvExists dst] in
  move_or_copy U os m base copy move false fs
  = match fs_mkdir_parents os (path_parent dst) fs with
    | (fs1, Some e) =>
        (inl (FileOperationError operation src (DetailsFailed operation dst e)), fs1,
         checks ++ [EvMkdir (path_parent dst)])
    | (fs1, None) =>
        match (if move then shutil_move os src dst fs1 else shutil_copy2 os src dst fs1) with
        | (fs2, Some e) =>
            (inl (FileOperationError operation src (DetailsFailed operation dst e)),
             fs2,
             checks ++ [EvMkdir (path_parent dst);
                        if move then EvMove src dst else EvCopy2 src dst])
        | (fs2, None) =>
            (inr tt, fs2,
             checks ++ [EvMkdir (path_parent dst);
                        if move then EvMove src dst else EvCopy2 src dst;
                        EvLog (LogDone move (position (track m) + 1) src dst)])
        end
    end.
Proof.
  intros Hmode Hsrc Hdst. cbv zeta.
  set (dst := _generate_destination_path U m base) in *.
  assert (Hgate : negb copy && negb move = false)
    by (destruct copy, move; simpl in *; congruence).
  unfold move_or_copy. rewrite Hgate.
  unfold mbind, IO_mbind, IO_bind, exists_. rewrite Hsrc. simpl.
  fold dst. rewrite Hdst. simpl. unfold guarded, log.
  destruct (fs_mkdir_parents os (path_parent dst) fs) as [fs1 [e |]]; [reflexivity |].
  destruct move.
  - destruct (shutil_move os (local_file m) dst fs1) as [fs2 [e |]]; reflexivity.
  - destruct (shutil_copy2 os (local_file m) dst fs1) as [fs2 [e |]]; reflexivity.
Qed.

End Plan.


Lemma Playlist_move_or_copy_all_or_nothing_witness :
  exists report,
    Playlist_move_or_copy fragment simple_fs playlist_two [in_dir] out_dir
      true false false fs_one_file
    = (inl (PlaylistVerificationError report), fs_one_file, []).
Proof.
  apply (Playlist_move_or_copy_all_or_nothing fragment simple_fs playlist_two
           [in_dir] fs_one_file).
  - vm_compute. reflexivity.
  - discriminate.
  - right. exists (Track_init 1 (raw_track "Song B" [lit "X"; lit "Y"] 2)). split.
    + apply elem_of_cons. right. apply elem_of_cons. left. reflexivity.
    + intros a _.
      assert (E : parsed_as fragment
                    (normalized_name fragment
                       (Track_init 1 (raw_track "Song B" [lit "X"; lit "Y"] 2)))
                    fs_one_file = []) by (vm_compute; reflexivity).
      rewrite E. apply not_elem_of_nil.
Defined.

Lemma move_or_copy_real_run_witness :
  (move_or_copy fragment simple_fs match_song_a out_dir true false false fs_two_files).1.1
  = inr tt.
Proof.
  rewrite (move_or_copy_real_run fragment simple_fs match_song_a out_dir true false
             fs_two_files);
    vm_compute; reflexivity.
Defined.


Section ConsolidatorOrder.

Implicit Types (a b : str) (ts : list Track).

Lemma filter_length_perm {A} (p : A -> bool) (l1 l2 : list A) :
  l1 ≡ₚ l2 -> length (List.filter p l1) = length (List.filter p l2).
Proof.
  induction 1 as [| x l1 l2 _ IH | x y l | l1 l2 l3 _ IH1 _ IH2]; simpl.
  - reflexivity.
  - destruct (p x); simpl; congruence.
  - destruct (p x), (p y); reflexivity.
  - congruence.
Qed.

Lemma artist_slots_perm ts1 ts2 : ts1 ≡ₚ ts2 -> artist_slots ts1 ≡ₚ artist_slots ts2.
Proof.
  unfold artist_slots.
  induction 1 as [| x l1 l2 _ IH | x y l | l1 l2 l3 _ IH1 _ IH2]; simpl.
  - reflexivity.
  - rewrite IH. reflexivity.
  - rewrite !app_assoc. apply Permutation_app_tail, Permutation_app_comm.
  - etransitivity; eassumption.
Qed.

Lemma attains_max_perm a ts1 ts2 :
  ts1 ≡ₚ ts2 -> attains_max a ts1 -> attains_max a ts2.
Proof.
  intros Hp [Hin Hmax]. pose proof (artist_slots_perm _ _ Hp) as Hs.
  assert (Hocc : forall b, occurrences b ts1 = occurrences b ts2)
    by (intros b; apply filter_length_perm, Hs).
  split; [rewrite <- Hs; exact Hin |].
  intros b. rewrite <- !Hocc. apply Hmax.
Qed.

Lemma sorted_pair a b : sorted str_ltb [a; b] = sorted str_ltb [b; a].
Proof.
  destruct str_ltb_order as (Hi & Ht & Htot).
  unfold sorted. simpl.
  destruct (Htot a b) as [H | [-> | H]].
  - rewrite H, (lt_asym str_ltb Hi Ht _ _ H). reflexivity.
  - reflexivity.
  - rewrite H, (lt_asym str_ltb Hi Ht _ _ H). reflexivity.
Qed.

(** X13: The consolidated album artist does not depend on the order of the
    tracks, as long as some track has an artist. *)
Theorem consolidated_album_artist_perm ts1 ts2 :
  ts1 ≡ₚ ts2 ->
  artist_slots ts1 <> [] ->
  _get_consolidated_album_artist ts1 = _get_consolidated_album_artist ts2.
Proof.
  intros Hp Hne.
  assert (Hne2 : artist_slots ts2 <> []).
  { intros E. apply Hne. pose proof (artist_slots_perm _ _ Hp) as Hs.
    rewrite E in Hs. apply Permutation_nil_r in Hs. exact Hs. }
  destruct ts1 as [| t1 r1]; [contradiction |].
  destruct ts2 as [| t2 r2]; [contradiction |].
  destruct (consolidated_from_top (t1 :: r1) t1 r1 eq_refl Hne)
    as (top1 & Hnd1 & Hmem1 & ->).
  destruct (consolidated_from_top (t2 :: r2) t2 r2 eq_refl Hne2)
    as (top2 & Hnd2 & Hmem2 & ->).
  assert (Htop : top1 ≡ₚ top2).
  { apply NoDup_Permutation; try assumption.
    intros a. rewrite Hmem1, Hmem2.
    split; apply attains_max_perm; [exact Hp | symmetry; exact Hp]. }
  pose proof (Permutation_length Htop) as Hlen. rewrite <- Hlen.
  destruct top1 as [| a [| b [| c top1]]].
  - apply Permutation_nil_l in Htop. subst. reflexivity.
  - apply Permutation_singleton_l in Htop. subst. reflexivity.
  - destruct top2 as [| x [| y [| z top2]]]; try discriminate.
    assert (Hx : x ∈ [a; b]) by (rewrite Htop; apply elem_of_cons; auto).
    assert (Hy : y ∈ [a; b])
      by (rewrite Htop; apply elem_of_cons; right; apply elem_of_cons; auto).
    assert (Hxy : x <> y).
    { apply NoDup_cons in Hnd2 as [Hn _]. intros ->. apply Hn, elem_of_cons. auto. }
    rewrite !elem_of_cons, elem_of_nil in Hx, Hy.
    destruct Hx as [-> | [-> | []]], Hy as [-> | [-> | []]];
      try congruence; try reflexivity.
    rewrite (sorted_pair a b). reflexivity.
  - reflexivity.
Qed.

End ConsolidatorOrder.

Section PlanNoop.

Context (U : UnicodeData) {FS : Type} (os : FileSystem FS).

Lemma execute_plan_noop (ms : list PlaylistMatch) (base : Path) dry_run (fs : FS) :
  execute_plan U os ms base false false dry_run fs = (inr tt, fs, []).
Proof.
  induction ms as [| m r IH]; [reflexivity |].
  simpl. unfold mbind, IO_mbind, IO_bind. simpl. rewrite IH. reflexivity.
Qed.

(** X25: With neither [copy] nor [move], [Playlist.move_or_copy] still verifies
    the playlist, and raises what the verification raises; after that it
    does nothing. *)
Theorem Playlist_move_or_copy_noop (p : Playlist) (folders : list Path) (base : Path)
    dry_run (fs : FS) :
  Playlist_move_or_copy U os p folders base false false dry_run fs
  = match verify_playlist U os p folders fs with
    | inl e => (inl e, fs, [])
    | inr _ => (inr tt, fs, [])
    end.
Proof.
  unfold Playlist_move_or_copy.
  destruct (verify_playlist U os p folders fs); [reflexivity |].
  apply execute_plan_noop.
Qed.

End PlanNoop.

Lemma consolidated_album_artist_perm_witness :
  _get_consolidated_album_artist (tracks playlist_two)
  = _get_consolidated_album_artist (List.rev (tracks playlist_two)).
Proof.
  apply consolidated_album_artist_perm.
  - apply Permutation_rev.
  - vm_compute. discriminate.
Defined.
